(** * Meek STV with a fixed Droop quota: a model of [stv_election.py]

    The election class [SingleTransferableVote] of
    [src/python/stv_election.py] is embedded function by function.

    - The candidate dictionary is the list of its values in insertion
      order, each under its own name as key; an object is reached through
      its key ([find_candidate], [update_candidate]) or through its place.
    - The arithmetic of Python's [float] is an interface ([Arith]).  The
      algorithm is written once over it and has two instances: IEEE binary64
      ([FloatArith], what CPython computes) and exact rationals
      ([ExactArith], the method without rounding, kept for comparison).
      What depends on the control flow alone is proved for every instance.
      What depends on the arithmetic is proved in binary64, from the
      rounding of [SpecFloat] that the primitive operations are specified
      by: the bounds of the count, the keep rates that only shrink, the
      tie of the minimum with itself, the end of the main loop, and how
      far the roundings can take the count from the number of ballots.
    - Exceptions are an error monad ([result]); the [while True] loop of
      [_run_main_loop] takes fuel.
    - Printing is left out: it reads the state and never writes it.

    The definitions come first: the model, the vocabulary of the
    statements, the two arithmetics and the example elections.  The proofs
    follow. *)

From Stdlib Require Import String List Bool Arith ZArith QArith.
From Stdlib Require Import Qpower Qround Qabs Lia Lqa.
From Stdlib Require Import Relations.
From Stdlib Require Import Floats.
Import ListNotations.

(** ** Exceptions *)

Inductive exn : Type :=
| KeyError            (* self.candidates[pref_name] on an unknown name *)
| ZeroDivisionError.  (* a true division by zero *)

Inductive result (T : Type) : Type :=
| Ok (x : T)
| Raise (e : exn).

Arguments Ok {T} x.
Arguments Raise {T} e.

Definition bind {T U : Type} (r : result T) (k : T -> result U) : result U :=
  match r with
  | Ok x => k x
  | Raise e => Raise e
  end.

Notation "x <- r ;; k" := (bind r (fun x => k))
  (at level 61, r at next level, right associativity).

(** ** The arithmetic of Python numbers *)

(** The operations the election performs on [float] values.  [of_int] is the
    conversion of an [int] that Python applies when an [int] meets a [float]
    ([c.votes = 0], [1.0], [self.droop_quota / c.votes], the comparison
    [c.votes > self.droop_quota]); [fdiv] raises [ZeroDivisionError] on a
    zero divisor; [threshold] is the literal [1e-9]. *)
Class Arith : Type := {
  num : Type;
  of_int : Z -> num;
  fadd : num -> num -> num;
  fsub : num -> num -> num;
  fmul : num -> num -> num;
  fdiv : num -> num -> option num;
  fabs : num -> num;
  fltb : num -> num -> bool;
  threshold : num;
  fltb_irrefl : forall x : num, fltb x x = false
}.

Arguments num : simpl never.

(** ** The election state *)

(** [class Candidate], over the type of its two numbers. *)
Record Candidate (num : Type) : Type := mkCandidate {
  name : string;
  votes : num;
  is_winner : bool;
  is_loser : bool;
  keep_rate : num
}.

Arguments mkCandidate {num} name votes is_winner is_loser keep_rate.
Arguments name {num} c.
Arguments votes {num} c.
Arguments is_winner {num} c.
Arguments is_loser {num} c.
Arguments keep_rate {num} c.

(** [class Vote]. *)
Record Vote : Type := mkVote {
  preferences : list string
}.

(** [class SingleTransferableVote].  [ballots] is the attribute
    [self.votes] (a candidate's [votes] keeps the name); [candidates] lists
    the values of the dictionary [self.candidates] in insertion order, each
    under its own [name] as key. *)
Record SingleTransferableVote (num : Type) : Type := mkSTV {
  candidates : list (Candidate num);
  ballots : list Vote;
  num_winners : Z;
  droop_quota : Z
}.

Arguments mkSTV {num} candidates ballots num_winners droop_quota.
Arguments candidates {num} s.
Arguments ballots {num} s.
Arguments num_winners {num} s.
Arguments droop_quota {num} s.

Section Model.

Context {A : Arith}.

Definition MAX_ITERATIONS : nat := 1000.

Definition CONVERGENCE_THRESHOLD : num := threshold.

(** Attribute assignments. *)

Definition set_votes (c : Candidate num) (v : num) : Candidate num :=
  mkCandidate (name c) v (is_winner c) (is_loser c) (keep_rate c).

Definition set_is_winner (c : Candidate num) (b : bool) : Candidate num :=
  mkCandidate (name c) (votes c) b (is_loser c) (keep_rate c).

Definition set_is_loser (c : Candidate num) (b : bool) : Candidate num :=
  mkCandidate (name c) (votes c) (is_winner c) b (keep_rate c).

Definition set_keep_rate (c : Candidate num) (k : num) : Candidate num :=
  mkCandidate (name c) (votes c) (is_winner c) (is_loser c) k.

Definition set_candidates (s : SingleTransferableVote num)
  (cs : list (Candidate num)) : SingleTransferableVote num :=
  mkSTV cs (ballots s) (num_winners s) (droop_quota s).

Definition set_ballots (s : SingleTransferableVote num) (vs : list Vote)
  : SingleTransferableVote num :=
  mkSTV (candidates s) vs (num_winners s) (droop_quota s).

Definition set_droop_quota (s : SingleTransferableVote num) (q : Z)
  : SingleTransferableVote num :=
  mkSTV (candidates s) (ballots s) (num_winners s) q.

(** [not c.is_winner and not c.is_loser] *)
Definition is_active (c : Candidate num) : bool :=
  negb (is_winner c) && negb (is_loser c).

(** ** Construction and loading *)

(** [Candidate.__init__] *)
Definition new_Candidate (n : string) : Candidate num :=
  mkCandidate n (of_int 0) false false (of_int 1).

(** The keys of [dict.fromkeys(l)], and of a dictionary comprehension over
    [l]: every key once, at the place of its first occurrence. *)
Fixpoint dict_fromkeys (l : list string) : list string :=
  match l with
  | [] => []
  | x :: r => x :: filter (fun y => negb (String.eqb x y)) (dict_fromkeys r)
  end.

(** [SingleTransferableVote.__init__] *)
Definition init (candidate_names : list string) (n_winners : Z)
  : SingleTransferableVote num :=
  mkSTV (map new_Candidate (dict_fromkeys candidate_names)) [] n_winners 0.

(** [p in self.candidates] *)
Definition declared (s : SingleTransferableVote num) (p : string) : bool :=
  existsb (fun c => String.eqb (name c) p) (candidates s).

(** The test of [_load_data] on a line, negated: the line is kept. *)
Definition valid_prefs (s : SingleTransferableVote num) (prefs : list string)
  : bool :=
  Nat.eqb (length prefs) (length (dict_fromkeys prefs))
  && forallb (declared s) prefs.

(** [_load_data].  The file is [None] when it does not exist, and otherwise
    its lines, each already stripped and split into its characters
    ([list(line.strip())]); an empty line is skipped. *)
Definition _load_data (s : SingleTransferableVote num)
  (file : option (list (list string))) : SingleTransferableVote num :=
  match file with
  | None => set_ballots s []
  | Some lines =>
      set_ballots s
        (ballots s ++
         map mkVote
           (filter (fun prefs =>
                      match prefs with
                      | [] => false
                      | _ => valid_prefs s prefs
                      end) lines))
  end.

(** [_calculate_droop_quota].  [len(self.votes) / (self.num_winners + 1)]
    is a true division of two integers, floored by [math.floor]: the floor
    of the exact quotient as long as the ballot count stays below 2^53. *)
Definition _calculate_droop_quota (s : SingleTransferableVote num)
  : result (SingleTransferableVote num) :=
  if (num_winners s + 1 =? 0)%Z then Raise ZeroDivisionError
  else Ok (set_droop_quota s
             (Z.of_nat (length (ballots s)) / (num_winners s + 1) + 1)%Z).

(** ** The redistribution engine *)

(** [self.candidates[pref_name]] *)
Definition find_candidate (n : string) (cs : list (Candidate num))
  : option (Candidate num) :=
  find (fun c => String.eqb (name c) n) cs.

(** A mutation of the object stored under the key [n]. *)
Definition update_candidate (n : string) (f : Candidate num -> Candidate num)
  (cs : list (Candidate num)) : list (Candidate num) :=
  map (fun c => if String.eqb (name c) n then f c else c) cs.

(** The inner loop of [_recalculate_votes] over one ballot; it also returns
    the value [vote_value] holds when the loop is left. *)
Fixpoint walk_preferences (prefs : list string) (vote_value : num)
  (cs : list (Candidate num)) : result (list (Candidate num) * num) :=
  match prefs with
  | [] => Ok (cs, vote_value)
  | pref_name :: rest =>
      if fltb vote_value CONVERGENCE_THRESHOLD then Ok (cs, vote_value)
      else
        match find_candidate pref_name cs with
        | None => Raise KeyError
        | Some candidate =>
            let current_keep_rate :=
              if is_active candidate then keep_rate candidate else of_int 0 in
            let transfer_value := fmul vote_value current_keep_rate in
            walk_preferences rest (fsub vote_value transfer_value)
              (update_candidate pref_name
                 (fun c => set_votes c (fadd (votes c) transfer_value)) cs)
        end
  end.

(** The outer loop of [_recalculate_votes], with the value every ballot is
    left with. *)
Fixpoint walk_votes (vs : list Vote) (cs : list (Candidate num))
  : result (list (Candidate num) * list num) :=
  match vs with
  | [] => Ok (cs, [])
  | vote :: rest =>
      r <- walk_preferences (preferences vote) (of_int 1) cs ;;
      r' <- walk_votes rest (fst r) ;;
      Ok (fst r', snd r :: snd r')
  end.

(** [for c in self.candidates.values(): c.votes = 0] *)
Definition zero_votes (cs : list (Candidate num)) : list (Candidate num) :=
  map (fun c => set_votes c (of_int 0)) cs.

(** [_recalculate_votes] *)
Definition _recalculate_votes (s : SingleTransferableVote num)
  : result (SingleTransferableVote num) :=
  r <- walk_votes (ballots s) (zero_votes (candidates s)) ;;
  Ok (set_candidates s (fst r)).

(** ** The convergence loop *)

(** The first loop of [_run_meek_iteration]. *)
Definition reset_keep_rates (s : SingleTransferableVote num)
  : SingleTransferableVote num :=
  set_candidates s
    (map (fun c => if is_active c then set_keep_rate c (of_int 1) else c)
       (candidates s)).

(** [{c.name: c.keep_rate for c in self.candidates.values()}] *)
Definition snapshot (cs : list (Candidate num)) : list (string * num) :=
  map (fun c => (name c, keep_rate c)) cs.

(** [d.get(k, default)] *)
Fixpoint dict_get (d : list (string * num)) (k : string) (default : num)
  : num :=
  match d with
  | [] => default
  | (k', v) :: r => if String.eqb k' k then v else dict_get r k default
  end.

(** [sum(abs(c.keep_rate - previous_keep_rates.get(c.name, 0)) for c in ...)] *)
Definition rate_changed (previous_keep_rates : list (string * num))
  (cs : list (Candidate num)) : num :=
  fold_left fadd
    (map (fun c =>
            fabs (fsub (keep_rate c)
                    (dict_get previous_keep_rates (name c) (of_int 0)))) cs)
    (of_int 0).

(** One candidate of the loop at lines 106-108. *)
Definition shrink (q : Z) (c : Candidate num) : result (Candidate num) :=
  if is_active c && fltb (of_int q) (votes c) then
    match fdiv (of_int q) (votes c) with
    | None => Raise ZeroDivisionError
    | Some f => Ok (set_keep_rate c (fmul (keep_rate c) f))
    end
  else Ok c.

Fixpoint shrink_keep_rates (q : Z) (cs : list (Candidate num))
  : result (list (Candidate num)) :=
  match cs with
  | [] => Ok []
  | c :: r =>
      c' <- shrink q c ;;
      r' <- shrink_keep_rates q r ;;
      Ok (c' :: r')
  end.

(** Lines 104-108: one pass of the body of the [for] loop, up to the
    convergence test. *)
Definition meek_step (s : SingleTransferableVote num)
  : result (SingleTransferableVote num) :=
  s1 <- _recalculate_votes s ;;
  cs <- shrink_keep_rates (droop_quota s1) (candidates s1) ;;
  Ok (set_candidates s1 cs).

(** [for i in range(...)] with its [break]; the [else] branch only prints. *)
Fixpoint meek_for (i : nat) (s : SingleTransferableVote num)
  : result (SingleTransferableVote num) :=
  match i with
  | O => Ok s
  | S i' =>
      let previous_keep_rates := snapshot (candidates s) in
      s' <- meek_step s ;;
      if fltb (rate_changed previous_keep_rates (candidates s'))
           CONVERGENCE_THRESHOLD
      then Ok s'
      else meek_for i' s'
  end.

(** [_run_meek_iteration] *)
Definition _run_meek_iteration (s : SingleTransferableVote num)
  : result (SingleTransferableVote num) :=
  s1 <- meek_for MAX_ITERATIONS (reset_keep_rates s) ;;
  _recalculate_votes s1.

(** ** Elimination and election *)

(** [[c for c in self.candidates.values()
      if not c.is_winner and not c.is_loser]] *)
Definition active_candidates (s : SingleTransferableVote num)
  : list (Candidate num) :=
  filter is_active (candidates s).

(** Python's [min] over a non-empty sequence: the first element is kept
    until a strictly smaller one is met. *)
Definition py_min (x : num) (xs : list num) : num :=
  fold_left (fun m v => if fltb v m then v else m) xs x.

(** [abs(c.votes - min_votes) < self.CONVERGENCE_THRESHOLD] *)
Definition tied (min_votes : num) (c : Candidate num) : bool :=
  fltb (fabs (fsub (votes c) min_votes)) CONVERGENCE_THRESHOLD.

(** Lines 154-155, for one candidate of the dictionary: the test on a
    member of [active_candidates] and the assignment. *)
Definition eliminate (min_votes : num) (c : Candidate num) : Candidate num :=
  if is_active c && tied min_votes c then set_is_loser c true else c.

(** [_eliminate_loser] *)
Definition _eliminate_loser (s : SingleTransferableVote num)
  : SingleTransferableVote num :=
  match map votes (active_candidates s) with
  | [] => s
  | v :: vs =>
      let min_votes := py_min v vs in
      set_candidates s (map (eliminate min_votes) (candidates s))
  end.

(** [c.votes > self.droop_quota] *)
Definition over_quota (q : Z) (c : Candidate num) : bool :=
  fltb (of_int q) (votes c).

(** [_elect_winners]: the state and the returned flag.  No other method
    calls it. *)
Definition _elect_winners (s : SingleTransferableVote num)
  : SingleTransferableVote num * bool :=
  (set_candidates s
     (map (fun c =>
             if is_active c && over_quota (droop_quota s) c
             then set_is_winner c true else c)
        (candidates s)),
   existsb (fun c => is_active c && over_quota (droop_quota s) c)
     (candidates s)).

(** For every value of the dictionary, whether the object is in the list
    [active_candidates] built from [s] (line 71). *)
Definition collected (s : SingleTransferableVote num) : list bool :=
  map is_active (candidates s).

(** The loop at lines 77-82 over the objects collected at line 71, each
    given by its place in the dictionary: [marks] tells, candidate by
    candidate, whether the object is in [active_candidates].  A pass writes
    one flag of its own candidate and reads nothing another pass writes, so
    the order [sorted] puts them in shows in the printed output only. *)
Definition decide_winners (marks : list bool)
  (s : SingleTransferableVote num) : SingleTransferableVote num :=
  set_candidates s
    (map (fun bc : bool * Candidate num =>
            let (b, c) := bc in
            if b then
              if over_quota (droop_quota s) c
              then set_is_winner c true
              else set_is_loser c true
            else c)
       (combine marks (candidates s))).

(** [_run_single_round] *)
Definition _run_single_round (s : SingleTransferableVote num)
  : result (SingleTransferableVote num) :=
  s1 <- _run_meek_iteration s ;;
  Ok (_eliminate_loser s1).

(** One pass of the body of [while True] in [_run_main_loop]; the flag
    tells whether the pass ends in [break]. *)
Definition main_loop_body (s : SingleTransferableVote num)
  : result (bool * SingleTransferableVote num) :=
  let active := active_candidates s in
  if (Z.of_nat (length active) <=? num_winners s)%Z then
    s1 <- _run_meek_iteration s ;;
    Ok (true, decide_winners (collected s) s1)
  else
    s1 <- _run_single_round s ;;
    Ok (false, s1).

(** [_run_main_loop]; [None] when the fuel does not reach the [break]. *)
Fixpoint _run_main_loop (fuel : nat) (s : SingleTransferableVote num)
  : option (result (SingleTransferableVote num)) :=
  match fuel with
  | O => None
  | S fuel' =>
      match main_loop_body s with
      | Raise e => Some (Raise e)
      | Ok (true, s') => Some (Ok s')
      | Ok (false, s') => _run_main_loop fuel' s'
      end
  end.

(** [run_election] *)
Definition run_election (fuel : nat) (s : SingleTransferableVote num)
  (file : option (list (list string)))
  : option (result (SingleTransferableVote num)) :=
  let s1 := _load_data s file in
  match ballots s1 with
  | [] => Some (Ok s1)
  | _ :: _ =>
      match _calculate_droop_quota s1 with
      | Raise e => Some (Raise e)
      | Ok s2 => _run_main_loop fuel s2
      end
  end.

End Model.

(** ** Points of a run *)

Section Points.

Context {A : Arith}.

(** What [_display_round_summary] shows for a candidate. *)
Inductive Status : Type := Active | Elected | Eliminated.

Definition status (c : Candidate num) : Status :=
  if is_winner c then Elected
  else if is_loser c then Eliminated
  else Active.

(** The operations that write the state, as [run_election] reaches them
    after the quota is set: the statement of each loop, taken whole. *)
Inductive op
  : SingleTransferableVote num -> SingleTransferableVote num -> Prop :=
| op_reset s :
    op s (reset_keep_rates s)
| op_recalculate s s' :
    _recalculate_votes s = Ok s' -> op s s'
| op_shrink s cs :
    shrink_keep_rates (droop_quota s) (candidates s) = Ok cs ->
    op s (set_candidates s cs)
| op_eliminate s :
    op s (_eliminate_loser s)
| op_decide s :
    op s (decide_winners (collected s) s).

(** [points s s']: the run that is in [s] can be in [s'] later. *)
Definition points : relation (SingleTransferableVote num) :=
  clos_refl_trans_1n _ op.

(** A pass of the main loop that does not end the run, and the one that
    does. *)
Definition next_round (s s' : SingleTransferableVote num) : Prop :=
  main_loop_body s = Ok (false, s').

Definition last_round (s s' : SingleTransferableVote num) : Prop :=
  main_loop_body s = Ok (true, s').

(** The states in which the run is at the head of [while True]. *)
Definition rounds : relation (SingleTransferableVote num) :=
  clos_refl_trans_1n _ next_round.

End Points.

(** ** The vocabulary of the statements *)

Section Vocabulary.

Context {A : Arith}.

(** Attributes that an assignment to [votes], or to [keep_rate], does not
    touch. *)
Definition votes_free {X : Type} (p : Candidate num -> X) : Prop :=
  forall c v, p (set_votes c v) = p c.

Definition keep_free {X : Type} (p : Candidate num -> X) : Prop :=
  forall c k, p (set_keep_rate c k) = p c.

(** The name and the two flags of a candidate. *)
Definition ident (c : Candidate num) : string * bool * bool :=
  (name c, is_winner c, is_loser c).

(** Everything but the candidates' votes and keep rates. *)
Definition static (s s' : SingleTransferableVote num) : Prop :=
  ballots s' = ballots s /\
  num_winners s' = num_winners s /\
  droop_quota s' = droop_quota s /\
  map ident (candidates s') = map ident (candidates s).

(** The settings of the run: the ballots, the number of seats, the quota. *)
Definition config (s : SingleTransferableVote num) : list Vote * Z * Z :=
  (ballots s, num_winners s, droop_quota s).

(** A candidate that is not active keeps its name and both flags. *)
Definition frozen (c c' : Candidate num) : Prop :=
  name c' = name c /\
  (status c <> Active ->
   is_winner c' = is_winner c /\ is_loser c' = is_loser c).

(** A candidate is not both elected and eliminated. *)
Definition exclusive (c : Candidate num) : Prop :=
  is_winner c && is_loser c = false.

(** What the terminal loop does to a candidate that was collected. *)
Definition decide (q : Z) (c : Candidate num) : Candidate num :=
  if is_active c then
    if over_quota q c then set_is_winner c true else set_is_loser c true
  else c.

Definition not_elected (c : Candidate num) : Prop := is_winner c = false.

(** [p in self.candidates], on the list of values. *)
Definition known (cs : list (Candidate num)) (p : string) : bool :=
  existsb (fun c => String.eqb (name c) p) cs.

(** What [_load_data] guarantees and a dictionary is: the keys are
    distinct, and every preference of every ballot is a key. *)
Definition well_formed (s : SingleTransferableVote num) : Prop :=
  NoDup (map name (candidates s)) /\
  Forall (fun v => Forall (fun p => known (candidates s) p = true)
                     (preferences v))
    (ballots s).

(** The state after [k] passes of the body of the [for] loop, when none of
    them breaks out of it. *)
Fixpoint meek_iterations (k : nat) (s : SingleTransferableVote num)
  : result (SingleTransferableVote num) :=
  match k with
  | O => Ok s
  | S k' => s' <- meek_step s ;; meek_iterations k' s'
  end.

End Vocabulary.

(** ** Two arithmetics *)

(** Exact rationals. *)

Definition Qltb (x y : Q) : bool :=
  match Qcompare x y with
  | Lt => true
  | _ => false
  end.

Definition Qdiv_py (x y : Q) : option Q :=
  if Qeq_bool y 0 then None else Some (x / y)%Q.

Definition ExactArith : Arith.
Proof.
  refine {|
    num := Q;
    of_int := inject_Z;
    fadd := Qplus;
    fsub := Qminus;
    fmul := Qmult;
    fdiv := Qdiv_py;
    fabs := Qabs;
    fltb := Qltb;
    threshold := (1 # 1000000000)%Q;
    fltb_irrefl := _
  |}.
  intros x. unfold Qltb.
  rewrite (proj1 (Qeq_alt x x) (Qeq_refl x)). reflexivity.
Defined.

(** IEEE binary64, round to nearest even: CPython's [float].  [of_int] is
    exact up to 2^53 in magnitude. *)

Definition float_of_int (z : Z) : float :=
  SF2Prim (binary_normalize prec emax z 0 false).

Definition float_div (x y : float) : option float :=
  if PrimFloat.eqb y 0%float then None else Some (x / y)%float.

Definition FloatArith : Arith.
Proof.
  refine {|
    num := float;
    of_int := float_of_int;
    fadd := PrimFloat.add;
    fsub := PrimFloat.sub;
    fmul := PrimFloat.mul;
    fdiv := float_div;
    fabs := PrimFloat.abs;
    fltb := PrimFloat.ltb;
    (* 1e-9 rounded to binary64, as Python reads the literal *)
    threshold := 0x1.12e0be826d695p-30%float;
    fltb_irrefl := _
  |}.
  intros x. rewrite ltb_spec. unfold SFltb, SFcompare.
  destruct (Prim2SF x) as [s|s| |s m e];
    try (destruct s; reflexivity); try reflexivity.
  rewrite Z.compare_refl.
  change (PosDef.Pos.compare_cont Eq m m) with (Pos.compare m m).
  rewrite Pos.compare_refl. destruct s; reflexivity.
Defined.

(** ** The vocabulary of the statements in exact arithmetic *)

Section ExactVocabulary.

#[local] Existing Instance ExactArith.

Open Scope Q_scope.

(** The sum of a list. *)
Definition total (l : list Q) : Q := fold_right Qplus 0 l.

(** Between two consecutive iterations: the keep rate of an Active
    candidate stays in (0, 1] and does not grow; it is multiplied by
    quota / votes when the recomputed votes are above the quota and left
    alone when they are not; other candidates keep theirs. *)
Definition shrinks (q : Z) (c c' : Candidate num) : Prop :=
  name c' = name c /\
  status c' = status c /\
  (status c = Active ->
   0 < keep_rate c' /\ keep_rate c' <= keep_rate c /\ keep_rate c <= 1 /\
   (inject_Z q < votes c' ->
    keep_rate c' = keep_rate c * (inject_Z q / votes c')) /\
   (~ inject_Z q < votes c' -> keep_rate c' = keep_rate c)) /\
  (status c <> Active -> keep_rate c' = keep_rate c).

(** The keep rate of every Active candidate is in (0, 1]. *)
Definition rates_ok (cs : list (Candidate num)) : Prop :=
  Forall (fun c => status c = Active -> 0 < keep_rate c /\ keep_rate c <= 1)
    cs.

End ExactVocabulary.

(** ** The scenario of three candidates and four ballots, in binary64 *)

Module Scenario.

Open Scope string_scope.

Definition names : list string := ["A"; "B"; "C"].

(** The ballot file, line by line: AB, AB, B, C. *)
Definition file : option (list (list string)) :=
  Some [["A"; "B"]; ["A"; "B"]; ["B"]; ["C"]].

Definition loaded : SingleTransferableVote (@num FloatArith) :=
  _load_data (@init FloatArith names 1) file.

Definition candidate (n : string) (v : float) (w l : bool)
  : Candidate (@num FloatArith) :=
  mkCandidate n v w l 1%float.

(** The state after [_calculate_droop_quota]. *)
Definition with_quota : SingleTransferableVote (@num FloatArith) :=
  mkSTV [candidate "A" 0 false false;
         candidate "B" 0 false false;
         candidate "C" 0 false false]
    (ballots loaded) 1 3.

(** The state after round 1: B and C are out. *)
Definition after_round_1 : SingleTransferableVote (@num FloatArith) :=
  mkSTV [candidate "A" 2 false false;
         candidate "B" 1 false true;
         candidate "C" 1 false true]
    (ballots loaded) 1 3.

(** The state the run ends in: nobody is elected. *)
Definition final : SingleTransferableVote (@num FloatArith) :=
  mkSTV [candidate "A" 2 false true;
         candidate "B" 0 false true;
         candidate "C" 0 false true]
    (ballots loaded) 1 3.

(** A file without a valid line: a repeated candidate, an unknown one, an
    empty line. *)
Definition bad_file : option (list (list string)) :=
  Some [["A"; "A"]; ["D"]; []].

End Scenario.

(** ** Elections in exact arithmetic *)

Module ExactScenario.

Open Scope string_scope.
Open Scope Q_scope.

Definition candidate (n : string) (v : Q) (w l : bool) (k : Q)
  : Candidate (@num ExactArith) :=
  mkCandidate n v w l k.

(** The ballots AB, AB, B, C in the middle of a count: A keeps 3/10 and B
    1/5 of what reaches them, C is eliminated. *)
Definition partial : SingleTransferableVote (@num ExactArith) :=
  mkSTV [candidate "A" 0 false false (3 # 10);
         candidate "B" 0 false false (1 # 5);
         candidate "C" 7 false true 1]
    [mkVote ["A"; "B"]; mkVote ["A"; "B"]; mkVote ["B"]; mkVote ["C"]]
    1 3.

(** Six ballots, one seat, quota 4: A is ranked first on five of them. *)
Definition surplus : SingleTransferableVote (@num ExactArith) :=
  mkSTV [candidate "A" 0 false false 1;
         candidate "B" 0 false false 1]
    [mkVote ["A"; "B"]; mkVote ["A"; "B"]; mkVote ["A"; "B"];
     mkVote ["A"]; mkVote ["A"]; mkVote ["B"]]
    1 4.

(** [surplus] after the first iteration of the convergence loop: A is
    counted 5 votes and its keep rate becomes 4/5. *)
Definition surplus_1 : SingleTransferableVote (@num ExactArith) :=
  mkSTV [candidate "A" 5 false false (4 # 5);
         candidate "B" 1 false false 1]
    (ballots surplus) 1 4.

(** And after the second: A is at the quota, its keep rate stays. *)
Definition surplus_2 : SingleTransferableVote (@num ExactArith) :=
  mkSTV [candidate "A" (12500 # 3125) false false (4 # 5);
         candidate "B" (200 # 125) false false 1]
    (ballots surplus) 1 4.

End ExactScenario.

(** ** The rest of the program: reading the file, [main], the final display *)

(** [line.strip()] on a line given by its characters; [isspace] is
    [str.isspace] on one character. *)
Fixpoint lstrip (isspace : string -> bool) (line : list string)
  : list string :=
  match line with
  | [] => []
  | c :: r => if isspace c then lstrip isspace r else line
  end.

Definition rstrip (isspace : string -> bool) (line : list string)
  : list string :=
  rev (lstrip isspace (rev line)).

Definition strip (isspace : string -> bool) (line : list string)
  : list string :=
  rstrip isspace (lstrip isspace line).

(** What [open(filepath, 'r')] and the reading of the lines come to: the
    file is not there ([FileNotFoundError], the one exception [_load_data]
    catches), the lines are read, or [open] or the reading raises another
    exception ([IsADirectoryError], [PermissionError],
    [UnicodeDecodeError]), which nothing catches. *)
Inductive reading : Type :=
| NotFound
| Lines (raw : list (list string))
| Unreadable.

(** How a run ends: it returns, the count raises an exception, or the
    exception of the reading leaves [run_election]. *)
Inductive ending (T : Type) : Type :=
| Returned (x : T)
| Raised (e : exn)
| Escaped.

Arguments Returned {T} x.
Arguments Raised {T} e.
Arguments Escaped {T}.

Definition ended {T : Type} (o : option (result T)) : option (ending T) :=
  option_map (fun r => match r with
                       | Ok x => Returned x
                       | Raise e => Raised e
                       end) o.

Section Program.

Context {A : Arith}.

(** [_load_data] on the lines as the file gives them: each is stripped
    and split into its characters before the tests of [_load_data]. *)
Definition load_file (isspace : string -> bool)
  (s : SingleTransferableVote num) (raw : option (list (list string)))
  : SingleTransferableVote num :=
  _load_data s (option_map (map (strip isspace)) raw).

(** [main] of [main.py] after [parse_args]: [candidates] are the
    characters of [args.candidates] ([list(args.candidates)]), [n_winners]
    is [args.num_winners], [raw] the lines of the file at [args.filepath];
    [args.verbose] only prints. *)
Definition main (isspace : string -> bool) (fuel : nat)
  (candidates : list string) (n_winners : Z)
  (raw : option (list (list string)))
  : option (result (SingleTransferableVote num)) :=
  run_election fuel (init candidates n_winners)
    (option_map (map (strip isspace)) raw).

(** [main] on what the reading of the file comes to: an exception that
    [_load_data] does not catch ends the run before anything is counted. *)
Definition main_at (isspace : string -> bool) (fuel : nat)
  (candidates : list string) (n_winners : Z) (f : reading)
  : option (ending (SingleTransferableVote num)) :=
  match f with
  | Unreadable => Some Escaped
  | NotFound => ended (main isspace fuel candidates n_winners None)
  | Lines raw => ended (main isspace fuel candidates n_winners (Some raw))
  end.

(** The label [_display_final_results] prints for a candidate: elected if
    [c.is_winner], eliminated otherwise. *)
Definition final_status (c : Candidate num) : Status :=
  if is_winner c then Elected else Eliminated.

(** The candidates [_display_final_results] lists as winners, before it
    sorts them by name. *)
Definition winners (s : SingleTransferableVote num) : list (Candidate num) :=
  filter is_winner (candidates s).

End Program.

Section ProgramVocabulary.

Context {A : Arith}.

(** The name and the flags of a candidate, with its keep rate when it is
    not Active. *)
Definition parked (c : Candidate num) : string * bool * bool * option num :=
  (ident c, if is_active c then None else Some (keep_rate c)).

End ProgramVocabulary.

Section ExactProgramVocabulary.

#[local] Existing Instance ExactArith.

Open Scope Q_scope.

(** The keep rate of every Active candidate is in [0, 1], as it is from
    the reset of [_run_meek_iteration] on. *)
Definition rates_in_unit (cs : list (Candidate num)) : Prop :=
  Forall (fun c => status c = Active ->
                   0 <= keep_rate c /\ keep_rate c <= 1) cs.

(** A candidate in the middle of a pass of [_recalculate_votes]: its keep
    rate is in [0, 1] while it is Active, its votes are not negative, and
    it has none when it is not Active. *)
Definition counted (c : Candidate num) : Prop :=
  (status c = Active -> 0 <= keep_rate c /\ keep_rate c <= 1) /\
  0 <= votes c /\
  (status c <> Active -> votes c == 0).

End ExactProgramVocabulary.

(** ** Runs of the program used as instances *)

Module ProgramScenario.

Open Scope string_scope.

(** [str.isspace] on the characters of an ASCII file: the tab, the line
    feed, the vertical tab, the form feed, the carriage return, the
    separators 28 to 31 and the space. *)
Definition isspace (c : string) : bool :=
  match c with
  | String a EmptyString =>
      let n := Ascii.nat_of_ascii a in
      ((9 <=? n) && (n <=? 13) || (28 <=? n) && (n <=? 32))%nat
  | _ => false
  end.

Definition LF : string := String (Ascii.ascii_of_nat 10) EmptyString.

(** Two lines as a text editor leaves them, and the same two lines bare. *)
Definition padded : list (list string) :=
  [[" "; "A"; "B"; LF]; ["B"; " "; LF]].

Definition bare : list (list string) := [["A"; "B"]; ["B"]].

(** Four ballots for A, each line with its line feed. *)
Definition four_for_A : option (list (list string)) :=
  Some [["A"; LF]; ["A"; LF]; ["A"; LF]; ["A"; LF]].

(** The same lines, as read. *)
Definition four_for_A_lines : list (list string) :=
  [["A"; LF]; ["A"; LF]; ["A"; LF]; ["A"; LF]].

(** [Scenario.with_quota] once counted: nobody is over the quota of 3. *)
Definition counted_once : SingleTransferableVote (@num FloatArith) :=
  mkSTV [Scenario.candidate "A" 2 false false;
         Scenario.candidate "B" 1 false false;
         Scenario.candidate "C" 1 false false]
    (ballots Scenario.loaded) 1 3.

(** Ten ballots for two seats, quota 4: five AB, four BA, one C. *)
Definition two_seats_names : list string := ["A"; "B"; "C"].

Definition two_seats_file : option (list (list string)) :=
  Some [["A"; "B"]; ["A"; "B"]; ["A"; "B"]; ["A"; "B"]; ["A"; "B"];
        ["B"; "A"]; ["B"; "A"]; ["B"; "A"]; ["B"; "A"]; ["C"]].

(** The state the run on these ballots ends in after two rounds: the
    convergence loop stops with A and B a little over the quota, and both
    are elected. *)
Definition two_seats_final : SingleTransferableVote (@num FloatArith) :=
  mkSTV [mkCandidate "A" 0x1.0000000000001p+2%float true false
           0x1.48477398bb98ep-1%float;
         mkCandidate "B" 0x1.00000001ae765p+2%float true false
           0x1.6175c2478592ep-1%float;
         mkCandidate "C" 0%float false true 1%float]
    (map mkVote
       [["A"; "B"]; ["A"; "B"]; ["A"; "B"]; ["A"; "B"]; ["A"; "B"];
        ["B"; "A"]; ["B"; "A"]; ["B"; "A"]; ["B"; "A"]; ["C"]])
    2 4.

End ProgramScenario.

Module ExactProgramScenario.

Import ExactScenario.

Open Scope string_scope.
Open Scope Q_scope.

(** [partial] counted with the keep rates of A and B back at 1. *)
Definition partial_reset : SingleTransferableVote (@num ExactArith) :=
  mkSTV [candidate "A" 2 false false 1;
         candidate "B" 1 false false 1;
         candidate "C" 0 false true 1]
    (ballots partial) 1 3.

(** [surplus] once counted: A is over the quota of 4. *)
Definition surplus_counted : SingleTransferableVote (@num ExactArith) :=
  mkSTV [candidate "A" 5 false false 1;
         candidate "B" 1 false false 1]
    (ballots surplus) 1 4.

(** A and B tied at 2 votes for one seat, C already out. *)
Definition tie : SingleTransferableVote (@num ExactArith) :=
  mkSTV [candidate "A" 2 false false 1;
         candidate "B" 2 false false 1;
         candidate "C" 0 false true 1]
    [mkVote ["A"]; mkVote ["A"]; mkVote ["B"]; mkVote ["B"]]
    1 3.

End ExactProgramScenario.

(** ** The values of binary64 numbers *)

Section Binary64.

Local Open Scope Z_scope.

(** The least exponent of a binary64 mantissa. *)
Definition emin64 : Z := -1074.

(** The value of a mantissa and an exponent. *)
Definition pow2 (e : Z) : Q := (2 ^ e)%Q.

Definition F2Q (m e : Z) : Q := (inject_Z m * pow2 e)%Q.

(** A mantissa in working position: below 2^53, and at least 2^52 unless
    the exponent is the least one. *)
Definition aligned (m e : Z) : Prop :=
  0 <= m < 2 ^ 53 /\ emin64 <= e /\ (2 ^ 52 <= m \/ e = emin64).

(** The value of a finite number; 0 stands for the others. *)
Definition SF2Q (x : spec_float) : Q :=
  match x with
  | S754_finite s m e => F2Q (cond_Zopp s (Zpos m)) e
  | _ => 0%Q
  end.

(** Finite and not negative. *)
Definition SFfin (x : spec_float) : Prop :=
  match x with
  | S754_zero _ => True
  | S754_finite false _ _ => True
  | _ => False
  end.

(** A real [x] that a mantissa, an exponent and a location stand for. *)
Definition inbetween (m e : Z) (l : location) (x : Q) : Prop :=
  (F2Q m e <= x)%Q /\ (x < F2Q (m + 1) e)%Q /\
  (l = loc_Exact -> (x == F2Q m e)%Q) /\
  (l <> loc_Exact -> (F2Q m e < x)%Q).

(** The value of a finite binary64 number; 0 stands for the infinities
    and for nan, which [fin] excludes. *)
Definition B2Q (x : float) : Q := SF2Q (Prim2SF x).

(** A binary64 number that is finite and not negative. *)
Definition fin (x : float) : Prop := SFfin (Prim2SF x).

(** The value of a finite binary64 number that is not negative. *)
Definition representable (q : Q) : Prop :=
  exists m e, aligned m e /\ e <= 971 /\ (q == F2Q m e)%Q.

End Binary64.

(** ** The vocabulary of the statements in binary64 *)

Section Binary64Vocabulary.

#[local] Existing Instance FloatArith.

Open Scope Q_scope.

(** A finite number between 0 and 1. *)
Definition unit64 (x : float) : Prop := fin x /\ B2Q x <= 1.

(** Every Active candidate has its keep rate between 0 and 1. *)
Definition rates64 (cs : list (Candidate num)) : Prop :=
  Forall (fun c => status c = Active -> unit64 (keep_rate c)) cs.

(** A candidate in a count of at most [n] ballots: its votes are finite,
    between 0 and [n], and 0 when it is not Active. *)
Definition counted64 (n : Z) (c : Candidate num) : Prop :=
  fin (votes c) /\
  B2Q (votes c) <= inject_Z n /\
  (status c <> Active -> B2Q (votes c) == 0).

(** A candidate while the ballot number [n + 1] is walked, [prefs] being
    the names still to come: it has at most [n] votes as long as its name
    is to come, and at most one more after. *)
Definition walking64 (n : Z) (prefs : list string) (c : Candidate num)
  : Prop :=
  (status c = Active -> unit64 (keep_rate c)) /\
  fin (votes c) /\
  B2Q (votes c) <= inject_Z (n + 1) /\
  (In (name c) prefs -> B2Q (votes c) <= inject_Z n) /\
  (status c <> Active -> B2Q (votes c) <= 0).

(** Python's [x <= y] on two floats. *)
Definition le64 (x y : float) : Prop := (x <=? y)%float = true.

(** Between two consecutive iterations of the convergence loop, in
    binary64: the keep rate of an Active candidate stays between 0 and 1
    and does not grow; it is multiplied by quota / votes, a factor between
    0 and 1, when the recomputed votes are above the quota and left alone
    when they are not; other candidates keep theirs. *)
Definition shrinks64 (q : Z) (c c' : Candidate num) : Prop :=
  name c' = name c /\
  status c' = status c /\
  (status c = Active ->
   le64 0 (keep_rate c') /\
   le64 (keep_rate c') (keep_rate c) /\
   le64 (keep_rate c) 1 /\
   (over_quota q c' = true ->
    le64 0 (float_of_int q / votes c') /\
    le64 (float_of_int q / votes c') 1 /\
    keep_rate c' = (keep_rate c * (float_of_int q / votes c'))%float) /\
   (over_quota q c' = false -> keep_rate c' = keep_rate c)) /\
  (status c <> Active -> keep_rate c' = keep_rate c).

(** A candidate after a count of [n] ballots, in Python's comparisons:
    the keep rate between 0 and 1 if it is Active, the votes between 0 and
    [n], and equal to 0 if it is not Active. *)
Definition within64 (n : Z) (c : Candidate num) : Prop :=
  (status c = Active ->
   le64 0 (keep_rate c) /\ le64 (keep_rate c) 1) /\
  le64 0 (votes c) /\
  le64 (votes c) (float_of_int n) /\
  (status c <> Active -> (votes c =? 0)%float = true).

(** The votes of all the candidates together, and what is left of all
    the ballots together, as exact sums of the binary64 values. *)
Definition tally64 (cs : list (Candidate num)) : Q :=
  total (map (fun c => B2Q (votes c)) cs).

Definition remainders64 (rs : list float) : Q := total (map B2Q rs).

(** The number of names on all the ballots together. *)
Definition preferences_count (vs : list Vote) : Z :=
  fold_right (fun v n => (Z.of_nat (length (preferences v)) + n)%Z) 0%Z vs.

(** What one step of the walk can lose or win by rounding, with the votes
    on a grid of 2^c: one addition to the votes, one subtraction from the
    value of the ballot. *)
Definition step_error (c : Z) : Q := pow2 c + pow2 (-53).

(** No ballot repeats a name, and the ballots are fewer than 2^53. *)
Definition ballots_ok (s : SingleTransferableVote num) : Prop :=
  Forall (fun v => NoDup (preferences v)) (ballots s) /\
  (Z.of_nat (length (ballots s)) < 2 ^ 53)%Z.

(** The keep rate of every Active candidate is between 0 and 1 in
    Python's comparisons, as it is from the reset of
    [_run_meek_iteration] on. *)
Definition rates_in_unit64 (cs : list (Candidate num)) : Prop :=
  Forall (fun c => status c = Active ->
                   le64 0 (keep_rate c) /\ le64 (keep_rate c) 1) cs.

(** Python's [sum] of a sequence of floats: from 0, left to right. *)
Definition float_sum (l : list float) : float :=
  fold_left PrimFloat.add l 0%float.

End Binary64Vocabulary.

(** ** Counts in binary64 used as instances *)

Module Binary64Scenario.

Open Scope string_scope.

Definition candidate (n : string) (v : float) (w l : bool) (k : float)
  : Candidate (@num FloatArith) :=
  mkCandidate n v w l k.

(** One ballot AB; A keeps 0.3 and B 0.2 of what reaches them, as Python
    reads the two literals. *)
Definition shares : SingleTransferableVote (@num FloatArith) :=
  mkSTV [candidate "A" 0 false false 0x1.3333333333333p-2;
         candidate "B" 0 false false 0x1.999999999999ap-3]
    [mkVote ["A"; "B"]]
    1 1.

(** What the walk of that ballot leaves: 0.3 to A, 0.2 of the rest to B,
    and the value the ballot ends with. *)
Definition shares_counted : list (Candidate (@num FloatArith)) :=
  [candidate "A" 0x1.3333333333333p-2 false false 0x1.3333333333333p-2;
   candidate "B" 0x1.1eb851eb851ebp-3 false false 0x1.999999999999ap-3].

Definition shares_left : list float := [0x1.1eb851eb851ebp-1%float].

(** One ballot A, with the keep rate of A at 2^1000. *)
Definition heavy : SingleTransferableVote (@num FloatArith) :=
  mkSTV [candidate "A" 0 false false 0x1p+1000]
    [mkVote ["A"]]
    1 1.

Definition heavy_counted : list (Candidate (@num FloatArith)) :=
  [candidate "A" 0x1p+1000 false false 0x1p+1000].

Definition heavy_left : list float := [(-0x1p+1000)%float].

(** The ballots AB, AB, B, C in the middle of a count: A keeps 0.3 and B
    0.2 of what reaches them, C is eliminated. *)
Definition partial : SingleTransferableVote (@num FloatArith) :=
  mkSTV [candidate "A" 0 false false 0x1.3333333333333p-2;
         candidate "B" 0 false false 0x1.999999999999ap-3;
         candidate "C" 7 false true 1]
    [mkVote ["A"; "B"]; mkVote ["A"; "B"]; mkVote ["B"]; mkVote ["C"]]
    1 3.

(** Six ballots, one seat, quota 4: A is ranked first on five of them. *)
Definition surplus : SingleTransferableVote (@num FloatArith) :=
  mkSTV [candidate "A" 0 false false 1;
         candidate "B" 0 false false 1]
    [mkVote ["A"; "B"]; mkVote ["A"; "B"]; mkVote ["A"; "B"];
     mkVote ["A"]; mkVote ["A"]; mkVote ["B"]]
    1 4.

(** [surplus] after the first iteration of the convergence loop: A is
    counted 5 votes and its keep rate becomes 4 / 5 rounded. *)
Definition surplus_1 : SingleTransferableVote (@num FloatArith) :=
  mkSTV [candidate "A" 5 false false 0x1.999999999999ap-1;
         candidate "B" 1 false false 1]
    (ballots surplus) 1 4.

(** [surplus] once counted: A is over the quota of 4. *)
Definition surplus_counted : SingleTransferableVote (@num FloatArith) :=
  mkSTV [candidate "A" 5 false false 1;
         candidate "B" 1 false false 1]
    (ballots surplus) 1 4.

(** What [_run_meek_iteration] leaves of [surplus]: A at the quota with
    its keep rate at 4 / 5 rounded, B with the rest of three ballots. *)
Definition surplus_converged : SingleTransferableVote (@num FloatArith) :=
  mkSTV [candidate "A" 4 false false 0x1.999999999999ap-1;
         candidate "B" 0x1.9999999999999p+0 false false 1]
    (ballots surplus) 1 4.

(** [partial] counted with the keep rates of A and B back at 1. *)
Definition partial_reset : SingleTransferableVote (@num FloatArith) :=
  mkSTV [candidate "A" 2 false false 1;
         candidate "B" 1 false false 1;
         candidate "C" 0 false true 1]
    (ballots partial) 1 3.

(** A and B tied at 2 votes for one seat, C already out. *)
Definition tie : SingleTransferableVote (@num FloatArith) :=
  mkSTV [candidate "A" 2 false false 1;
         candidate "B" 2 false false 1;
         candidate "C" 0 false true 1]
    [mkVote ["A"]; mkVote ["A"]; mkVote ["B"]; mkVote ["B"]]
    1 3.

End Binary64Scenario.

(** * Proofs *)

Lemma Qltb_lt (x y : Q) : Qltb x y = true <-> (x < y)%Q.
Proof.
  unfold Qltb. rewrite Qlt_alt. destruct (x ?= y)%Q; split; congruence.
Qed.


(** ** What each operation leaves alone *)

Section Frames.

Context {A : Arith}.

Lemma bind_Ok (T U : Type) (r : result T) (k : T -> result U) (y : U) :
  bind r k = Ok y -> exists x, r = Ok x /\ k x = Ok y.
Proof.
  destruct r as [x|e]; simpl; intros H; [exists x; auto | discriminate].
Qed.

Lemma update_candidate_map {X : Type} (p : Candidate num -> X) n f cs :
  (forall c, p (f c) = p c) ->
  map p (update_candidate n f cs) = map p cs.
Proof.
  intros Hf. unfold update_candidate. rewrite map_map.
  apply map_ext. intros c. destruct (String.eqb (name c) n); auto.
Qed.

Lemma walk_preferences_map {X : Type} (p : Candidate num -> X) :
  votes_free p ->
  forall prefs v cs cs' r,
    walk_preferences prefs v cs = Ok (cs', r) -> map p cs' = map p cs.
Proof.
  intros Hp. induction prefs as [|n prefs IH]; simpl; intros v cs cs' r H.
  - inversion H; subst; reflexivity.
  - destruct (fltb v CONVERGENCE_THRESHOLD).
    + inversion H; subst; reflexivity.
    + destruct (find_candidate n cs) as [c|]; [|discriminate].
      apply IH in H. rewrite H. apply update_candidate_map.
      intros c0. apply Hp.
Qed.

Lemma walk_votes_map {X : Type} (p : Candidate num -> X) :
  votes_free p ->
  forall vs cs cs' rs,
    walk_votes vs cs = Ok (cs', rs) -> map p cs' = map p cs.
Proof.
  intros Hp. induction vs as [|v vs IH]; simpl; intros cs cs' rs H.
  - inversion H; subst; reflexivity.
  - apply bind_Ok in H. destruct H as [[cs1 r1] [H1 H]].
    apply bind_Ok in H. destruct H as [[cs2 rs2] [H2 H]].
    simpl in *. inversion H; subst.
    apply IH in H2. rewrite H2.
    eapply walk_preferences_map; eauto.
Qed.

Lemma zero_votes_map {X : Type} (p : Candidate num -> X) cs :
  votes_free p -> map p (zero_votes cs) = map p cs.
Proof.
  intros Hp. unfold zero_votes. rewrite map_map. apply map_ext.
  intros c. apply Hp.
Qed.

Lemma recalculate_map {X : Type} (p : Candidate num -> X) s s' :
  votes_free p ->
  _recalculate_votes s = Ok s' ->
  map p (candidates s') = map p (candidates s).
Proof.
  intros Hp H. unfold _recalculate_votes in H.
  apply bind_Ok in H. destruct H as [[cs rs] [H1 H]].
  inversion H; subst; simpl.
  apply (walk_votes_map _ Hp) in H1. rewrite H1. apply zero_votes_map, Hp.
Qed.

Lemma shrink_map {X : Type} (p : Candidate num -> X) q c c' :
  keep_free p -> shrink q c = Ok c' -> p c' = p c.
Proof.
  intros Hp. unfold shrink.
  destruct (is_active c && fltb (of_int q) (votes c)).
  - destruct (fdiv (of_int q) (votes c)); [|discriminate].
    intros H; inversion H; subst. apply Hp.
  - intros H; inversion H; subst; reflexivity.
Qed.

Lemma shrink_keep_rates_map {X : Type} (p : Candidate num -> X) q :
  keep_free p ->
  forall cs cs', shrink_keep_rates q cs = Ok cs' -> map p cs' = map p cs.
Proof.
  intros Hp. induction cs as [|c cs IH]; simpl; intros cs' H.
  - inversion H; subst; reflexivity.
  - apply bind_Ok in H. destruct H as [c1 [H1 H]].
    apply bind_Ok in H. destruct H as [cs1 [H2 H]].
    inversion H; subst; simpl.
    rewrite (shrink_map _ _ _ _ Hp H1), (IH _ H2). reflexivity.
Qed.

Lemma reset_keep_rates_map {X : Type} (p : Candidate num -> X) s :
  keep_free p ->
  map p (candidates (reset_keep_rates s)) = map p (candidates s).
Proof.
  intros Hp. simpl. rewrite map_map. apply map_ext.
  intros c. destruct (is_active c); auto.
Qed.

Lemma ident_votes_free : votes_free ident.
Proof. intros c v. reflexivity. Qed.

Lemma ident_keep_free : keep_free ident.
Proof. intros c v. reflexivity. Qed.

Lemma ident_is_active c c' : ident c' = ident c -> is_active c' = is_active c.
Proof.
  unfold ident, is_active. intros H. inversion H. congruence.
Qed.

Lemma map_ident_active cs cs' :
  map ident cs' = map ident cs ->
  map name (filter is_active cs') = map name (filter is_active cs).
Proof.
  revert cs'. induction cs as [|c cs IH]; intros [|c' cs'] H;
    try discriminate; [reflexivity|].
  simpl in H.
  assert (H1 : ident c' = ident c) by congruence.
  assert (H2 : map ident cs' = map ident cs) by congruence.
  simpl. rewrite (ident_is_active _ _ H1).
  destruct (is_active c); simpl; rewrite (IH _ H2); auto.
  unfold ident in H1. congruence.
Qed.

Lemma map_ident_length cs cs' :
  map ident cs' = map ident cs ->
  length (filter is_active cs') = length (filter is_active cs).
Proof.
  intros H. apply map_ident_active in H.
  rewrite <- (length_map name), H, length_map. reflexivity.
Qed.

Lemma static_refl s : static s s.
Proof. repeat split. Qed.

Lemma static_trans s1 s2 s3 : static s1 s2 -> static s2 s3 -> static s1 s3.
Proof.
  unfold static. intros (?&?&?&?) (?&?&?&?). repeat split; congruence.
Qed.

Lemma recalculate_static s s' : _recalculate_votes s = Ok s' -> static s s'.
Proof.
  intros H. pose proof (recalculate_map _ _ _ ident_votes_free H) as Hi.
  unfold _recalculate_votes in H.
  apply bind_Ok in H. destruct H as [[cs rs] [H1 H]].
  inversion H; subst. repeat split; auto.
Qed.

Lemma reset_static s : static s (reset_keep_rates s).
Proof.
  repeat split. apply reset_keep_rates_map, ident_keep_free.
Qed.

Lemma meek_step_static s s' : meek_step s = Ok s' -> static s s'.
Proof.
  unfold meek_step. intros H.
  apply bind_Ok in H. destruct H as [s1 [H1 H]].
  apply bind_Ok in H. destruct H as [cs [H2 H]].
  inversion H; subst.
  apply recalculate_static in H1. destruct H1 as (?&?&?&Hi).
  repeat split; simpl; auto.
  rewrite (shrink_keep_rates_map _ _ ident_keep_free _ _ H2). exact Hi.
Qed.

Lemma meek_for_static i : forall s s', meek_for i s = Ok s' -> static s s'.
Proof.
  induction i as [|i IH]; simpl; intros s s' H.
  - inversion H; subst. apply static_refl.
  - apply bind_Ok in H. destruct H as [s1 [H1 H]].
    apply meek_step_static in H1.
    destruct (fltb _ _).
    + inversion H; subst. exact H1.
    + eapply static_trans; eauto.
Qed.

Lemma run_meek_iteration_static s s' :
  _run_meek_iteration s = Ok s' -> static s s'.
Proof.
  unfold _run_meek_iteration. intros H.
  apply bind_Ok in H. destruct H as [s1 [H1 H]].
  eapply static_trans; [apply reset_static|].
  eapply static_trans; [eapply meek_for_static; eauto|].
  apply recalculate_static; auto.
Qed.

End Frames.

(** ** Every pass of the main loop is made of the operations of [op] *)

Section Runs.

Context {A : Arith}.

Lemma points_refl s : points s s.
Proof. constructor. Qed.

Lemma points_op s s' : op s s' -> points s s'.
Proof. intros H. econstructor; [exact H | constructor]. Qed.

Lemma points_trans s1 s2 s3 : points s1 s2 -> points s2 s3 -> points s1 s3.
Proof.
  intros H12. revert s3. induction H12 as [|x y z Hxy Hyz IH]; intros s3 H23.
  - exact H23.
  - econstructor; [exact Hxy | apply IH, H23].
Qed.

Lemma meek_step_points s s' : meek_step s = Ok s' -> points s s'.
Proof.
  unfold meek_step. intros H.
  apply bind_Ok in H. destruct H as [s1 [H1 H]].
  apply bind_Ok in H. destruct H as [cs [H2 H]].
  inversion H; subst.
  eapply points_trans; apply points_op; [apply op_recalculate, H1|].
  apply op_shrink, H2.
Qed.

Lemma meek_for_points i : forall s s', meek_for i s = Ok s' -> points s s'.
Proof.
  induction i as [|i IH]; simpl; intros s s' H.
  - inversion H; subst. apply points_refl.
  - apply bind_Ok in H. destruct H as [s1 [H1 H]].
    apply meek_step_points in H1.
    destruct (fltb _ _).
    + inversion H; subst. exact H1.
    + eapply points_trans; eauto.
Qed.

Lemma run_meek_iteration_points s s' :
  _run_meek_iteration s = Ok s' -> points s s'.
Proof.
  unfold _run_meek_iteration. intros H.
  apply bind_Ok in H. destruct H as [s1 [H1 H]].
  eapply points_trans; [apply points_op, op_reset|].
  eapply points_trans; [eapply meek_for_points; eauto|].
  apply points_op, op_recalculate, H.
Qed.

Lemma static_collected s s' : static s s' -> collected s' = collected s.
Proof.
  intros (_&_&_&H). unfold collected.
  remember (candidates s) as cs eqn:E1. remember (candidates s') as cs' eqn:E2.
  clear E1 E2. revert cs' H.
  induction cs as [|c cs IH]; intros [|c' cs'] H; try discriminate; auto.
  simpl in H.
  assert (H1 : ident c' = ident c) by congruence.
  assert (H2 : map ident cs' = map ident cs) by congruence.
  simpl. rewrite (ident_is_active _ _ H1), (IH _ H2). reflexivity.
Qed.

Lemma main_loop_body_points s b s' :
  main_loop_body s = Ok (b, s') -> points s s'.
Proof.
  unfold main_loop_body. intros H.
  destruct (Z.of_nat (length (active_candidates s)) <=? num_winners s)%Z.
  - apply bind_Ok in H. destruct H as [s1 [H1 H]].
    inversion H; subst.
    rewrite <- (static_collected _ _ (run_meek_iteration_static _ _ H1)).
    eapply points_trans; [apply run_meek_iteration_points, H1|].
    apply points_op, op_decide.
  - apply bind_Ok in H. destruct H as [s1 [H1 H]].
    inversion H; subst. unfold _run_single_round in H1.
    apply bind_Ok in H1. destruct H1 as [s2 [H2 H1]].
    inversion H1; subst.
    eapply points_trans; [apply run_meek_iteration_points, H2|].
    apply points_op, op_eliminate.
Qed.

Lemma rounds_points s s' : rounds s s' -> points s s'.
Proof.
  intros H. induction H as [|x y z Hxy Hyz IH].
  - apply points_refl.
  - eapply points_trans; [eapply main_loop_body_points; exact Hxy | exact IH].
Qed.

(** A run of the main loop that ends went through some rounds and then the
    last one. *)
Lemma run_main_loop_rounds fuel :
  forall s s', _run_main_loop fuel s = Some (Ok s') ->
    exists s1, rounds s s1 /\ last_round s1 s'.
Proof.
  induction fuel as [|fuel IH]; simpl; intros s s' H; [discriminate|].
  destruct (main_loop_body s) as [[[|] s1]|e] eqn:E.
  - inversion H; subst. exists s. split; [constructor | exact E].
  - apply IH in H. destruct H as [s2 [H2 H3]].
    exists s2. split; auto. econstructor; [exact E | exact H2].
  - discriminate.
Qed.

Lemma run_main_loop_points fuel s s' :
  _run_main_loop fuel s = Some (Ok s') -> points s s'.
Proof.
  intros H. apply run_main_loop_rounds in H. destruct H as [s1 [H1 H2]].
  eapply points_trans; [apply rounds_points, H1|].
  eapply main_loop_body_points; exact H2.
Qed.

End Runs.

(** ** Invariants of the operations *)

Section Invariants.

Context {A : Arith}.

Lemma static_config s s' : static s s' -> config s' = config s.
Proof. unfold config. intros (H1&H2&H3&_). congruence. Qed.

Lemma eliminate_config s : config (_eliminate_loser s) = config s.
Proof.
  unfold _eliminate_loser. destruct (map votes (active_candidates s)); reflexivity.
Qed.

Lemma op_config s s' : op s s' -> config s' = config s.
Proof.
  intros H. destruct H as [s|s s' H|s cs H|s|s]; try reflexivity.
  - apply static_config, recalculate_static, H.
  - apply eliminate_config.
Qed.

Lemma points_config s s' : points s s' -> config s' = config s.
Proof.
  intros H. induction H as [|x y z Hxy Hyz IH]; [reflexivity|].
  rewrite IH. apply op_config, Hxy.
Qed.

Lemma status_active c : status c = Active <-> is_active c = true.
Proof.
  unfold status, is_active. destruct (is_winner c), (is_loser c); simpl;
    split; intros H; congruence.
Qed.

Lemma frozen_refl c : frozen c c.
Proof. split; auto. Qed.

Lemma frozen_trans c1 c2 c3 : frozen c1 c2 -> frozen c2 c3 -> frozen c1 c3.
Proof.
  intros [N1 F1] [N2 F2]. split; [congruence|].
  intros H. destruct (F1 H) as [W1 L1].
  assert (H2 : status c2 <> Active).
  { unfold status in *. rewrite W1, L1. exact H. }
  destruct (F2 H2). split; congruence.
Qed.

Lemma all_frozen_refl cs : Forall2 frozen cs cs.
Proof. induction cs; constructor; auto using frozen_refl. Qed.

Lemma all_frozen_trans cs1 cs2 cs3 :
  Forall2 frozen cs1 cs2 -> Forall2 frozen cs2 cs3 -> Forall2 frozen cs1 cs3.
Proof.
  intros H. revert cs3. induction H; intros cs3 H3; inversion H3; subst;
    constructor; eauto using frozen_trans.
Qed.

Lemma ident_frozen cs : forall cs',
  map ident cs' = map ident cs -> Forall2 frozen cs cs'.
Proof.
  induction cs as [|c cs IH]; intros [|c' cs'] H; try discriminate;
    constructor.
  - simpl in H. assert (H1 : ident c' = ident c) by congruence.
    unfold ident in H1. split; [congruence|]. intros _. split; congruence.
  - apply IH. simpl in H. congruence.
Qed.

Lemma ident_exclusive cs : forall cs',
  map ident cs' = map ident cs -> Forall exclusive cs -> Forall exclusive cs'.
Proof.
  induction cs as [|c cs IH]; intros [|c' cs'] H F; try discriminate;
    constructor; inversion F; subst.
  - simpl in H. assert (H1 : ident c' = ident c) by congruence.
    unfold ident in H1. unfold exclusive in *.
    replace (is_winner c') with (is_winner c) by congruence.
    replace (is_loser c') with (is_loser c) by congruence. assumption.
  - apply IH; auto. simpl in H. congruence.
Qed.

Lemma map_frozen (g : Candidate num -> Candidate num) cs :
  (forall c, frozen c (g c)) -> Forall2 frozen cs (map g cs).
Proof. intros H. induction cs; simpl; constructor; auto. Qed.

Lemma map_exclusive (g : Candidate num -> Candidate num) cs :
  (forall c, exclusive c -> exclusive (g c)) ->
  Forall exclusive cs -> Forall exclusive (map g cs).
Proof.
  intros H F. induction F; simpl; constructor; auto.
Qed.

Lemma decide_winners_collected s :
  decide_winners (collected s) s =
  set_candidates s (map (decide (droop_quota s)) (candidates s)).
Proof.
  unfold decide_winners, collected. f_equal.
  induction (candidates s) as [|c cs IH]; simpl; [reflexivity|].
  rewrite IH. reflexivity.
Qed.

Lemma decide_frozen q c : frozen c (decide q c).
Proof.
  unfold decide. destruct (is_active c) eqn:E; [|apply frozen_refl].
  apply status_active in E.
  destruct (over_quota q c); split; simpl; auto; intros H; contradiction.
Qed.

Lemma decide_exclusive q c : exclusive c -> exclusive (decide q c).
Proof.
  unfold decide, exclusive, is_active.
  destruct (is_winner c) eqn:W, (is_loser c) eqn:L; simpl; auto;
    destruct (over_quota q c); simpl; rewrite ?W, ?L; auto.
Qed.

Lemma eliminate_frozen m c : frozen c (eliminate m c).
Proof.
  unfold eliminate. destruct (is_active c) eqn:E; [|apply frozen_refl].
  apply status_active in E.
  destruct (tied m c); split; simpl; auto; intros H; contradiction.
Qed.

Lemma eliminate_exclusive m c : exclusive c -> exclusive (eliminate m c).
Proof.
  unfold eliminate, exclusive, is_active.
  destruct (is_winner c) eqn:W, (is_loser c) eqn:L; simpl; auto;
    destruct (tied m c); simpl; rewrite ?W, ?L; auto.
Qed.

Lemma op_frozen s s' : op s s' -> Forall2 frozen (candidates s) (candidates s').
Proof.
  intros H. destruct H as [s|s s' H|s cs H|s|s].
  - apply ident_frozen, reset_keep_rates_map, ident_keep_free.
  - apply ident_frozen. eapply recalculate_map; eauto using ident_votes_free.
  - apply ident_frozen. simpl.
    eapply shrink_keep_rates_map; eauto using ident_keep_free.
  - unfold _eliminate_loser.
    destruct (map votes (active_candidates s)); [apply all_frozen_refl|].
    simpl. apply map_frozen. intros c. apply eliminate_frozen.
  - rewrite decide_winners_collected. simpl.
    apply map_frozen. intros c. apply decide_frozen.
Qed.

Lemma op_exclusive s s' :
  op s s' -> Forall exclusive (candidates s) -> Forall exclusive (candidates s').
Proof.
  intros H. destruct H as [s|s s' H|s cs H|s|s].
  - apply ident_exclusive, reset_keep_rates_map, ident_keep_free.
  - apply ident_exclusive. eapply recalculate_map; eauto using ident_votes_free.
  - apply ident_exclusive. simpl.
    eapply shrink_keep_rates_map; eauto using ident_keep_free.
  - unfold _eliminate_loser.
    destruct (map votes (active_candidates s)); [auto|].
    simpl. apply map_exclusive. intros c. apply eliminate_exclusive.
  - rewrite decide_winners_collected. simpl.
    apply map_exclusive. intros c. apply decide_exclusive.
Qed.

(** Every operation but the terminal decision leaves [is_winner] alone. *)
Lemma op_is_winner s s' :
  op s s' ->
  map is_winner (candidates s') = map is_winner (candidates s) \/
  s' = decide_winners (collected s) s.
Proof.
  intros H. destruct H as [s|s s' H|s cs H|s|s]; auto; left.
  - apply reset_keep_rates_map. intros c k. reflexivity.
  - eapply recalculate_map; eauto. intros c k. reflexivity.
  - simpl. eapply shrink_keep_rates_map; eauto. intros c k. reflexivity.
  - unfold _eliminate_loser.
    destruct (map votes (active_candidates s)); [reflexivity|].
    simpl. rewrite map_map. apply map_ext. intros c.
    unfold eliminate. destruct (is_active c && tied _ c); reflexivity.
Qed.

End Invariants.

(** ** Properties of the round controller, for every arithmetic *)

Section Control.

Context {A : Arith}.

Lemma calculate_droop_quota_Ok s :
  (num_winners s + 1 <> 0)%Z ->
  _calculate_droop_quota s =
  Ok (set_droop_quota s
        (Z.of_nat (length (ballots s)) / (num_winners s + 1) + 1)%Z).
Proof.
  intros H. unfold _calculate_droop_quota.
  destruct (Z.eqb_spec (num_winners s + 1) 0); [contradiction | reflexivity].
Qed.

Lemma load_data_frame s file :
  candidates (_load_data s file) = candidates s /\
  num_winners (_load_data s file) = num_winners s /\
  droop_quota (_load_data s file) = droop_quota s.
Proof. destruct file; repeat split. Qed.

(** With a number of seats that is not negative the quota is positive. *)
Lemma droop_quota_positive s s2 :
  (0 <= num_winners s)%Z ->
  _calculate_droop_quota s = Ok s2 ->
  (1 <= droop_quota s2)%Z.
Proof.
  intros HW H. rewrite calculate_droop_quota_Ok in H by lia.
  inversion H; subst. simpl.
  pose proof (Z.div_pos (Z.of_nat (length (ballots s))) (num_winners s + 1)).
  lia.
Qed.

(** C2.  With N >= 1 valid ballots loaded and W seats (W + 1 is not zero),
    [run_election] sets the quota to floor(N / (W + 1)) + 1 in the one call
    of [_calculate_droop_quota] that precedes the main loop, and the quota
    is this same value in every state the run is in afterwards: between any
    two operations, at the head of every round, and at the end. *)
Theorem quota_fixed_for_the_run (fuel : nat)
  (s : SingleTransferableVote num) (file : option (list (list string))) :
  let s1 := _load_data s file in
  let N := Z.of_nat (length (ballots s1)) in
  let W := num_winners s in
  (1 <= N)%Z ->
  (W + 1 <> 0)%Z ->
  exists s2,
    _calculate_droop_quota s1 = Ok s2 /\
    droop_quota s2 = (N / (W + 1) + 1)%Z /\
    run_election fuel s file = _run_main_loop fuel s2 /\
    (forall s', points s2 s' -> droop_quota s' = (N / (W + 1) + 1)%Z) /\
    (forall s', rounds s2 s' -> droop_quota s' = (N / (W + 1) + 1)%Z) /\
    (forall s', run_election fuel s file = Some (Ok s') ->
                droop_quota s' = (N / (W + 1) + 1)%Z).
Proof.
  intros s1 N W HN HW.
  destruct (load_data_frame s file) as (_ & Hw & _). fold s1 in Hw.
  assert (Hq : _calculate_droop_quota s1 =
               Ok (set_droop_quota s1 (N / (W + 1) + 1)%Z)).
  { rewrite calculate_droop_quota_Ok; rewrite Hw; [reflexivity | exact HW]. }
  assert (Hrun : run_election fuel s file =
                 _run_main_loop fuel (set_droop_quota s1 (N / (W + 1) + 1)%Z)).
  { unfold run_election. fold s1. rewrite Hq.
    destruct (ballots s1) eqn:E; [|reflexivity].
    subst N. simpl in HN. lia. }
  assert (Hp : forall s', points (set_droop_quota s1 (N / (W + 1) + 1)%Z) s' ->
                          droop_quota s' = (N / (W + 1) + 1)%Z).
  { intros s' Hp. apply points_config in Hp. unfold config in Hp.
    simpl in Hp. congruence. }
  exists (set_droop_quota s1 (N / (W + 1) + 1)%Z).
  split; [exact Hq|]. split; [reflexivity|]. split; [exact Hrun|].
  split; [exact Hp|]. split.
  - intros s' Hr. apply Hp, rounds_points, Hr.
  - intros s' Hr. rewrite Hrun in Hr. apply Hp.
    eapply run_main_loop_points, Hr.
Qed.

(** C7.  Between any two points of a run, the earlier in [s] and the later
    in [s'], every candidate whose status in [s] is not Active has the same
    name and the same two flags in [s'], whatever operations lie between;
    and when no candidate of [s] is both elected and eliminated, none of
    [s'] is. *)
Theorem status_is_final (s s' : SingleTransferableVote num) :
  points s s' ->
  Forall2 frozen (candidates s) (candidates s') /\
  (Forall exclusive (candidates s) -> Forall exclusive (candidates s')).
Proof.
  intros H. induction H as [s|s s1 s' H1 H IH].
  - split; [apply all_frozen_refl | auto].
  - destruct IH as [IH1 IH2]. split.
    + eapply all_frozen_trans; [apply op_frozen, H1 | exact IH1].
    + intros F. apply IH2. eapply op_exclusive; eauto.
Qed.

Lemma init_not_elected names W :
  Forall not_elected (candidates (init names W)).
Proof.
  unfold init. simpl. apply Forall_forall. intros c Hc.
  apply in_map_iff in Hc. destruct Hc as [n [Hn _]]. subst. reflexivity.
Qed.

Lemma not_elected_map cs cs' :
  map is_winner cs' = map is_winner cs ->
  Forall not_elected cs -> Forall not_elected cs'.
Proof.
  revert cs'. induction cs as [|c cs IH]; intros [|c' cs'] H F;
    try discriminate; constructor; inversion F; subst.
  - unfold not_elected in *. simpl in H. congruence.
  - apply IH; auto. simpl in H. congruence.
Qed.

Lemma is_winner_of_ident cs cs' :
  map ident cs' = map ident cs -> map is_winner cs' = map is_winner cs.
Proof.
  intros H.
  change (map is_winner cs') with (map (fun c => snd (fst (ident c))) cs').
  change (map is_winner cs) with (map (fun c => snd (fst (ident c))) cs).
  rewrite <- !(map_map ident (fun x => snd (fst x))). rewrite H. reflexivity.
Qed.

Lemma eliminate_loser_is_winner s :
  map is_winner (candidates (_eliminate_loser s)) =
  map is_winner (candidates s).
Proof.
  destruct (op_is_winner _ _ (op_eliminate s)) as [H|H]; [exact H|].
  unfold _eliminate_loser.
  destruct (map votes (active_candidates s)); [reflexivity|].
  simpl. rewrite map_map. apply map_ext. intros c.
  unfold eliminate. destruct (is_active c && tied _ c); reflexivity.
Qed.

Lemma next_round_is_winner s s' :
  next_round s s' ->
  map is_winner (candidates s') = map is_winner (candidates s).
Proof.
  unfold next_round, main_loop_body. intros H.
  destruct (Z.of_nat (length (active_candidates s)) <=? num_winners s)%Z.
  - apply bind_Ok in H. destruct H as [s1 [_ H]]. discriminate.
  - apply bind_Ok in H. destruct H as [s1 [H1 H]]. inversion H; subst.
    unfold _run_single_round in H1.
    apply bind_Ok in H1. destruct H1 as [s2 [H2 H1]]. inversion H1; subst.
    rewrite eliminate_loser_is_winner.
    apply is_winner_of_ident.
    apply run_meek_iteration_static in H2. apply H2.
Qed.

(** C8.  In a run of [run_election] on a freshly constructed election, at
    the head of every pass of the main loop no candidate is elected, and
    none is after the convergence loop of that pass or after an elimination
    that follows it: [is_winner] is first written by the loop at lines
    77-82 of the terminal round.  ([_elect_winners] has no caller, in the
    source as in the definitions above.) *)
Theorem elected_only_in_the_last_round (names : list string) (W : Z)
  (file : option (list (list string))) (s2 s : SingleTransferableVote num) :
  _calculate_droop_quota (_load_data (init names W) file) = Ok s2 ->
  rounds s2 s ->
  Forall not_elected (candidates s) /\
  forall s1, _run_meek_iteration s = Ok s1 ->
    Forall not_elected (candidates s1) /\
    Forall not_elected (candidates (_eliminate_loser s1)).
Proof.
  intros Hq Hr.
  assert (H2 : Forall not_elected (candidates s2)).
  { unfold _calculate_droop_quota in Hq.
    destruct (num_winners _ + 1 =? 0)%Z; [discriminate|].
    inversion Hq; subst. simpl.
    destruct (load_data_frame (init names W) file) as (Hc & _).
    rewrite Hc. apply init_not_elected. }
  assert (Hs : Forall not_elected (candidates s)).
  { clear Hq. induction Hr as [|x y z Hxy Hyz IH]; [exact H2|].
    apply IH. eapply not_elected_map; [|exact H2].
    apply next_round_is_winner, Hxy. }
  split; [exact Hs|]. intros s1 H1.
  assert (Hs1 : Forall not_elected (candidates s1)).
  { eapply not_elected_map; [|exact Hs].
    apply is_winner_of_ident. apply run_meek_iteration_static in H1. apply H1. }
  split; [exact Hs1|].
  eapply not_elected_map; [apply eliminate_loser_is_winner | exact Hs1].
Qed.

(** C9.  When [_load_data] leaves no valid ballot, [run_election] on a
    freshly constructed election returns before the quota is computed and
    without a pass of the main loop (the fuel is not consulted): the state
    is the constructed one, the quota still 0, and every candidate Active
    with no votes and keep rate 1. *)
Theorem no_valid_ballot_aborts (fuel : nat) (names : list string) (W : Z)
  (file : option (list (list string))) :
  ballots (_load_data (init names W) file) = [] ->
  run_election fuel (init names W) file = Some (Ok (init names W)) /\
  droop_quota (init names W) = 0%Z /\
  Forall (fun c => status c = Active /\ c = new_Candidate (name c))
    (candidates (init names W)).
Proof.
  intros H. split; [|split; [reflexivity|]].
  - unfold run_election. rewrite H.
    replace (_load_data (init names W) file) with (init names W);
      [reflexivity|].
    destruct file as [lines|]; [|reflexivity].
    simpl in H. unfold _load_data, set_ballots. simpl. rewrite H. reflexivity.
  - unfold init. simpl. apply Forall_forall. intros c Hc.
    apply in_map_iff in Hc. destruct Hc as [n [Hn _]]. subst. split; reflexivity.
Qed.

End Control.

(** ** The two kinds of round, for every arithmetic *)

Section Rounds.

Context {A : Arith}.

Lemma last_round_inv s s' :
  last_round s s' ->
  (Z.of_nat (length (active_candidates s)) <= num_winners s)%Z /\
  exists s1, _run_meek_iteration s = Ok s1 /\
             s' = decide_winners (collected s1) s1.
Proof.
  unfold last_round, main_loop_body. intros H.
  destruct (Z.leb_spec (Z.of_nat (length (active_candidates s)))
              (num_winners s)) as [L|L].
  - split; [exact L|].
    apply bind_Ok in H. destruct H as [s1 [H1 H]]. inversion H; subst.
    exists s1. split; [exact H1|].
    rewrite (static_collected _ _ (run_meek_iteration_static _ _ H1)).
    reflexivity.
  - apply bind_Ok in H. destruct H as [s1 [_ H]]. discriminate.
Qed.

Lemma next_round_inv s s' :
  next_round s s' ->
  (num_winners s < Z.of_nat (length (active_candidates s)))%Z /\
  exists s1, _run_meek_iteration s = Ok s1 /\ s' = _eliminate_loser s1.
Proof.
  unfold next_round, main_loop_body. intros H.
  destruct (Z.leb_spec (Z.of_nat (length (active_candidates s)))
              (num_winners s)) as [L|L].
  - apply bind_Ok in H. destruct H as [s1 [_ H]]. discriminate.
  - split; [exact L|].
    apply bind_Ok in H. destruct H as [s1 [H1 H]]. inversion H; subst.
    unfold _run_single_round in H1.
    apply bind_Ok in H1. destruct H1 as [s2 [H2 H1]]. inversion H1; subst.
    exists s2. auto.
Qed.

Lemma map_Forall2 (R : Candidate num -> Candidate num -> Prop)
  (g : Candidate num -> Candidate num) cs :
  (forall c, R c (g c)) -> Forall2 R cs (map g cs).
Proof. intros H. induction cs; simpl; constructor; auto. Qed.

Lemma py_min_In v vs : In (py_min v vs) (v :: vs).
Proof.
  unfold py_min. revert v. induction vs as [|x vs IH]; intros v; simpl.
  - left; reflexivity.
  - destruct (IH (if fltb x v then x else v)) as [H|H].
    + destruct (fltb x v); rewrite <- H; auto.
    + right; right; exact H.
Qed.

(** C4.  In the terminal round the convergence loop runs once more and
    leaves the statuses as they were; then every candidate that is Active
    becomes Elected when its recomputed votes are strictly greater than the
    quota and Eliminated when they are not, so Eliminated when they equal
    the quota; its votes stay as recomputed, and a candidate that is not
    Active is left as it is. *)
Theorem terminal_round_is_strict (s s' : SingleTransferableVote num) :
  last_round s s' ->
  exists s1,
    _run_meek_iteration s = Ok s1 /\
    map status (candidates s1) = map status (candidates s) /\
    Forall2
      (fun c1 c' =>
         name c' = name c1 /\
         votes c' = votes c1 /\
         (status c1 = Active ->
          (status c' = Elected <->
           fltb (of_int (droop_quota s)) (votes c') = true) /\
          (status c' = Eliminated <->
           fltb (of_int (droop_quota s)) (votes c') = false) /\
          (votes c' = of_int (droop_quota s) -> status c' = Eliminated)) /\
         (status c1 <> Active -> c' = c1))
      (candidates s1) (candidates s').
Proof.
  intros H. apply last_round_inv in H. destruct H as [_ [s1 [H1 H]]].
  exists s1. split; [exact H1|].
  pose proof (run_meek_iteration_static _ _ H1) as (_ & _ & Hq & Hi).
  split.
  { change (map status (candidates s1))
      with (map (fun c => let '(_, w, l) := ident c in
                          if w then Elected else if l then Eliminated
                          else Active) (candidates s1)).
    change (map status (candidates s))
      with (map (fun c => let '(_, w, l) := ident c in
                          if w then Elected else if l then Eliminated
                          else Active) (candidates s)).
    rewrite <- !(map_map ident
                   (fun x => let '(_, w, l) := x in
                             if w then Elected else if l then Eliminated
                             else Active)).
    rewrite Hi. reflexivity. }
  subst s'. rewrite decide_winners_collected. simpl.
  rewrite Hq. apply map_Forall2. intros c.
  unfold decide. destruct (is_active c) eqn:E.
  - assert (Hw : is_winner c = false /\ is_loser c = false).
    { unfold is_active in E. destruct (is_winner c), (is_loser c);
        simpl in E; try discriminate; auto. }
    destruct Hw as [Hw Hl]. unfold over_quota.
    destruct (fltb (of_int (droop_quota s)) (votes c)) eqn:O;
      (split; [reflexivity|]); (split; [reflexivity|]); split.
    + intros _. unfold status; simpl. rewrite O.
      split; [split; auto|]. split; [split; discriminate|].
      intros Hv. rewrite Hv, fltb_irrefl in O. discriminate.
    + intros Hs. exfalso. apply Hs. apply status_active, E.
    + intros _. unfold status; simpl. rewrite Hw, O.
      split; [split; discriminate|]. split; [split; auto|]. auto.
    + intros Hs. exfalso. apply Hs. apply status_active, E.
  - split; [reflexivity|]. split; [reflexivity|]. split; [|reflexivity].
    intros Hs. apply status_active in Hs. congruence.
Qed.


End Rounds.

(** ** Ballots that name declared candidates are counted without exception *)

Section Totality.

Context {A : Arith}.

Lemma known_names cs cs' p :
  map name cs' = map name cs -> known cs' p = known cs p.
Proof.
  unfold known. revert cs'.
  induction cs as [|c cs IH]; intros [|c' cs'] H; try discriminate; auto.
  simpl in *. injection H as H1 H2. rewrite H1, (IH _ H2). reflexivity.
Qed.

Lemma known_find cs p :
  known cs p = true -> exists c, find_candidate p cs = Some c.
Proof.
  unfold known, find_candidate. induction cs as [|c cs IH]; simpl.
  - discriminate.
  - destruct (String.eqb (name c) p); eauto.
Qed.

Lemma walk_preferences_total prefs : forall v cs,
  Forall (fun p => known cs p = true) prefs ->
  exists r, walk_preferences prefs v cs = Ok r.
Proof.
  induction prefs as [|p prefs IH]; simpl; intros v cs F; eauto.
  destruct (fltb v CONVERGENCE_THRESHOLD); eauto.
  inversion F as [|? ? Hp Hr]; subst.
  destruct (known_find _ _ Hp) as [c Hc]. rewrite Hc.
  apply IH. eapply Forall_impl; [|exact Hr].
  intros q Hq. simpl in Hq. rewrite <- Hq. apply known_names.
  apply update_candidate_map. reflexivity.
Qed.

Lemma walk_votes_total vs : forall cs,
  Forall (fun v => Forall (fun p => known cs p = true) (preferences v)) vs ->
  exists r, walk_votes vs cs = Ok r.
Proof.
  induction vs as [|v vs IH]; simpl; intros cs F; eauto.
  inversion F as [|? ? Hv Hr]; subst.
  destruct (walk_preferences_total (preferences v) (of_int 1) cs Hv)
    as [[cs1 r1] H1].
  rewrite H1. simpl.
  assert (Hn : map name cs1 = map name cs).
  { eapply walk_preferences_map; [|exact H1]. intros c x; reflexivity. }
  destruct (IH cs1) as [[cs2 rs] H2].
  { eapply Forall_impl; [|exact Hr]. intros w Hw.
    eapply Forall_impl; [|exact Hw]. intros q Hq. simpl in Hq.
    rewrite <- Hq. apply known_names, Hn. }
  rewrite H2. simpl. eauto.
Qed.

Lemma recalculate_total s :
  well_formed s -> exists s', _recalculate_votes s = Ok s'.
Proof.
  intros [_ F]. unfold _recalculate_votes.
  destruct (walk_votes_total (ballots s) (zero_votes (candidates s)))
    as [r Hr].
  { eapply Forall_impl; [|exact F]. intros w Hw.
    eapply Forall_impl; [|exact Hw]. intros q Hq. simpl in Hq.
    rewrite <- Hq. apply known_names.
    apply zero_votes_map. intros c x; reflexivity. }
  rewrite Hr. simpl. eauto.
Qed.

Lemma names_of_ident (cs cs' : list (Candidate num)) :
  map ident cs' = map ident cs -> map name cs' = map name cs.
Proof.
  intros H.
  change (map name cs') with (map (fun c => fst (fst (ident c))) cs').
  change (map name cs) with (map (fun c => fst (fst (ident c))) cs).
  rewrite <- !(map_map ident (fun x => fst (fst x))). rewrite H. reflexivity.
Qed.

Lemma well_formed_names s s' :
  ballots s' = ballots s ->
  map name (candidates s') = map name (candidates s) ->
  well_formed s -> well_formed s'.
Proof.
  intros Hb Hn [N F]. split; [rewrite Hn; exact N|].
  rewrite Hb. eapply Forall_impl; [|exact F]. intros w Hw.
  eapply Forall_impl; [|exact Hw]. intros q Hq. simpl in Hq.
  rewrite <- Hq. apply known_names, Hn.
Qed.

Lemma static_well_formed s s' : static s s' -> well_formed s -> well_formed s'.
Proof.
  intros (Hb & _ & _ & Hi). apply well_formed_names; auto.
  apply names_of_ident, Hi.
Qed.

Lemma eliminate_loser_names s :
  map name (candidates (_eliminate_loser s)) = map name (candidates s).
Proof.
  unfold _eliminate_loser.
  destruct (map votes (active_candidates s)); [reflexivity|].
  simpl. rewrite map_map. apply map_ext. intros c.
  unfold eliminate. destruct (is_active c && tied _ c); reflexivity.
Qed.

Lemma eliminate_loser_well_formed s :
  well_formed s -> well_formed (_eliminate_loser s).
Proof.
  apply well_formed_names; [|apply eliminate_loser_names].
  pose proof (eliminate_config s) as H. unfold config in H. congruence.
Qed.

(** The keys of a dictionary are distinct. *)
Lemma dict_fromkeys_NoDup l : NoDup (dict_fromkeys l).
Proof.
  induction l as [|x l IH]; simpl; constructor.
  - intros H. apply filter_In in H. destruct H as [_ H].
    rewrite String.eqb_refl in H. discriminate.
  - apply NoDup_filter, IH.
Qed.

Lemma init_names names W :
  map name (candidates (init names W)) = dict_fromkeys names.
Proof.
  unfold init. simpl. rewrite map_map. simpl. apply map_id.
Qed.

(** [_load_data] keeps the lines whose characters are declared. *)
Lemma load_data_well_formed names W file :
  well_formed (_load_data (init names W) file).
Proof.
  split.
  - destruct (load_data_frame (init names W) file) as (Hc & _).
    rewrite Hc, init_names. apply dict_fromkeys_NoDup.
  - destruct file as [lines|]; simpl; [|constructor].
    apply Forall_forall. intros v Hv.
    apply in_map_iff in Hv. destruct Hv as [prefs [Hp Hin]]. subst v.
    apply filter_In in Hin. destruct Hin as [_ Hin]. simpl.
    destruct prefs as [|p prefs]; [discriminate|].
    unfold valid_prefs in Hin. apply andb_true_iff in Hin.
    destruct Hin as [_ Hin]. rewrite forallb_forall in Hin.
    apply Forall_forall. intros q Hq. apply Hin in Hq. exact Hq.
Qed.

End Totality.

(** ** The redistribution engine in exact arithmetic *)

Section Conservation.

#[local] Existing Instance ExactArith.

Open Scope Q_scope.

Lemma update_candidate_absent n f (cs : list (Candidate num)) :
  ~ In n (map name cs) -> update_candidate n f cs = cs.
Proof.
  unfold update_candidate. induction cs as [|c cs IH]; cbn [map]; intros H.
  - reflexivity.
  - destruct (String.eqb_spec (name c) n) as [E|E].
    + exfalso. apply H. left. exact E.
    + rewrite IH; [reflexivity|]. intros Hn. apply H. right. exact Hn.
Qed.

Lemma total_votes_update n (t : Q) (cs : list (Candidate num)) c :
  NoDup (map name cs) ->
  find_candidate n cs = Some c ->
  total (map votes
           (update_candidate n (fun c => set_votes c (fadd (votes c) t)) cs))
  == total (map votes cs) + t.
Proof.
  unfold find_candidate.
  induction cs as [|c0 cs IH]; intros N F; [discriminate|].
  inversion N as [|? ? Hn Hr]; subst.
  cbn [find] in F. unfold update_candidate. cbn [map].
  fold (update_candidate n (fun c => set_votes c (fadd (votes c) t)) cs).
  destruct (String.eqb_spec (name c0) n) as [E|E].
  - rewrite update_candidate_absent by (rewrite <- E; exact Hn).
    cbn. ring.
  - unfold total. cbn [map fold_right]. fold (total (map votes cs)).
    fold (total (map votes (update_candidate n
             (fun c => set_votes c (fadd (votes c) t)) cs))).
    rewrite (IH Hr F). ring.
Qed.

Lemma walk_preferences_conserves prefs :
  forall (v : Q) (cs cs' : list (Candidate num)) (r : Q),
    NoDup (map name cs) ->
    walk_preferences prefs v cs = Ok (cs', r) ->
    total (map votes cs') + r == total (map votes cs) + v.
Proof.
  induction prefs as [|p prefs IH]; simpl; intros v cs cs' r N H.
  - inversion H; subst. reflexivity.
  - destruct (Qltb v (1 # 1000000000)).
    + inversion H; subst. reflexivity.
    + destruct (find_candidate p cs) as [c|] eqn:F; [|discriminate].
      apply IH in H.
      * rewrite H. rewrite (total_votes_update _ _ _ _ N F).
        simpl. unfold Qminus. ring.
      * rewrite update_candidate_map; [exact N | reflexivity].
Qed.

Lemma walk_votes_conserves vs :
  forall (cs cs' : list (Candidate num)) (rs : list Q),
    NoDup (map name cs) ->
    walk_votes vs cs = Ok (cs', rs) ->
    length rs = length vs /\
    total (map votes cs') + total rs
    == total (map votes cs) + inject_Z (Z.of_nat (length vs)).
Proof.
  induction vs as [|v vs IH]; intros cs cs' rs N H.
  - simpl in H. inversion H; subst. split; reflexivity.
  - cbn [walk_votes] in H.
    apply bind_Ok in H. destruct H as [[cs1 r1] [H1 H]].
    apply bind_Ok in H. destruct H as [[cs2 rs2] [H2 H]].
    simpl in H. inversion H; subst. simpl in H2.
    pose proof (walk_preferences_conserves _ _ _ _ _ N H1) as C1.
    assert (N1 : NoDup (map name cs1)).
    { erewrite walk_preferences_map; [exact N| |exact H1].
      intros c x; reflexivity. }
    destruct (IH _ _ _ N1 H2) as [L C2].
    split; [simpl; congruence|].
    unfold total at 2. cbn [fold_right length]. fold (total rs2).
    rewrite Nat2Z.inj_succ, <- Z.add_1_r, inject_Z_plus.
    change (of_int 1) with 1 in C1. change (inject_Z 1) with 1.
    transitivity (total (map votes cs') + total rs2 + r1); [ring|].
    rewrite C2. 
    transitivity (total (map votes cs1) + r1 + inject_Z (Z.of_nat (length vs)));
      [ring|].
    rewrite C1. ring.
Qed.

Lemma total_zero_votes (cs : list (Candidate num)) :
  total (map votes (zero_votes cs)) == 0.
Proof.
  induction cs as [|c cs IH]; simpl; [reflexivity|].
  fold (zero_votes cs). rewrite IH. reflexivity.
Qed.

(** In exact arithmetic the count loses nothing.  Whatever the ballots,
    the keep rates and the statuses of a state whose ballots name declared
    candidates, the pass of [_recalculate_votes] succeeds, and the votes of
    all candidates after it together with the values the ballots were left
    with add up to the number of ballots. *)
Theorem redistribution_conserves_ballots (s : SingleTransferableVote num) :
  well_formed s ->
  exists (cs' : list (Candidate num)) (rs : list Q),
    walk_votes (ballots s) (zero_votes (candidates s)) = Ok (cs', rs) /\
    _recalculate_votes s = Ok (set_candidates s cs') /\
    length rs = length (ballots s) /\
    total (map votes cs') + total rs
    == inject_Z (Z.of_nat (length (ballots s))).
Proof.
  intros W. pose proof W as [N F].
  destruct (recalculate_total s W) as [s' Hs'].
  unfold _recalculate_votes in Hs'.
  apply bind_Ok in Hs'. destruct Hs' as [[cs' rs] [Hw Hs']].
  simpl in Hs'.
  exists cs', rs. split; [exact Hw|]. split.
  - unfold _recalculate_votes. rewrite Hw. reflexivity.
  - assert (N0 : NoDup (map name (zero_votes (candidates s)))).
    { rewrite zero_votes_map; [exact N | intros c x; reflexivity]. }
    destruct (walk_votes_conserves _ _ _ _ N0 Hw) as [L C].
    split; [exact L|]. rewrite C, total_zero_votes. ring.
Qed.

End Conservation.

(** ** The iterations of the convergence loop *)

Section Iterations.

Context {A : Arith}.

(** The loop stops in one of these states. *)
Lemma meek_for_iterations n : forall s s',
  meek_for n s = Ok s' ->
  exists k, (k <= n)%nat /\ meek_iterations k s = Ok s'.
Proof.
  induction n as [|n IH]; simpl; intros s s' H.
  - inversion H; subst. exists O. split; [lia | reflexivity].
  - apply bind_Ok in H. destruct H as [s1 [H1 H]].
    destruct (fltb _ _).
    + inversion H; subst. exists 1%nat. split; [lia|].
      simpl. rewrite H1. reflexivity.
    + apply IH in H. destruct H as [k [Hk H]].
      exists (S k). split; [lia|]. simpl. rewrite H1. exact H.
Qed.

Lemma meek_iterations_static k : forall s s',
  meek_iterations k s = Ok s' -> static s s'.
Proof.
  induction k as [|k IH]; simpl; intros s s' H.
  - inversion H; subst. apply static_refl.
  - apply bind_Ok in H. destruct H as [s1 [H1 H]].
    eapply static_trans; [apply meek_step_static, H1 | apply IH, H].
Qed.

Lemma map_eq_Forall2 {X Y : Type} (p : X -> Y) (l : list X) : forall l',
  map p l' = map p l -> Forall2 (fun a b => p b = p a) l l'.
Proof.
  induction l as [|a l IH]; intros [|b l'] H; try discriminate;
    constructor; simpl in H; [congruence | apply IH; congruence].
Qed.

Lemma Forall2_compose {X : Type} (R1 R2 R : X -> X -> Prop) l1 :
  (forall a b c, R1 a b -> R2 b c -> R a c) ->
  forall l2 l3, Forall2 R1 l1 l2 -> Forall2 R2 l2 l3 -> Forall2 R l1 l3.
Proof.
  intros HR. induction l1 as [|a l1 IH]; intros l2 l3 H12 H23;
    inversion H12; subst; inversion H23; subst; constructor; eauto.
Qed.

Lemma shrink_keep_rates_Forall2 q cs : forall cs',
  shrink_keep_rates q cs = Ok cs' ->
  Forall2 (fun c c' => shrink q c = Ok c') cs cs'.
Proof.
  induction cs as [|c cs IH]; simpl; intros cs' H.
  - inversion H; subst. constructor.
  - apply bind_Ok in H. destruct H as [c1 [H1 H]].
    apply bind_Ok in H. destruct H as [cs1 [H2 H]].
    inversion H; subst. constructor; auto.
Qed.

End Iterations.

(** ** The convergence loop in exact arithmetic *)

Section Convergence.

#[local] Existing Instance ExactArith.

Open Scope Q_scope.

Lemma status_of_ident (c c' : Candidate num) :
  ident c' = ident c -> status c' = status c.
Proof.
  unfold ident, status. intros H. injection H as _ Hw Hl.
  rewrite Hw, Hl. reflexivity.
Qed.

Lemma fdiv_exact (x y : Q) : 0 < y -> fdiv x y = Some (x / y).
Proof.
  intros Hy. simpl. unfold Qdiv_py.
  destruct (Qeq_bool y 0) eqn:E; [|reflexivity].
  apply Qeq_bool_eq in E. rewrite E in Hy. discriminate.
Qed.

Lemma shrink_exact q (c : Candidate num) :
  (0 <= q)%Z ->
  exists c',
    shrink q c = Ok c' /\
    ident c' = ident c /\
    votes c' = votes c /\
    keep_rate c' =
      if is_active c && Qltb (inject_Z q) (votes c)
      then keep_rate c * (inject_Z q / votes c)
      else keep_rate c.
Proof.
  intros Hq. unfold shrink. change (fltb (of_int q) (votes c))
    with (Qltb (inject_Z q) (votes c)).
  destruct (is_active c && Qltb (inject_Z q) (votes c)) eqn:E.
  - apply andb_true_iff in E. destruct E as [_ E]. apply Qltb_lt in E.
    assert (H0 : inject_Z 0 <= inject_Z q) by (rewrite <- Zle_Qle; exact Hq).
    change (inject_Z 0) with 0 in H0.
    change (of_int q) with (inject_Z q).
    rewrite fdiv_exact by lra.
    eexists. split; [reflexivity|]. repeat split.
  - eexists. split; [reflexivity|]. repeat split.
Qed.

Lemma shrink_shrinks q (c0 c c' : Candidate num) :
  (0 < q)%Z ->
  ident c = ident c0 ->
  keep_rate c = keep_rate c0 ->
  (status c0 = Active -> 0 < keep_rate c0 /\ keep_rate c0 <= 1) ->
  shrink q c = Ok c' ->
  shrinks q c0 c'.
Proof.
  intros Hq Hi Hk Hok Hs.
  destruct (shrink_exact q c) as [c1 (H1 & Hi1 & Hv1 & Hk1)]; [lia|].
  rewrite H1 in Hs. inversion Hs; subst c1. clear Hs H1.
  assert (Hn : name c' = name c0).
  { unfold ident in *. congruence. }
  assert (Hst : status c' = status c0).
  { rewrite (status_of_ident _ _ Hi1). apply status_of_ident, Hi. }
  assert (Hq0 : inject_Z 0 < inject_Z q) by (rewrite <- Zlt_Qlt; exact Hq).
  change (inject_Z 0) with 0 in Hq0.
  split; [exact Hn|]. split; [exact Hst|]. split.
  - intros Ha. destruct (Hok Ha) as [K0 K1].
    assert (Hact : is_active c = true).
    { apply status_active. rewrite (status_of_ident _ _ Hi). exact Ha. }
    rewrite Hact in Hk1. simpl in Hk1. rewrite Hv1.
    destruct (Qltb (inject_Z q) (votes c)) eqn:E.
    + apply Qltb_lt in E.
      assert (X0 : 0 < inject_Z q / votes c).
      { apply Qlt_shift_div_l; lra. }
      assert (X1 : inject_Z q / votes c < 1).
      { apply Qlt_shift_div_r; lra. }
      rewrite Hk1, Hk.
      split; [apply Qmult_lt_0_compat; assumption|].
      split; [|split; [exact K1|]].
      * apply Qle_trans with (keep_rate c0 * 1).
        -- apply (proj2 (Qmult_le_l _ _ _ K0)). apply Qlt_le_weak, X1.
        -- rewrite Qmult_1_r. apply Qle_refl.
      * split; [reflexivity | intros Hn'; contradiction].
    + assert (E' : ~ inject_Z q < votes c).
      { intros Hlt. apply Qltb_lt in Hlt. congruence. }
      rewrite Hk1, Hk.
      split; [exact K0|]. split; [lra|]. split; [exact K1|].
      split; [intros Hlt; contradiction | reflexivity].
  - intros Hna.
    assert (Hact : is_active c = false).
    { destruct (is_active c) eqn:E; [|reflexivity].
      apply status_active in E. rewrite (status_of_ident _ _ Hi) in E.
      contradiction. }
    rewrite Hact in Hk1. simpl in Hk1. congruence.
Qed.

Lemma meek_step_shrinks (s s' : SingleTransferableVote num) :
  (0 < droop_quota s)%Z ->
  rates_ok (candidates s) ->
  meek_step s = Ok s' ->
  Forall2 (shrinks (droop_quota s)) (candidates s) (candidates s').
Proof.
  intros Hq Hok H. unfold meek_step in H.
  apply bind_Ok in H. destruct H as [s1 [H1 H]].
  apply bind_Ok in H. destruct H as [cs [H2 H]].
  inversion H; subst. simpl.
  pose proof (recalculate_static _ _ H1) as (_ & _ & Hq1 & _).
  rewrite Hq1 in H2.
  assert (Hp : map (fun c => (ident c, keep_rate c)) (candidates s1)
               = map (fun c => (ident c, keep_rate c)) (candidates s)).
  { eapply recalculate_map; [|exact H1]. intros c v; reflexivity. }
  apply map_eq_Forall2 in Hp.
  apply shrink_keep_rates_Forall2 in H2.
  assert (Hok' : Forall2 (fun c c1 =>
                   (status c = Active ->
                    0 < keep_rate c /\ keep_rate c <= 1) /\
                   (ident c1, keep_rate c1) = (ident c, keep_rate c))
                  (candidates s) (candidates s1)).
  { clear H2 H1. induction Hp; constructor; inversion Hok; subst; auto. }
  eapply Forall2_compose; [|exact Hok'|exact H2].
  intros c0 c c' [Hc0 Hc] Hs. simpl in Hs.
  assert (Hi : ident c = ident c0) by congruence.
  assert (Hk : keep_rate c = keep_rate c0) by congruence.
  exact (shrink_shrinks _ _ _ _ Hq Hi Hk Hc0 Hs).
Qed.

Lemma shrinks_rates_ok q cs cs' :
  Forall2 (shrinks q) cs cs' -> rates_ok cs'.
Proof.
  intros H. induction H as [|c c' cs cs' Hc _ IH]; constructor; auto.
  destruct Hc as (_ & Hst & Ha & _). intros Hs. rewrite Hst in Hs.
  destruct (Ha Hs) as (K0 & K1 & K2 & _). split; [exact K0 | lra].
Qed.

Lemma reset_rates_ok (s : SingleTransferableVote num) :
  rates_ok (candidates (reset_keep_rates s)).
Proof.
  unfold rates_ok. simpl. apply Forall_forall. intros c Hc.
  apply in_map_iff in Hc. destruct Hc as [c0 [Hc0 _]]. subst c.
  destruct (is_active c0) eqn:E.
  - intros _. simpl. split; reflexivity || discriminate.
  - intros Hs. apply status_active in Hs. congruence.
Qed.

Lemma meek_iterations_rates_ok k : forall s s' : SingleTransferableVote num,
  (0 < droop_quota s)%Z ->
  rates_ok (candidates s) ->
  meek_iterations k s = Ok s' ->
  rates_ok (candidates s').
Proof.
  induction k as [|k IH]; simpl; intros s s' Hq Hok H.
  - inversion H; subst. exact Hok.
  - apply bind_Ok in H. destruct H as [s1 [H1 H]].
    pose proof (meek_step_static _ _ H1) as (_ & _ & Hq1 & _).
    eapply IH; [| |exact H].
    + rewrite Hq1. exact Hq.
    + eapply shrinks_rates_ok, meek_step_shrinks; eauto.
Qed.

(** In exact arithmetic: in a run of the convergence loop under a
    positive quota, from the state [sk] after any number [k] of iterations
    to the state [sk'] after the next one, the keep rate of every Active
    candidate does not grow ([shrinks]). *)
Theorem keep_rates_never_grow (s sk sk' : SingleTransferableVote num)
  (k : nat) :
  (0 < droop_quota s)%Z ->
  meek_iterations k (reset_keep_rates s) = Ok sk ->
  meek_step sk = Ok sk' ->
  Forall2 (shrinks (droop_quota s)) (candidates sk) (candidates sk').
Proof.
  intros Hq Hk Hs.
  pose proof (meek_iterations_static _ _ _ Hk) as (_ & _ & Hqk & _).
  simpl in Hqk. rewrite <- Hqk.
  apply meek_step_shrinks; [rewrite Hqk; exact Hq| |exact Hs].
  eapply meek_iterations_rates_ok; [|apply reset_rates_ok|exact Hk].
  exact Hq.
Qed.

End Convergence.

(** ** The main loop ends, in exact arithmetic *)

Section Termination.

#[local] Existing Instance ExactArith.

Open Scope Q_scope.

Lemma shrink_keep_rates_total q (cs : list (Candidate num)) :
  (0 <= q)%Z -> exists cs', shrink_keep_rates q cs = Ok cs'.
Proof.
  intros Hq. induction cs as [|c cs [cs' IH]]; simpl; eauto.
  destruct (shrink_exact q c Hq) as [c' [Hc _]].
  rewrite Hc, IH. simpl. eauto.
Qed.

Lemma meek_step_total (s : SingleTransferableVote num) :
  well_formed s -> (0 <= droop_quota s)%Z ->
  exists s', meek_step s = Ok s'.
Proof.
  intros W Hq. unfold meek_step.
  destruct (recalculate_total s W) as [s1 H1]. rewrite H1. simpl.
  pose proof (recalculate_static _ _ H1) as (_ & _ & Hq1 & _).
  destruct (shrink_keep_rates_total (droop_quota s1) (candidates s1))
    as [cs Hcs]; [lia|].
  rewrite Hcs. simpl. eauto.
Qed.

Lemma meek_for_total n : forall s : SingleTransferableVote num,
  well_formed s -> (0 <= droop_quota s)%Z ->
  exists s', meek_for n s = Ok s'.
Proof.
  induction n as [|n IH]; simpl; intros s W Hq; eauto.
  destruct (meek_step_total s W Hq) as [s1 H1]. rewrite H1. simpl.
  destruct (Qltb _ _); eauto.
  pose proof (meek_step_static _ _ H1) as St.
  apply IH; [eapply static_well_formed; eauto|].
  destruct St as (_ & _ & Hq1 & _). lia.
Qed.

(** The convergence loop raises nothing. *)
Lemma run_meek_iteration_total (s : SingleTransferableVote num) :
  well_formed s -> (0 <= droop_quota s)%Z ->
  exists s', _run_meek_iteration s = Ok s'.
Proof.
  intros W Hq. unfold _run_meek_iteration.
  destruct (meek_for_total MAX_ITERATIONS (reset_keep_rates s)) as [s1 H1].
  - eapply static_well_formed; [apply reset_static | exact W].
  - exact Hq.
  - rewrite H1. simpl. apply recalculate_total.
    eapply static_well_formed; [|exact W].
    eapply static_trans; [apply reset_static|].
    eapply meek_for_static; eauto.
Qed.

(** The candidate that holds the minimum passes the tie test. *)
Lemma tied_self (c : Candidate num) : tied (votes c) c = true.
Proof.
  unfold tied. apply Qltb_lt.
  change (Qabs (votes c - votes c) < 1 # 1000000000).
  setoid_replace (votes c - votes c) with 0 by (unfold Qminus; apply Qplus_opp_r).
  reflexivity.
Qed.

Lemma filter_length_le {X : Type} (p q : X -> bool) (l : list X) :
  (forall x, p x = true -> q x = true) ->
  (length (filter p l) <= length (filter q l))%nat.
Proof.
  intros H. induction l as [|x l IH]; simpl; [lia|].
  destruct (p x) eqn:P.
  - rewrite (H x P). simpl. lia.
  - destruct (q x); simpl; lia.
Qed.

Lemma filter_length_lt {X : Type} (p q : X -> bool) (l : list X) x :
  (forall x, p x = true -> q x = true) ->
  In x l -> q x = true -> p x = false ->
  (length (filter p l) < length (filter q l))%nat.
Proof.
  intros H. induction l as [|y l IH]; simpl; intros Hin Q P; [contradiction|].
  destruct Hin as [E|Hin].
  - subst y. rewrite P, Q. simpl.
    pose proof (filter_length_le p q l H). lia.
  - specialize (IH Hin Q P). destruct (p y) eqn:Py.
    + rewrite (H y Py). simpl. lia.
    + destruct (q y); simpl; lia.
Qed.

(** What [min] returns is below every value it was given. *)
Lemma py_min_least (v : Q) (vs : list Q) (x : Q) :
  In x (v :: vs) -> @py_min ExactArith v vs <= x.
Proof.
  unfold py_min. revert v x. induction vs as [|y vs IH]; intros v x Hin.
  - destruct Hin as [E|[]]. subst. apply Qle_refl.
  - cbn [fold_left].
    assert (Hm : (if @fltb ExactArith y v then y else v) <= v /\
                 (if @fltb ExactArith y v then y else v) <= y).
    { change (@fltb ExactArith y v) with (Qltb y v).
      destruct (Qltb y v) eqn:E.
      - apply Qltb_lt in E. split; [lra | apply Qle_refl].
      - split; [apply Qle_refl|].
        destruct (Qlt_le_dec y v) as [L|L]; [|exact L].
        apply Qltb_lt in L. congruence. }
    destruct Hm as [Hv Hy]. destruct Hin as [E|[E|Hin]].
    + subst x. eapply Qle_trans; [apply IH; left; reflexivity | exact Hv].
    + subst x. eapply Qle_trans; [apply IH; left; reflexivity | exact Hy].
    + apply IH. right. exact Hin.
Qed.

(** With an Active candidate left, [_eliminate_loser] eliminates one. *)
Lemma eliminate_loser_decreases (s : SingleTransferableVote num) :
  active_candidates s <> [] ->
  (length (active_candidates (_eliminate_loser s))
   < length (active_candidates s))%nat.
Proof.
  intros Hne. unfold _eliminate_loser.
  destruct (map votes (active_candidates s)) as [|v vs] eqn:E.
  - destruct (active_candidates s); [contradiction | discriminate].
  - pose proof (py_min_In v vs) as Hm. rewrite <- E in Hm.
    apply in_map_iff in Hm. destruct Hm as [c [Hv Hc]].
    unfold active_candidates in Hc. apply filter_In in Hc.
    destruct Hc as [Hin Hact].
    unfold active_candidates at 1, set_candidates. cbn [candidates].
    set (m := py_min v vs) in *.
    change (map _ (candidates s)) with (map (eliminate m) (candidates s)).
    assert (L : length (filter is_active (map (eliminate m) (candidates s)))
                = length (filter (fun c => is_active (eliminate m c))
                            (candidates s))).
    { clear. induction (candidates s) as [|c0 cs IH]; simpl; [reflexivity|].
      destruct (is_active (eliminate m c0)); simpl; rewrite IH; reflexivity. }
    rewrite L.
    apply filter_length_lt with (x := c).
    + intros [n0 v0 w l k0]. unfold eliminate, is_active.
      cbn [is_winner is_loser]. destruct w, l; cbn [negb andb]; auto.
    + exact Hin.
    + exact Hact.
    + unfold eliminate. rewrite Hact. rewrite <- Hv, tied_self. simpl.
      unfold is_active. simpl. apply andb_false_r.
Qed.

Lemma main_loop_ends n : forall s : SingleTransferableVote num,
  (length (active_candidates s) <= n)%nat ->
  well_formed s ->
  (0 <= droop_quota s)%Z ->
  (0 <= num_winners s)%Z ->
  exists s', _run_main_loop (S n) s = Some (Ok s').
Proof.
  induction n as [|n IH]; intros s Hn W Hq Hw;
    destruct (run_meek_iteration_total s W Hq) as [s1 H1];
    pose proof (run_meek_iteration_static _ _ H1) as St;
    cbn [_run_main_loop]; unfold main_loop_body, _run_single_round;
    rewrite H1; cbn [bind];
    destruct (Z.leb_spec (Z.of_nat (length (active_candidates s)))
                (num_winners s)) as [L|L]; eauto; try lia.
  assert (Hlen : length (active_candidates s1) = length (active_candidates s)).
  { destruct St as (_ & _ & _ & Hi). apply map_ident_length, Hi. }
  assert (Hne : active_candidates s1 <> []).
  { intros E. rewrite E in Hlen. simpl in Hlen. lia. }
  pose proof (eliminate_loser_decreases s1 Hne) as Hd.
  apply IH.
  - lia.
  - apply eliminate_loser_well_formed.
    eapply static_well_formed; eauto.
  - pose proof (eliminate_config s1) as C. unfold config in C.
    destruct St as (_ & _ & Hq1 & _).
    injection C as _ _ C. lia.
  - pose proof (eliminate_config s1) as C. unfold config in C.
    destruct St as (_ & Hw1 & _ & _).
    injection C as _ C _. lia.
Qed.

Lemma rounds_invariant (s2 s : SingleTransferableVote num) :
  rounds s2 s ->
  well_formed s2 ->
  well_formed s /\ config s = config s2.
Proof.
  intros H. induction H as [s|s s1 s' H1 H IH]; intros W; [auto|].
  apply next_round_inv in H1. destruct H1 as [_ [sm [Hm He]]]. subst s1.
  pose proof (run_meek_iteration_static _ _ Hm) as St.
  destruct IH as [W' C'].
  { apply eliminate_loser_well_formed.
    eapply static_well_formed; eauto. }
  split; [exact W'|].
  rewrite C', eliminate_config. apply static_config, St.
Qed.

(** In exact arithmetic: with at least one seat and at least one
    valid ballot, [run_election] on a freshly constructed election ends
    without an exception once the fuel exceeds the number of candidates;
    and every round of the run that is not the terminal one leaves
    strictly fewer Active candidates than it found. *)
Theorem main_loop_terminates (names : list string) (W : Z)
  (file : option (list (list string))) :
  (1 <= W)%Z ->
  ballots (_load_data (init names W) file) <> [] ->
  (exists s',
     run_election (S (length (dict_fromkeys names))) (init names W) file
     = Some (Ok s')) /\
  (forall s2 s s',
     _calculate_droop_quota (_load_data (init names W) file) = Ok s2 ->
     rounds s2 s ->
     next_round s s' ->
     (length (active_candidates s') < length (active_candidates s))%nat).
Proof.
  intros HW Hne.
  set (s1 := _load_data (init names W) file) in *.
  assert (W1 : well_formed s1) by apply load_data_well_formed.
  destruct (load_data_frame (init names W) file) as (Hc & Hw & _).
  fold s1 in Hc, Hw. simpl in Hw.
  assert (Hq : _calculate_droop_quota s1 =
               Ok (set_droop_quota s1
                     (Z.of_nat (length (ballots s1)) / (W + 1) + 1)%Z)).
  { rewrite calculate_droop_quota_Ok; rewrite Hw; [reflexivity | lia]. }
  set (s2 := set_droop_quota s1 _) in Hq.
  assert (W2 : well_formed s2) by exact W1.
  assert (Q2 : (1 <= droop_quota s2)%Z).
  { apply (droop_quota_positive s1); [lia | exact Hq]. }
  split.
  - unfold run_election. fold s1. destruct (ballots s1) eqn:E;
      [contradiction|]. rewrite Hq.
    apply main_loop_ends; [|exact W2|lia|simpl; lia].
    unfold active_candidates.
    change (candidates s2) with (candidates s1). rewrite Hc.
    rewrite <- (init_names names W), length_map.
    generalize (candidates (init names W)). intros cs.
    induction cs as [|c cs IH]; simpl; [lia|].
    destruct (is_active c); simpl; lia.
  - intros s2' s s' Hq' Hr Hn. rewrite Hq in Hq'. inversion Hq'; subst s2'.
    destruct (rounds_invariant _ _ Hr W2) as [Ws Cs].
    apply next_round_inv in Hn. destruct Hn as [L [sm [Hm He]]]. subst s'.
    pose proof (run_meek_iteration_static _ _ Hm) as St.
    assert (Hlen : length (active_candidates sm)
                   = length (active_candidates s)).
    { destruct St as (_ & _ & _ & Hi). apply map_ident_length, Hi. }
    rewrite <- Hlen. apply eliminate_loser_decreases.
    intros E. rewrite E in Hlen. simpl in Hlen.
    unfold config in Cs. injection Cs as _ Cw _. simpl in Cw. lia.
Qed.

End Termination.

Section ScenarioFacts.

Import Scenario.

Lemma scenario_round_1 : next_round with_quota after_round_1.
Proof. vm_compute. reflexivity. Qed.

Lemma scenario_round_2 : last_round after_round_1 final.
Proof. vm_compute. reflexivity. Qed.

(** C1, as the code runs it.  The quota is 3 and round 1 eliminates B and
    C together, with 1 vote each against 2 for A.  In the terminal round the
    ballots B and C name no Active candidate and keep their value, so A is
    recomputed to 2.0, which is not above the quota: A ends Eliminated and
    the run elects nobody. *)
Theorem scenario_A_ends_eliminated :
  _calculate_droop_quota loaded = Ok with_quota /\
  droop_quota with_quota = 3%Z /\
  next_round with_quota after_round_1 /\
  map (fun c => (name c, votes c, status c)) (candidates after_round_1) =
    [("A", 2%float, Active); ("B", 1%float, Eliminated);
     ("C", 1%float, Eliminated)]%string /\
  last_round after_round_1 final /\
  map (fun c => (name c, votes c, status c)) (candidates final) =
    [("A", 2%float, Eliminated); ("B", 0%float, Eliminated);
     ("C", 0%float, Eliminated)]%string /\
  run_election 2 (@init FloatArith names 1) file = Some (Ok final).
Proof.
  split; [vm_compute; reflexivity|].
  split; [reflexivity|].
  split; [exact scenario_round_1|].
  split; [reflexivity|].
  split; [exact scenario_round_2|].
  split; vm_compute; reflexivity.
Qed.

(** C1 as the claim has it fails: no run of the scenario, however long,
    ends with A at 4.0 votes and Elected. *)
Lemma scenario_A_not_elected :
  ~ exists (fuel : nat) (s' : SingleTransferableVote (@num FloatArith))
      (a : Candidate (@num FloatArith)),
      run_election fuel (@init FloatArith names 1) file = Some (Ok s') /\
      find_candidate "A"%string (candidates s') = Some a /\
      votes a = 4%float /\
      status a = Elected.
Proof.
  intros (fuel & s' & a & Hrun & Ha & Hv & Hs).
  destruct fuel as [|[|fuel]]; vm_compute in Hrun; try discriminate.
  inversion Hrun; subst s'. vm_compute in Ha. inversion Ha; subst a.
  discriminate.
Qed.

End ScenarioFacts.

(** ** The general statements at the scenario *)

Section ScenarioInstances.

Import Scenario.

Lemma quota_fixed_at_scenario :
  (1 <= Z.of_nat (length (ballots loaded)))%Z /\
  (1 + 1 <> 0)%Z /\
  exists s2,
    _calculate_droop_quota loaded = Ok s2 /\
    droop_quota s2 = 3%Z /\
    run_election 2 (@init FloatArith names 1) file = _run_main_loop 2 s2 /\
    (forall s', points s2 s' -> droop_quota s' = 3%Z) /\
    (forall s', rounds s2 s' -> droop_quota s' = 3%Z) /\
    (forall s', run_election 2 (@init FloatArith names 1) file
                = Some (Ok s') -> droop_quota s' = 3%Z).
Proof.
  split; [vm_compute; discriminate|].
  split; [discriminate|].
  apply (@quota_fixed_for_the_run FloatArith 2 (@init FloatArith names 1) file).
  - vm_compute; discriminate.
  - discriminate.
Defined.

Lemma terminal_round_at_scenario :
  last_round after_round_1 final /\
  exists s1,
    _run_meek_iteration after_round_1 = Ok s1 /\
    map status (candidates s1) = map status (candidates after_round_1) /\
    Forall2
      (fun c1 c' =>
         name c' = name c1 /\
         votes c' = votes c1 /\
         (status c1 = Active ->
          (status c' = Elected <->
           fltb (of_int (droop_quota after_round_1)) (votes c') = true) /\
          (status c' = Eliminated <->
           fltb (of_int (droop_quota after_round_1)) (votes c') = false) /\
          (votes c' = of_int (droop_quota after_round_1) ->
           status c' = Eliminated)) /\
         (status c1 <> Active -> c' = c1))
      (candidates s1) (candidates final).
Proof.
  split; [exact scenario_round_2|].
  apply (@terminal_round_is_strict FloatArith after_round_1 final).
  exact scenario_round_2.
Defined.


Lemma status_is_final_at_scenario :
  points after_round_1 final /\
  Forall2 frozen (candidates after_round_1) (candidates final) /\
  (Forall exclusive (candidates after_round_1) ->
   Forall exclusive (candidates final)).
Proof.
  assert (H : points after_round_1 final)
    by (apply (main_loop_body_points _ true), scenario_round_2).
  split; [exact H|].
  apply (@status_is_final FloatArith after_round_1 final H).
Defined.

Lemma elected_only_at_the_end_of_scenario :
  _calculate_droop_quota (_load_data (@init FloatArith names 1) file) = Ok with_quota /\
  rounds with_quota after_round_1 /\
  Forall not_elected (candidates after_round_1) /\
  forall s1, _run_meek_iteration after_round_1 = Ok s1 ->
    Forall not_elected (candidates s1) /\
    Forall not_elected (candidates (_eliminate_loser s1)).
Proof.
  assert (Hq : _calculate_droop_quota (_load_data (@init FloatArith names 1) file)
               = Ok with_quota) by (vm_compute; reflexivity).
  assert (Hr : rounds with_quota after_round_1).
  { unfold rounds. econstructor; [exact scenario_round_1 | constructor]. }
  split; [exact Hq|]. split; [exact Hr|].
  apply (@elected_only_in_the_last_round FloatArith names 1 file
           with_quota after_round_1 Hq Hr).
Defined.

Lemma no_valid_ballot_at_bad_file :
  ballots (_load_data (@init FloatArith names 1) bad_file) = [] /\
  run_election 0 (@init FloatArith names 1) bad_file =
    Some (Ok (@init FloatArith names 1)) /\
  droop_quota (@init FloatArith names 1) = 0%Z /\
  Forall (fun c => status c = Active /\ c = new_Candidate (name c))
    (candidates (@init FloatArith names 1)).
Proof.
  split; [reflexivity|].
  apply (@no_valid_ballot_aborts FloatArith 0 names 1 bad_file).
  reflexivity.
Defined.

End ScenarioInstances.

Section ExactInstances.

Import ExactScenario.

Open Scope Q_scope.

Lemma partial_well_formed : well_formed partial.
Proof.
  split.
  - simpl. repeat constructor; simpl; intuition discriminate.
  - repeat constructor.
Qed.

Lemma conservation_at_partial :
  well_formed partial /\
  exists (cs' : list (Candidate (@num ExactArith))) (rs : list Q),
    walk_votes (ballots partial) (zero_votes (candidates partial))
    = Ok (cs', rs) /\
    _recalculate_votes partial = Ok (set_candidates partial cs') /\
    length rs = length (ballots partial) /\
    total (map votes cs') + total rs == 4.
Proof.
  split; [exact partial_well_formed|].
  apply (redistribution_conserves_ballots partial partial_well_formed).
Defined.

Lemma surplus_iteration_1 :
  meek_iterations 1 (reset_keep_rates surplus) = Ok surplus_1.
Proof. vm_compute. reflexivity. Qed.

Lemma surplus_iteration_2 : meek_step surplus_1 = Ok surplus_2.
Proof. vm_compute. reflexivity. Qed.

Lemma keep_rates_at_surplus :
  (0 < droop_quota surplus)%Z /\
  meek_iterations 1 (reset_keep_rates surplus) = Ok surplus_1 /\
  meek_step surplus_1 = Ok surplus_2 /\
  Forall2 (shrinks 4) (candidates surplus_1) (candidates surplus_2).
Proof.
  split; [reflexivity|].
  split; [exact surplus_iteration_1|].
  split; [exact surplus_iteration_2|].
  apply (keep_rates_never_grow surplus surplus_1 surplus_2 1).
  - reflexivity.
  - exact surplus_iteration_1.
  - exact surplus_iteration_2.
Defined.

Lemma termination_at_scenario :
  (1 <= 1)%Z /\
  ballots (_load_data (@init ExactArith Scenario.names 1) Scenario.file)
  <> [] /\
  (exists s',
     run_election 4 (@init ExactArith Scenario.names 1) Scenario.file
     = Some (Ok s')) /\
  (forall s2 s s',
     _calculate_droop_quota
       (_load_data (@init ExactArith Scenario.names 1) Scenario.file)
     = Ok s2 ->
     rounds s2 s ->
     next_round s s' ->
     (length (active_candidates s') < length (active_candidates s))%nat).
Proof.
  split; [discriminate|].
  split; [discriminate|].
  apply (main_loop_terminates Scenario.names 1 Scenario.file).
  - discriminate.
  - discriminate.
Defined.

End ExactInstances.

(** * More of the program *)

(** ** Construction and loading *)

Section Loading.

Context {A : Arith}.

Lemma dict_fromkeys_In (l : list string) (x : string) :
  In x (dict_fromkeys l) <-> In x l.
Proof.
  induction l as [|y l IH]; simpl; [tauto|].
  rewrite filter_In, IH.
  destruct (String.eqb_spec y x) as [E|E]; simpl.
  - split; auto.
  - split.
    + intros [H|[H _]]; auto.
    + intros [H|H]; [contradiction | right; auto].
Qed.

Lemma dict_fromkeys_distinct (l : list string) :
  NoDup l -> dict_fromkeys l = l.
Proof.
  induction l as [|y l IH]; simpl; intros N; [reflexivity|].
  inversion N as [|? ? Hy Hl]; subst. rewrite (IH Hl). f_equal.
  apply forallb_filter_id. apply forallb_forall. intros z Hz.
  destruct (String.eqb_spec y z) as [E|E]; [subst; contradiction | reflexivity].
Qed.

Lemma filter_twice {X : Type} (p q : X -> bool) (l : list X) :
  filter p (filter q l) = filter (fun x => q x && p x) l.
Proof.
  induction l as [|x l IH]; simpl; [reflexivity|].
  destruct (q x); simpl; [destruct (p x)|]; rewrite IH; reflexivity.
Qed.

Lemma dict_fromkeys_app (l1 l2 : list string) :
  dict_fromkeys (l1 ++ l2) =
  dict_fromkeys l1 ++
  filter (fun y => negb (existsb (String.eqb y) l1)) (dict_fromkeys l2).
Proof.
  induction l1 as [|x l1 IH]; simpl.
  - symmetry. apply forallb_filter_id. apply forallb_forall. reflexivity.
  - f_equal. rewrite IH, filter_app, filter_twice. f_equal.
    apply filter_ext. intros y. rewrite (String.eqb_sym y x).
    destruct (String.eqb x y), (existsb (String.eqb y) l1); reflexivity.
Qed.

(** X1.  [__init__] makes one candidate for every distinct name it is
    given, in the order the names first occur, each Active with no votes
    and keep rate 1; a name that was given before adds nothing, and the
    election starts without ballots and with quota 0. *)
Theorem init_one_candidate_per_name (names : list string) (W : Z) :
  NoDup (map name (candidates (init names W))) /\
  (forall n, In n (map name (candidates (init names W))) <-> In n names) /\
  (NoDup names -> map name (candidates (init names W)) = names) /\
  (forall more, (forall n, In n more -> In n names) ->
                init (names ++ more) W = init names W) /\
  Forall (fun c => c = new_Candidate (name c)) (candidates (init names W)) /\
  ballots (init names W) = [] /\
  num_winners (init names W) = W /\
  droop_quota (init names W) = 0%Z.
Proof.
  rewrite init_names.
  split; [apply dict_fromkeys_NoDup|].
  split; [intros n; apply dict_fromkeys_In|].
  split; [apply dict_fromkeys_distinct|].
  split; [|split; [|repeat split]].
  - intros more Hm. unfold init. f_equal. f_equal.
    rewrite dict_fromkeys_app.
    rewrite <- (app_nil_r (dict_fromkeys names)) at 2. f_equal.
    induction (dict_fromkeys more) as [|y d IH] eqn:E in Hm |- *;
      [reflexivity|].
    assert (Hd : forall z, In z (y :: d) -> In z names).
    { intros z Hz. apply Hm. apply dict_fromkeys_In. rewrite E. exact Hz. }
    clear E Hm IH. induction (y :: d) as [|z l IH]; simpl; [reflexivity|].
    assert (Hz : existsb (String.eqb z) names = true).
    { apply existsb_exists. exists z. split; [|apply String.eqb_refl].
      apply Hd. left; reflexivity. }
    rewrite Hz. simpl. apply IH. intros w Hw. apply Hd. right; exact Hw.
  - unfold init. simpl. apply Forall_forall. intros c Hc.
    apply in_map_iff in Hc. destruct Hc as [n [Hn _]]. subst. reflexivity.
Qed.

Lemma filter_shorter {X : Type} (p : X -> bool) (l : list X) :
  (length (filter p l) <= length l)%nat.
Proof.
  induction l as [|x l IH]; simpl; [lia|]. destruct (p x); simpl; lia.
Qed.

Lemma filter_same_length {X : Type} (p : X -> bool) (l : list X) :
  length (filter p l) = length l -> forall x, In x l -> p x = true.
Proof.
  induction l as [|y l IH]; simpl; intros H x Hx; [contradiction|].
  pose proof (filter_shorter p l) as L.
  destruct (p y) eqn:E; simpl in H; [|lia].
  destruct Hx as [Hx|Hx]; [subst; exact E | apply IH; [lia | exact Hx]].
Qed.

Lemma dict_fromkeys_shorter (l : list string) :
  (length (dict_fromkeys l) <= length l)%nat.
Proof.
  induction l as [|x l IH]; simpl; [lia|].
  pose proof (filter_shorter (fun y => negb (String.eqb x y))
                (dict_fromkeys l)). lia.
Qed.

(** The test [len(prefs) != len(unique_prefs)] finds the repeated
    names. *)
Lemma same_length_NoDup (l : list string) :
  length l = length (dict_fromkeys l) <-> NoDup l.
Proof.
  split; [|intros N; rewrite (dict_fromkeys_distinct l N); reflexivity].
  induction l as [|x l IH]; simpl; intros H; constructor.
  - pose proof (filter_shorter (fun y => negb (String.eqb x y))
                  (dict_fromkeys l)) as L1.
    pose proof (dict_fromkeys_shorter l) as L2.
    intros Hx. apply dict_fromkeys_In in Hx.
    assert (E : length (filter (fun y => negb (String.eqb x y))
                          (dict_fromkeys l)) = length (dict_fromkeys l))
      by lia.
    pose proof (filter_same_length _ _ E x Hx) as F.
    cbv beta in F. rewrite String.eqb_refl in F. discriminate.
  - apply IH.
    pose proof (filter_shorter (fun y => negb (String.eqb x y))
                  (dict_fromkeys l)).
    pose proof (dict_fromkeys_shorter l). lia.
Qed.

Lemma declared_In (s : SingleTransferableVote num) (p : string) :
  declared s p = true <-> In p (map name (candidates s)).
Proof.
  unfold declared. rewrite existsb_exists, in_map_iff.
  split; intros [c [H1 H2]]; exists c.
  - apply String.eqb_eq in H2. auto.
  - split; [exact H2 | apply String.eqb_eq, H1].
Qed.

Lemma valid_prefs_spec (s : SingleTransferableVote num) (prefs : list string) :
  valid_prefs s prefs = true <->
  NoDup prefs /\ forall p, In p prefs -> In p (map name (candidates s)).
Proof.
  unfold valid_prefs. rewrite andb_true_iff, Nat.eqb_eq, same_length_NoDup.
  rewrite forallb_forall.
  split; intros [H1 H2]; (split; [exact H1|]); intros q Hq;
    apply declared_In, H2, Hq.
Qed.

(** X2.  After [_load_data] on a file that exists, the ballots are the
    ones held before followed by the lines of the file that are not empty,
    repeat no name and only name declared candidates, in the order of the
    file; every other line is dropped, and nothing but the ballots is
    written. *)
Theorem load_data_keeps_the_valid_lines
  (s : SingleTransferableVote num) (lines : list (list string)) :
  exists kept,
    ballots (_load_data s (Some lines)) = ballots s ++ map mkVote kept /\
    (forall prefs,
       In prefs kept <->
       In prefs lines /\ prefs <> [] /\ NoDup prefs /\
       forall p, In p prefs -> In p (map name (candidates s))) /\
    (exists keep : list string -> bool, kept = filter keep lines) /\
    candidates (_load_data s (Some lines)) = candidates s /\
    num_winners (_load_data s (Some lines)) = num_winners s /\
    droop_quota (_load_data s (Some lines)) = droop_quota s.
Proof.
  eexists. split; [reflexivity|]. split; [|split; [eexists; reflexivity|]];
    [|repeat split].
  intros prefs. rewrite filter_In. destruct prefs as [|p prefs].
  - split; [intros [_ H]; discriminate | intros (_ & H & _); contradiction].
  - rewrite valid_prefs_spec. split.
    + intros (H1 & H2 & H3). repeat split; auto. discriminate.
    + intros (H1 & _ & H2 & H3). auto.
Qed.

(** X3.  Loading is cumulative: two files loaded one after the other give
    the ballots of their lines put together, while a file that does not
    exist empties the ballots, those of an earlier file included. *)
Theorem load_data_accumulates (s : SingleTransferableVote num)
  (lines1 lines2 : list (list string)) :
  _load_data (_load_data s (Some lines1)) (Some lines2)
  = _load_data s (Some (lines1 ++ lines2)) /\
  ballots (_load_data (_load_data s (Some lines1)) None) = [].
Proof.
  split; [|reflexivity].
  unfold _load_data, set_ballots. simpl.
  rewrite filter_app, map_app, app_assoc. reflexivity.
Qed.

Lemma lstrip_spaces isspace (pre line : list string) :
  Forall (fun c => isspace c = true) pre ->
  lstrip isspace (pre ++ line) = lstrip isspace line.
Proof.
  intros F. induction F as [|c pre Hc _ IH]; simpl; [reflexivity|].
  rewrite Hc. exact IH.
Qed.

Lemma lstrip_app isspace (line post : list string) :
  lstrip isspace (line ++ post) =
  match lstrip isspace line with
  | [] => lstrip isspace post
  | _ :: _ => lstrip isspace line ++ post
  end.
Proof.
  induction line as [|c line IH]; simpl; [reflexivity|].
  destruct (isspace c); [exact IH | reflexivity].
Qed.

Lemma rstrip_spaces isspace (line post : list string) :
  Forall (fun c => isspace c = true) post ->
  rstrip isspace (line ++ post) = rstrip isspace line.
Proof.
  intros F. unfold rstrip. rewrite rev_app_distr, lstrip_spaces; auto.
  apply Forall_rev, F.
Qed.

(** What [strip] does with white space around a line. *)
Lemma strip_spaces isspace (pre line post : list string) :
  Forall (fun c => isspace c = true) pre ->
  Forall (fun c => isspace c = true) post ->
  strip isspace (pre ++ line ++ post) = strip isspace line.
Proof.
  intros Fpre Fpost. unfold strip.
  rewrite lstrip_spaces by exact Fpre. rewrite lstrip_app.
  destruct (lstrip isspace line) as [|c l] eqn:E.
  - rewrite <- (app_nil_r post), lstrip_spaces by exact Fpost. reflexivity.
  - apply rstrip_spaces, Fpost.
Qed.

(** X4.  White space around a line of the file does not count: a file
    whose lines differ from those of another by leading and trailing white
    space only loads the same ballots, and a line of white space alone is
    skipped like an empty one. *)
Theorem load_file_ignores_surrounding_space (isspace : string -> bool)
  (s : SingleTransferableVote num) (raw raw' : list (list string)) :
  Forall2 (fun line line' =>
             exists pre post,
               Forall (fun c => isspace c = true) pre /\
               Forall (fun c => isspace c = true) post /\
               line' = pre ++ line ++ post)
    raw raw' ->
  load_file isspace s (Some raw') = load_file isspace s (Some raw) /\
  forall blank,
    Forall (fun c => isspace c = true) blank ->
    load_file isspace s (Some (blank :: raw)) = load_file isspace s (Some raw).
Proof.
  intros H.
  assert (E : map (strip isspace) raw' = map (strip isspace) raw).
  { induction H as [|l l' r r' (pre & post & F1 & F2 & E) _ IH]; simpl;
      [reflexivity|].
    subst l'. rewrite strip_spaces by assumption. rewrite IH. reflexivity. }
  split.
  - unfold load_file. cbn [option_map]. rewrite E. reflexivity.
  - intros blank F. unfold load_file. cbn [option_map map].
    assert (B : strip isspace blank = []).
    { rewrite <- (app_nil_r blank).
      change (blank ++ []) with (blank ++ [] ++ []).
      rewrite (strip_spaces isspace blank [] []); auto. }
    rewrite B. reflexivity.
Qed.

End Loading.

(** ** The count, for every arithmetic *)

Section Counting.

Context {A : Arith}.

(** The votes a pass starts from do not matter. *)
Lemma recalculate_forgets_votes (s t : SingleTransferableVote num) :
  config t = config s ->
  zero_votes (candidates t) = zero_votes (candidates s) ->
  _recalculate_votes t = _recalculate_votes s.
Proof.
  unfold config, _recalculate_votes. intros C Z.
  injection C as Cb Cw Cq. rewrite Z, Cb.
  destruct (walk_votes _ _) as [r|e]; simpl; [|reflexivity].
  unfold set_candidates. congruence.
Qed.

Lemma recalculate_votes_idempotent_aux (s s1 : SingleTransferableVote num) :
  _recalculate_votes s = Ok s1 ->
  _recalculate_votes s1 = Ok s1.
Proof.
  intros H. rewrite <- H. apply recalculate_forgets_votes.
  - apply static_config, recalculate_static, H.
  - unfold zero_votes.
    apply (recalculate_map (fun c => set_votes c (of_int 0)) s s1);
      [|exact H].
    intros c v. reflexivity.
Qed.

(** X5.  [_recalculate_votes] is idempotent: a second pass right after a
    first one returns the state of the first, for the votes are rebuilt from
    the ballots, the keep rates and the statuses alone. *)
Theorem recalculate_votes_idempotent (s s1 : SingleTransferableVote num) :
  _recalculate_votes s = Ok s1 ->
  _recalculate_votes s1 = Ok s1 /\
  forall t, config t = config s ->
            zero_votes (candidates t) = zero_votes (candidates s) ->
            _recalculate_votes t = Ok s1.
Proof.
  intros H. split; [apply (recalculate_votes_idempotent_aux s), H|].
  intros t C Z. rewrite <- H. apply recalculate_forgets_votes; assumption.
Qed.

Lemma shrink_keep_rates_parked q cs : forall cs',
  shrink_keep_rates q cs = Ok cs' -> map parked cs' = map parked cs.
Proof.
  induction cs as [|c cs IH]; simpl; intros cs' H.
  - inversion H; subst; reflexivity.
  - apply bind_Ok in H. destruct H as [c1 [H1 H]].
    apply bind_Ok in H. destruct H as [cs1 [H2 H]].
    inversion H; subst; simpl. rewrite (IH _ H2). f_equal.
    unfold shrink in H1. destruct (is_active c) eqn:E; simpl in H1.
    + destruct (fltb (of_int q) (votes c)).
      * destruct (fdiv (of_int q) (votes c)); [|discriminate].
        inversion H1; subst. unfold parked, is_active in *. simpl.
        rewrite E. reflexivity.
      * inversion H1; subst; reflexivity.
    + inversion H1; subst; reflexivity.
Qed.

Lemma parked_votes_free : votes_free parked.
Proof. intros c v. reflexivity. Qed.

Lemma meek_step_parked s s' :
  meek_step s = Ok s' ->
  map parked (candidates s') = map parked (candidates s).
Proof.
  unfold meek_step. intros H.
  apply bind_Ok in H. destruct H as [s1 [H1 H]].
  apply bind_Ok in H. destruct H as [cs [H2 H]].
  inversion H; subst. simpl.
  rewrite (shrink_keep_rates_parked _ _ _ H2).
  apply (recalculate_map parked _ _ parked_votes_free H1).
Qed.

Lemma meek_for_parked n : forall s s',
  meek_for n s = Ok s' ->
  map parked (candidates s') = map parked (candidates s).
Proof.
  induction n as [|n IH]; simpl; intros s s' H.
  - inversion H; subst; reflexivity.
  - apply bind_Ok in H. destruct H as [s1 [H1 H]].
    apply meek_step_parked in H1.
    destruct (fltb _ CONVERGENCE_THRESHOLD).
    + inversion H; subst. exact H1.
    + rewrite (IH _ _ H). exact H1.
Qed.

Lemma reset_parked s :
  map parked (candidates (reset_keep_rates s)) = map parked (candidates s).
Proof.
  simpl. rewrite map_map. apply map_ext. intros c.
  destruct (is_active c) eqn:E; [|reflexivity].
  unfold parked, is_active in *. simpl. rewrite E. reflexivity.
Qed.

(** X6.  What [_run_meek_iteration] returns is consistent and touches
    little: the votes are the ones [_recalculate_votes] rebuilds from the
    final keep rates (one more pass changes nothing); the ballots, the
    number of seats, the quota and every name and status are as before;
    and the keep rate of a candidate that is not Active is not written. *)
Theorem meek_iteration_leaves_a_recounted_state
  (s s' : SingleTransferableVote num) :
  _run_meek_iteration s = Ok s' ->
  _recalculate_votes s' = Ok s' /\
  static s s' /\
  Forall2 (fun c c' =>
             name c' = name c /\ status c' = status c /\
             (status c <> Active -> keep_rate c' = keep_rate c))
    (candidates s) (candidates s').
Proof.
  intros H. pose proof (run_meek_iteration_static _ _ H) as St.
  unfold _run_meek_iteration in H.
  apply bind_Ok in H. destruct H as [s1 [H1 H]].
  split; [eapply recalculate_votes_idempotent_aux; exact H|].
  split; [exact St|].
  assert (P : map parked (candidates s') = map parked (candidates s)).
  { rewrite (recalculate_map parked _ _ parked_votes_free H).
    rewrite (meek_for_parked _ _ _ H1). apply reset_parked. }
  clear - P. revert P. generalize (candidates s') as cs'.
  induction (candidates s) as [|c cs IH]; intros [|c' cs'] P;
    try discriminate; constructor.
  - simpl in P. assert (E : parked c' = parked c) by congruence.
    unfold parked, ident in E.
    assert (Ei : name c' = name c /\ is_winner c' = is_winner c
                 /\ is_loser c' = is_loser c).
    { repeat split; congruence. }
    destruct Ei as (En & Ew & El).
    split; [exact En|]. split; [unfold status; rewrite Ew, El; reflexivity|].
    intros Hs.
    assert (Ha : is_active c = false).
    { destruct (is_active c) eqn:Ea; [|reflexivity].
      apply status_active in Ea. contradiction. }
    assert (Ha' : is_active c' = false).
    { unfold is_active in *. rewrite Ew, El. exact Ha. }
    rewrite Ha, Ha' in E. congruence.
  - apply IH. simpl in P. congruence.
Qed.

End Counting.

(** ** Whole runs, for every arithmetic *)

Section Running.

Context {A : Arith}.

Lemma shrink_keep_rates_raises q cs e :
  shrink_keep_rates q cs = Raise e -> e = ZeroDivisionError.
Proof.
  induction cs as [|c cs IH]; simpl; [discriminate|].
  unfold shrink at 1.
  destruct (is_active c && fltb (of_int q) (votes c)).
  - destruct (fdiv (of_int q) (votes c)); simpl.
    + destruct (shrink_keep_rates q cs); simpl; [discriminate|].
      intros H. inversion H; subst. apply IH. reflexivity.
    + intros H. inversion H. reflexivity.
  - simpl. destruct (shrink_keep_rates q cs); simpl; [discriminate|].
    intros H. inversion H; subst. apply IH. reflexivity.
Qed.

Lemma meek_step_raises s e :
  well_formed s -> meek_step s = Raise e -> e = ZeroDivisionError.
Proof.
  intros W. unfold meek_step.
  destruct (recalculate_total s W) as [s1 H1]. rewrite H1. simpl.
  destruct (shrink_keep_rates _ _) as [cs|e'] eqn:E; simpl; [discriminate|].
  intros H. inversion H; subst. eapply shrink_keep_rates_raises, E.
Qed.

Lemma meek_for_raises n : forall s e,
  well_formed s -> meek_for n s = Raise e -> e = ZeroDivisionError.
Proof.
  induction n as [|n IH]; simpl; intros s e W; [discriminate|].
  destruct (meek_step s) as [s1|e1] eqn:E; simpl.
  - destruct (fltb _ CONVERGENCE_THRESHOLD); [discriminate|].
    apply IH. eapply static_well_formed; [apply meek_step_static, E | exact W].
  - intros H. inversion H; subst. eapply meek_step_raises; eauto.
Qed.

Lemma run_meek_iteration_raises s e :
  well_formed s -> _run_meek_iteration s = Raise e -> e = ZeroDivisionError.
Proof.
  intros W. unfold _run_meek_iteration.
  assert (W0 : well_formed (reset_keep_rates s))
    by (eapply static_well_formed; [apply reset_static | exact W]).
  destruct (meek_for MAX_ITERATIONS (reset_keep_rates s)) as [s1|e1] eqn:E;
    simpl.
  - assert (W1 : well_formed s1)
      by (eapply static_well_formed; [eapply meek_for_static, E | exact W0]).
    destruct (recalculate_total s1 W1) as [s2 H2]. rewrite H2. discriminate.
  - intros H. inversion H; subst. eapply meek_for_raises; eauto.
Qed.

Lemma main_loop_body_well_formed s b s' :
  well_formed s -> main_loop_body s = Ok (b, s') -> well_formed s'.
Proof.
  intros W H. apply main_loop_body_points in H.
  assert (C : config s' = config s) by (apply points_config, H).
  assert (N : map name (candidates s') = map name (candidates s)).
  { clear C W. induction H as [s|s s1 s' H1 H IH]; [reflexivity|].
    rewrite IH. apply op_frozen in H1. clear - H1.
    induction H1 as [|c c' cs cs' [Hn _] _ IH]; simpl; congruence. }
  unfold config in C. injection C as Cb _ _.
  eapply well_formed_names; eauto.
Qed.

Lemma main_loop_body_raises s e :
  well_formed s -> main_loop_body s = Raise e -> e = ZeroDivisionError.
Proof.
  intros W. unfold main_loop_body, _run_single_round.
  destruct (_run_meek_iteration s) as [s1|e1] eqn:E;
    destruct (Z.of_nat _ <=? _)%Z; simpl; try discriminate;
    intros H; inversion H; subst; eapply run_meek_iteration_raises; eauto.
Qed.

Lemma run_main_loop_raises fuel : forall s e,
  well_formed s ->
  _run_main_loop fuel s = Some (Raise e) -> e = ZeroDivisionError.
Proof.
  induction fuel as [|fuel IH]; simpl; intros s e W; [discriminate|].
  destruct (main_loop_body s) as [[[|] s1]|e1] eqn:E.
  - discriminate.
  - apply IH. eapply main_loop_body_well_formed; eauto.
  - intros H. inversion H; subst. eapply main_loop_body_raises; eauto.
Qed.

(** Once the file is read or found missing, the count never fails on a
    lookup of [self.candidates]: the exception it can raise is the
    division by zero. *)
Lemma main_raises_no_key_error (isspace : string -> bool) (fuel : nat)
  (cands : list string) (W : Z) (raw : option (list (list string)))
  (e : exn) :
  main isspace fuel cands W raw = Some (Raise e) ->
  e = ZeroDivisionError.
Proof.
  unfold main, run_election.
  set (s1 := _load_data (init cands W) _).
  assert (W1 : well_formed s1) by apply load_data_well_formed.
  destruct (ballots s1); [discriminate|].
  unfold _calculate_droop_quota.
  destruct (num_winners s1 + 1 =? 0)%Z.
  - intros H. inversion H. reflexivity.
  - apply run_main_loop_raises. exact W1.
Qed.


Lemma run_main_loop_negative_seats fuel : forall s s',
  (num_winners s < 0)%Z -> _run_main_loop fuel s <> Some (Ok s').
Proof.
  induction fuel as [|fuel IH]; simpl; intros s s' W; [discriminate|].
  destruct (main_loop_body s) as [[[|] s1]|e1] eqn:E.
  - exfalso. apply last_round_inv in E. lia.
  - apply IH.
    apply main_loop_body_points, points_config in E.
    unfold config in E. injection E as _ Ew _. lia.
  - discriminate.
Qed.

(** X8.  With a negative number of seats and a valid ballot in the file,
    [main] never comes to an end that is not an exception: at -1 the quota
    divides by zero, and below the test of the terminal round never holds,
    so the main loop runs on for any number of rounds or stops with an
    exception. *)
Theorem main_negative_seats_never_ends (isspace : string -> bool)
  (cands : list string) (W : Z) (raw : option (list (list string))) :
  (W < 0)%Z ->
  ballots (load_file isspace (init cands W) raw) <> [] ->
  forall fuel s', main isspace fuel cands W raw <> Some (Ok s').
Proof.
  intros HW Hb fuel s'. unfold main, run_election.
  unfold load_file in Hb.
  set (s1 := _load_data (init cands W) _) in *.
  destruct (ballots s1); [contradiction|].
  unfold _calculate_droop_quota.
  destruct (num_winners s1 + 1 =? 0)%Z; [discriminate|].
  apply run_main_loop_negative_seats. simpl.
  destruct (load_data_frame (init cands W)
              (option_map (map (strip isspace)) raw)) as (_ & Hw & _).
  fold s1 in Hw. rewrite Hw. exact HW.
Qed.

Lemma points_exclusive s s' :
  points s s' ->
  Forall exclusive (candidates s) -> Forall exclusive (candidates s').
Proof.
  intros H. induction H as [s|s s1 s' H1 H IH]; [auto|].
  intros F. apply IH. eapply op_exclusive; eauto.
Qed.

Lemma rounds_not_elected s2 s :
  rounds s2 s ->
  Forall not_elected (candidates s2) -> Forall not_elected (candidates s).
Proof.
  intros H. induction H as [|x y z Hxy Hyz IH]; [auto|].
  intros F. apply IH. eapply not_elected_map; [|exact F].
  apply next_round_is_winner, Hxy.
Qed.

Lemma decide_not_active q (c : Candidate num) : status (decide q c) <> Active.
Proof.
  unfold decide. destruct (is_active c) eqn:E.
  - unfold is_active in E. unfold status.
    destruct (over_quota q c); simpl; [discriminate|].
    destruct (is_winner c); discriminate.
  - intros Hs. apply status_active in Hs. congruence.
Qed.

Lemma decide_winner_was_active q (c : Candidate num) :
  not_elected c -> is_winner (decide q c) = true -> is_active c = true.
Proof.
  unfold not_elected, decide. intros Hc.
  destruct (is_active c); [reflexivity|]. congruence.
Qed.

Lemma decided_winners q (cs : list (Candidate num)) :
  Forall not_elected cs ->
  (length (filter is_winner (map (decide q) cs))
   <= length (filter is_active cs))%nat /\
  Forall (fun c => status c <> Active) (map (decide q) cs).
Proof.
  intros F. induction F as [|c cs Hc _ [IH1 IH2]]; cbn [map filter];
    [split; [simpl; lia | constructor]|].
  split; [|constructor; [apply decide_not_active | exact IH2]].
  destruct (is_winner (decide q c)) eqn:E.
  - rewrite (decide_winner_was_active q c Hc E). simpl. lia.
  - destruct (is_active c); simpl; lia.
Qed.

(** X9.  When [run_election] on a freshly constructed election comes to
    its end with ballots loaded, every candidate is Elected or Eliminated
    and none is both, so the two-way label of [_display_final_results]
    shows each candidate's status; and the winners it lists are at most
    as many as the seats. *)
Theorem completed_run_decides_everyone (fuel : nat) (names : list string)
  (W : Z) (file : option (list (list string)))
  (s' : SingleTransferableVote num) :
  run_election fuel (init names W) file = Some (Ok s') ->
  ballots s' <> [] ->
  Forall (fun c => status c <> Active /\ exclusive c /\
                   final_status c = status c)
    (candidates s') /\
  (Z.of_nat (length (winners s')) <= W)%Z.
Proof.
  intros H Hb. unfold run_election in H.
  set (s1 := _load_data (init names W) file) in *.
  destruct (load_data_frame (init names W) file) as (Hc & Hw & _).
  fold s1 in Hc, Hw.
  destruct (ballots s1) eqn:B.
  { inversion H; subst s'. rewrite B in Hb. contradiction. }
  unfold _calculate_droop_quota in H.
  destruct (num_winners s1 + 1 =? 0)%Z; [discriminate|].
  set (s2 := set_droop_quota s1 _) in H.
  assert (N2 : Forall not_elected (candidates s2)).
  { simpl. rewrite Hc. apply init_not_elected. }
  assert (X2 : Forall exclusive (candidates s2)).
  { simpl. rewrite Hc. unfold init. simpl. apply Forall_forall.
    intros c Hin. apply in_map_iff in Hin. destruct Hin as [n [Hn _]].
    subst. reflexivity. }
  pose proof (run_main_loop_points _ _ _ H) as P.
  apply run_main_loop_rounds in H. destruct H as [sr [Hr Hl]].
  pose proof (rounds_not_elected _ _ Hr N2) as Nr.
  assert (Wr : num_winners sr = W).
  { apply rounds_points, points_config in Hr. unfold config in Hr.
    injection Hr as _ Ew _. rewrite Ew. simpl. exact Hw. }
  apply last_round_inv in Hl. destruct Hl as [L [sm [Hm Hd]]].
  pose proof (run_meek_iteration_static _ _ Hm) as (_ & _ & _ & Hi).
  assert (Nm : Forall not_elected (candidates sm)).
  { eapply not_elected_map; [apply is_winner_of_ident, Hi | exact Nr]. }
  rewrite decide_winners_collected in Hd.
  destruct (decided_winners (droop_quota sm) _ Nm) as [D1 D2].
  pose proof (points_exclusive _ _ P X2) as Xs.
  split.
  - subst s'. simpl in *. apply Forall_forall. intros c Hin.
    rewrite Forall_forall in D2, Xs.
    pose proof (D2 c Hin) as Hs. pose proof (Xs c Hin) as Hx.
    split; [exact Hs|]. split; [exact Hx|].
    unfold final_status, status in *.
    destruct (is_winner c); [reflexivity|].
    destruct (is_loser c); [reflexivity | contradiction].
  - subst s'. unfold winners. simpl.
    rewrite (map_ident_length _ _ Hi) in D1.
    unfold active_candidates in L. lia.
Qed.

Lemma existsb_map_false {X Y : Type} (g : X -> Y) (p : Y -> bool)
  (l : list X) :
  (forall x, p (g x) = false) -> existsb p (map g l) = false.
Proof.
  intros H. induction l as [|x l IH]; simpl; [reflexivity|].
  rewrite H, IH. reflexivity.
Qed.

(** X10.  [_elect_winners] marks as winners exactly the Active candidates
    whose votes are above the quota and writes nothing else; it returns
    [True] exactly when there is one; called again it finds nobody and
    returns [False]; and the flags [is_winner] it leaves are the ones the
    terminal round of [_run_main_loop] would leave on the same state. *)
Theorem elect_winners_once (s : SingleTransferableVote num) :
  let s1 := fst (_elect_winners s) in
  config s1 = config s /\
  Forall2 (fun c c1 =>
             name c1 = name c /\ votes c1 = votes c /\
             keep_rate c1 = keep_rate c /\ is_loser c1 = is_loser c /\
             (is_winner c1 = true <->
              is_winner c = true \/
              (status c = Active /\ over_quota (droop_quota s) c = true)))
    (candidates s) (candidates s1) /\
  (snd (_elect_winners s) = true <->
   exists c, In c (candidates s) /\ status c = Active /\
             over_quota (droop_quota s) c = true) /\
  _elect_winners s1 = (s1, false) /\
  map is_winner (candidates s1)
  = map is_winner (candidates (decide_winners (collected s) s)).
Proof.
  intros s1. subst s1. cbn [_elect_winners fst snd].
  split; [reflexivity|]. split; [|split; [|split]].
  - cbn [candidates set_candidates].
    apply map_Forall2. intros c.
    destruct (is_active c) eqn:E; cbn [andb].
    + pose proof (proj2 (status_active c) E) as Hs.
      assert (Hw : is_winner c = false).
      { unfold is_active in E. destruct (is_winner c); [discriminate|].
        reflexivity. }
      destruct (over_quota (droop_quota s) c) eqn:O; simpl;
        repeat (split; [reflexivity|]); rewrite ?Hw.
      * split; auto.
      * split; [discriminate|]. intros [H|[_ H]]; discriminate.
    + repeat (split; [reflexivity|]). split; [auto|].
      intros [H|[H _]]; [exact H|].
      apply status_active in H. congruence.
  - rewrite existsb_exists. split; intros [c [H1 H2]]; exists c.
    + apply andb_true_iff in H2. destruct H2 as [H2 H3].
      apply status_active in H2. auto.
    + destruct H2 as [H2 H3]. apply status_active in H2.
      rewrite H2, H3. auto.
  - unfold _elect_winners. cbn [candidates set_candidates droop_quota].
    assert (E : forall c : Candidate num,
              is_active (if is_active c && over_quota (droop_quota s) c
                         then set_is_winner c true else c)
              && over_quota (droop_quota s)
                   (if is_active c && over_quota (droop_quota s) c
                    then set_is_winner c true else c) = false).
    { intros c.
      destruct (is_active c && over_quota (droop_quota s) c) eqn:E;
        [|exact E].
      unfold is_active. simpl. reflexivity. }
    f_equal.
    + unfold set_candidates. cbn [ballots num_winners droop_quota]. f_equal.
      rewrite map_map. apply map_ext. intros c. rewrite E. reflexivity.
    + apply existsb_map_false. exact E.
  - rewrite decide_winners_collected. cbn [candidates set_candidates].
    rewrite !map_map. apply map_ext. intros c. unfold decide.
    destruct (is_active c) eqn:E; simpl; [|reflexivity].
    destruct (over_quota (droop_quota s) c); simpl; [reflexivity|].
    unfold is_active in E. destruct (is_winner c); [discriminate|reflexivity].
Qed.

End Running.

(** ** The count in exact arithmetic *)

Section ExactCounting.

#[local] Existing Instance ExactArith.

Open Scope Q_scope.

#[local] Ltac qlra :=
  change (@num ExactArith) with Q in *;
  change (@of_int ExactArith 0) with 0 in *;
  lra.

Lemma find_candidate_In p (cs : list (Candidate num)) cand :
  find_candidate p cs = Some cand -> In cand cs /\ name cand = p.
Proof.
  unfold find_candidate. intros H. apply find_some in H.
  destruct H as [H1 H2]. apply String.eqb_eq in H2. auto.
Qed.

Lemma find_candidate_unique p (cs : list (Candidate num)) cand c :
  NoDup (map name cs) ->
  find_candidate p cs = Some cand ->
  In c cs -> name c = p -> c = cand.
Proof.
  unfold find_candidate.
  induction cs as [|c0 cs IH]; intros N F Hin Hn; [contradiction|].
  inversion N as [|? ? Hc0 Hcs]; subst. cbn [find] in F.
  destruct (String.eqb_spec (name c0) (name c)) as [E|E].
  - inversion F; subst cand. destruct Hin as [Hin|Hin]; [auto|].
    exfalso. apply Hc0. rewrite E. apply in_map, Hin.
  - destruct Hin as [Hin|Hin]; [subst; contradiction|].
    apply IH; auto.
Qed.

Lemma effective_rate (cand : Candidate num) :
  counted cand ->
  0 <= (if is_active cand then keep_rate cand else of_int 0) /\
  (if is_active cand then keep_rate cand else of_int 0) <= 1.
Proof.
  intros (R & _ & _). destruct (is_active cand) eqn:E.
  - apply R, status_active, E.
  - change (of_int 0) with 0. split; [apply Qle_refl | discriminate].
Qed.

Lemma update_counted p (v : Q) (cs : list (Candidate num)) cand :
  NoDup (map name cs) ->
  Forall counted cs ->
  find_candidate p cs = Some cand ->
  0 <= v ->
  Forall counted
    (update_candidate p
       (fun c => set_votes c
                   (fadd (votes c)
                      (fmul v (if is_active cand then keep_rate cand
                               else of_int 0))))
       cs).
Proof.
  intros N F Hf Hv. apply Forall_forall. intros c' Hin.
  unfold update_candidate in Hin. apply in_map_iff in Hin.
  destruct Hin as [c [Hc Hin]].
  rewrite Forall_forall in F. pose proof (F c Hin) as Fc.
  destruct (String.eqb_spec (name c) p) as [E|E]; [|subst c'; exact Fc].
  assert (Ec : c = cand) by (eapply find_candidate_unique; eauto).
  subst c. subst c'.
  destruct (effective_rate cand Fc) as [K0 K1].
  destruct Fc as (R & V0 & Vz).
  unfold counted. cbn [set_votes votes keep_rate].
  change (status (set_votes cand _)) with (status cand).
  split; [exact R|].
  change (fadd ?a ?b) with (a + b). change (fmul ?a ?b) with (a * b).
  split.
  - assert (0 <= v * (if is_active cand then keep_rate cand else of_int 0))
      by (apply Qmult_le_0_compat; assumption).
    qlra.
  - intros Hs. assert (Ha : is_active cand = false).
    { destruct (is_active cand) eqn:Ea; [|reflexivity].
      apply status_active in Ea. contradiction. }
    rewrite Ha. change (of_int 0) with 0. rewrite (Vz Hs). ring.
Qed.

Lemma walk_preferences_counted prefs :
  forall (v : Q) (cs cs' : list (Candidate num)) (r : Q),
    NoDup (map name cs) ->
    Forall counted cs ->
    0 <= v -> v <= 1 ->
    walk_preferences prefs v cs = Ok (cs', r) ->
    Forall counted cs' /\ 0 <= r /\ r <= 1.
Proof.
  induction prefs as [|p prefs IH]; cbn [walk_preferences];
    intros v cs cs' r N F V0 V1 H.
  - inversion H; subst. auto.
  - destruct (fltb _ _).
    + inversion H; subst. auto.
    + destruct (find_candidate p cs) as [cand|] eqn:Ef; [|discriminate].
      destruct (find_candidate_In _ _ _ Ef) as [Hin _].
      rewrite Forall_forall in F. pose proof (F cand Hin) as Fc.
      rewrite <- Forall_forall in F.
      destruct (effective_rate cand Fc) as [K0 K1].
      cbv zeta in H. apply IH in H; auto.
      * rewrite update_candidate_map; [exact N | reflexivity].
      * apply update_counted; assumption.
      * change (fsub ?a ?b) with (a - b). change (fmul ?a ?b) with (a * b).
        assert (v * (if is_active cand then keep_rate cand else of_int 0)
                <= v * 1).
        { destruct (Qle_lt_or_eq _ _ V0) as [L|L].
          - apply (proj2 (Qmult_le_l _ _ _ L)). exact K1.
          - rewrite <- L. qlra. }
        qlra.
      * change (fsub ?a ?b) with (a - b). change (fmul ?a ?b) with (a * b).
        assert (0 <= v * (if is_active cand then keep_rate cand
                          else of_int 0))
          by (apply Qmult_le_0_compat; assumption).
        qlra.
Qed.

Lemma walk_votes_counted vs :
  forall (cs cs' : list (Candidate num)) (rs : list Q),
    NoDup (map name cs) ->
    Forall counted cs ->
    walk_votes vs cs = Ok (cs', rs) ->
    Forall counted cs' /\ Forall (fun r => 0 <= r /\ r <= 1) rs.
Proof.
  induction vs as [|v vs IH]; intros cs cs' rs N F H.
  - simpl in H. inversion H; subst. auto.
  - cbn [walk_votes] in H.
    apply bind_Ok in H. destruct H as [[cs1 r1] [H1 H]].
    apply bind_Ok in H. destruct H as [[cs2 rs2] [H2 H]].
    simpl in H. inversion H; subst. simpl in H2.
    assert (N1 : NoDup (map name cs1)).
    { erewrite walk_preferences_map; [exact N| |exact H1].
      intros c x; reflexivity. }
    apply walk_preferences_counted in H1; auto;
      [|discriminate|apply Qle_refl].
    destruct H1 as (F1 & R0 & R1).
    destruct (IH _ _ _ N1 F1 H2) as [F2 Rs]. auto.
Qed.

Lemma zero_votes_counted (cs : list (Candidate num)) :
  rates_in_unit cs -> Forall counted (zero_votes cs).
Proof.
  intros R. unfold zero_votes. apply Forall_forall. intros c' Hin.
  apply in_map_iff in Hin. destruct Hin as [c [Hc Hin]]. subst c'.
  unfold rates_in_unit in R. rewrite Forall_forall in R.
  split; [exact (R c Hin)|]. cbn [set_votes votes].
  split; [discriminate|]. intros _. reflexivity.
Qed.

Lemma total_nonneg (l : list Q) :
  Forall (fun x => 0 <= x) l -> 0 <= total l.
Proof.
  intros F. induction F as [|x l Hx _ IH]; simpl; [discriminate|]. qlra.
Qed.

Lemma total_bounds_member (l : list Q) (x : Q) :
  Forall (fun x => 0 <= x) l -> In x l -> x <= total l.
Proof.
  intros F. induction F as [|y l Hy Hl IH]; simpl; [contradiction|].
  pose proof (total_nonneg l Hl).
  intros [E|Hin]; [subst; qlra | specialize (IH Hin); qlra].
Qed.

(** What a pass gives when the keep rates are in [0, 1]. *)
Lemma recalculate_counted (s : SingleTransferableVote num) :
  well_formed s ->
  rates_in_unit (candidates s) ->
  exists s' rs,
    _recalculate_votes s = Ok s' /\
    walk_votes (ballots s) (zero_votes (candidates s))
    = Ok (candidates s', rs) /\
    Forall counted (candidates s') /\
    Forall (fun r => 0 <= r /\ r <= 1) rs /\
    total (map votes (candidates s')) + total rs
    == inject_Z (Z.of_nat (length (ballots s))).
Proof.
  intros W R. pose proof W as [N _].
  destruct (recalculate_total s W) as [s' Hs'].
  pose proof Hs' as Hr. unfold _recalculate_votes in Hr.
  apply bind_Ok in Hr. destruct Hr as [[cs' rs] [Hw Hr]].
  simpl in Hr. inversion Hr; subst s'. clear Hr.
  assert (N0 : NoDup (map name (zero_votes (candidates s)))).
  { rewrite zero_votes_map; [exact N | intros c x; reflexivity]. }
  destruct (walk_votes_counted _ _ _ _ N0 (zero_votes_counted _ R) Hw)
    as [F Rs].
  destruct (walk_votes_conserves _ _ _ _ N0 Hw) as [_ C].
  exists (set_candidates s cs'), rs. simpl.
  split; [exact Hs'|]. split; [exact Hw|]. split; [exact F|].
  split; [exact Rs|]. rewrite C, total_zero_votes. ring.
Qed.

(** In exact arithmetic, with the keep rate of every Active
    candidate in [0, 1], a pass of [_recalculate_votes] leaves every
    candidate between 0 votes and the number of ballots, a candidate that
    is Elected or Eliminated at exactly 0, and to every ballot a value
    between 0 and 1. *)
Theorem recalculated_votes_are_bounded (s : SingleTransferableVote num) :
  well_formed s ->
  rates_in_unit (candidates s) ->
  exists s' rs,
    _recalculate_votes s = Ok s' /\
    walk_votes (ballots s) (zero_votes (candidates s))
    = Ok (candidates s', rs) /\
    Forall (fun c =>
              0 <= votes c /\
              votes c <= inject_Z (Z.of_nat (length (ballots s))) /\
              (status c <> Active -> votes c == 0))
      (candidates s') /\
    Forall (fun r => 0 <= r /\ r <= 1) rs.
Proof.
  intros W R.
  destruct (recalculate_counted s W R) as (s' & rs & H1 & H2 & F & Rs & C).
  exists s', rs. split; [exact H1|]. split; [exact H2|].
  split; [|exact Rs].
  assert (V0 : Forall (fun x => 0 <= x) (map votes (candidates s'))).
  { apply Forall_forall. intros x Hx. apply in_map_iff in Hx.
    destruct Hx as [c [Hc Hin]]. subst x.
    rewrite Forall_forall in F. apply (F c Hin). }
  assert (R0 : 0 <= total rs).
  { apply total_nonneg. eapply Forall_impl; [|exact Rs].
    intros r [H _]. exact H. }
  apply Forall_forall. intros c Hin.
  rewrite Forall_forall in F. destruct (F c Hin) as (_ & Hv & Hz).
  split; [exact Hv|]. split; [|exact Hz].
  pose proof (total_bounds_member _ (votes c) V0 (in_map votes _ _ Hin)).
  qlra.
Qed.

Lemma over_quota_gt q (c : Candidate num) :
  over_quota q c = true <-> inject_Z q < votes c.
Proof. unfold over_quota. apply Qltb_lt. Qed.

Lemma inject_Z_succ_length {X : Type} (x : X) (l : list X) :
  inject_Z (Z.of_nat (length (x :: l)))
  == inject_Z (Z.of_nat (length l)) + 1.
Proof.
  cbn [length]. rewrite Nat2Z.inj_succ. unfold Z.succ.
  rewrite inject_Z_plus. reflexivity.
Qed.

(** Candidates over the quota hold at least the quota each. *)
Lemma over_quota_votes q (cs : list (Candidate num)) :
  Forall (fun c : Candidate num => 0 <= votes c) cs ->
  inject_Z (Z.of_nat (length (filter (over_quota q) cs))) * inject_Z q
  <= total (map votes cs).
Proof.
  intros F. induction F as [|c cs Hc _ IH].
  - simpl. discriminate.
  - cbn [filter map]. unfold total. cbn [fold_right].
    fold (total (map votes cs)).
    destruct (over_quota q c) eqn:O.
    + rewrite inject_Z_succ_length. apply over_quota_gt in O.
      rewrite Qmult_plus_distr_l, Qmult_1_l.
      qlra.
    + qlra.
Qed.

(** The Droop quota leaves room for the seats and no more: in exact
    arithmetic, with the quota at the value [_calculate_droop_quota] gives
    it, a number of seats that is not negative and keep rates in [0, 1], a
    pass of [_recalculate_votes] puts at most [num_winners] candidates
    over the quota. *)
Theorem at_most_the_seats_over_quota (s s' : SingleTransferableVote num) :
  well_formed s ->
  rates_in_unit (candidates s) ->
  (0 <= num_winners s)%Z ->
  droop_quota s
  = (Z.of_nat (length (ballots s)) / (num_winners s + 1) + 1)%Z ->
  _recalculate_votes s = Ok s' ->
  (Z.of_nat (length (filter (over_quota (droop_quota s')) (candidates s')))
   <= num_winners s')%Z.
Proof.
  intros W R Hw Hq H.
  destruct (recalculate_counted s W R) as (s1 & rs & H1 & _ & F & Rs & C).
  rewrite H in H1. inversion H1; subst s1. clear H1.
  pose proof (recalculate_static _ _ H) as (Eb & Ew & Eq & _).
  rewrite Eq, Ew.
  set (k := Z.of_nat (length (filter (over_quota (droop_quota s))
                                (candidates s')))).
  set (n := Z.of_nat (length (ballots s))) in *.
  assert (V0 : Forall (fun c : Candidate num => 0 <= votes c) (candidates s')).
  { eapply Forall_impl; [|exact F]. intros c (_ & Hv & _). exact Hv. }
  assert (R0 : 0 <= total rs).
  { apply total_nonneg. eapply Forall_impl; [|exact Rs].
    intros r [Hr _]. exact Hr. }
  pose proof (over_quota_votes (droop_quota s) _ V0) as K. fold k in K.
  assert (L : inject_Z (k * droop_quota s) <= inject_Z n).
  { rewrite inject_Z_mult. qlra. }
  rewrite <- Zle_Qle in L.
  assert (P : (0 < num_winners s + 1)%Z) by lia.
  pose proof (Z.mul_succ_div_gt n _ P) as G.
  assert (N0 : (0 <= n / (num_winners s + 1))%Z).
  { apply Z.div_pos; [unfold n; lia | exact P]. }
  unfold Z.succ in G. rewrite <- Hq in G. rewrite Hq in L. rewrite Hq in G.
  nia.
Qed.

Lemma filter_none {X : Type} (p : X -> bool) (l : list X) :
  (forall x, In x l -> p x = false) -> filter p l = [].
Proof.
  intros H. destruct (filter p l) as [|x r] eqn:E; [reflexivity|].
  assert (Hin : In x (filter p l)) by (rewrite E; left; reflexivity).
  apply filter_In in Hin. destruct Hin as [Hin Hp].
  rewrite (H x Hin) in Hp. discriminate.
Qed.

Lemma tied_equal (m : Q) (c : Candidate num) :
  votes c == m -> tied m c = true.
Proof.
  intros E. unfold tied. apply Qltb_lt.
  change (Qabs (votes c - m) < 1 # 1000000000).
  setoid_replace (votes c - m) with 0
    by (rewrite E; unfold Qminus; apply Qplus_opp_r).
  reflexivity.
Qed.

Lemma Forall2_map_In {X : Type} (R : X -> X -> Prop) (g : X -> X)
  (l : list X) :
  (forall x, In x l -> R x (g x)) -> Forall2 R l (map g l).
Proof.
  induction l as [|x l IH]; intros H; cbn [map]; constructor.
  - apply H. left. reflexivity.
  - apply IH. intros y Hy. apply H. right. exact Hy.
Qed.

(** [_eliminate_loser] breaks no tie: in exact arithmetic, when all
    the Active candidates hold the same votes, every one of them is
    eliminated and no candidate is left Active. *)
Theorem full_tie_eliminates_everyone (s : SingleTransferableVote num) :
  (forall c d,
     In c (active_candidates s) -> In d (active_candidates s) ->
     votes c == votes d) ->
  active_candidates (_eliminate_loser s) = [] /\
  Forall2
    (fun c c' =>
       status c' = (if is_active c then Eliminated else status c))
    (candidates s) (candidates (_eliminate_loser s)).
Proof.
  intros T. unfold _eliminate_loser.
  destruct (map votes (active_candidates s)) as [|v vs] eqn:E.
  - apply map_eq_nil in E. split; [exact E|].
    rewrite <- (map_id (candidates s)) at 2.
    apply Forall2_map_In. intros c Hc.
    destruct (is_active c) eqn:Ea; [|reflexivity].
    assert (Hca : In c (active_candidates s)) by (apply filter_In; auto).
    rewrite E in Hca. contradiction.
  - pose proof (py_min_In v vs) as M. rewrite <- E in M.
    apply in_map_iff in M. destruct M as [d [Hd Hin]].
    set (m := py_min v vs) in *.
    assert (G : forall c, In c (candidates s) ->
                eliminate m c
                = if is_active c then set_is_loser c true else c).
    { intros c Hc. unfold eliminate. destruct (is_active c) eqn:Ea;
        [|reflexivity].
      assert (Hca : In c (active_candidates s))
        by (apply filter_In; auto).
      rewrite (tied_equal m c); [reflexivity|].
      rewrite <- Hd. apply T; assumption. }
    unfold active_candidates at 1. cbn [candidates set_candidates]. split.
    + apply filter_none. intros c' Hc'. apply in_map_iff in Hc'.
      destruct Hc' as [c [Hc Hc0]]. subst c'. rewrite (G c Hc0).
      destruct (is_active c) eqn:Ea; [|exact Ea].
      unfold is_active. cbn [set_is_loser is_loser is_winner].
      apply andb_false_r.
    + apply Forall2_map_In. intros c Hc. rewrite (G c Hc).
      destruct (is_active c) eqn:Ea; [|reflexivity].
      unfold is_active in Ea. apply andb_true_iff in Ea.
      destruct Ea as [Ew El]. apply negb_true_iff in Ew.
      unfold status. cbn [set_is_loser is_loser is_winner].
      rewrite Ew. reflexivity.
Qed.

Lemma meek_for_S i (s : SingleTransferableVote num) :
  meek_for (S i) s
  = (s' <- meek_step s ;;
     if fltb (rate_changed (snapshot (candidates s)) (candidates s'))
          CONVERGENCE_THRESHOLD
     then Ok s'
     else meek_for i s').
Proof. reflexivity. Qed.

Lemma dict_get_snapshot (cs : list (Candidate num)) c d :
  NoDup (map name cs) -> In c cs ->
  dict_get (snapshot cs) (name c) d = keep_rate c.
Proof.
  induction cs as [|c0 cs IH]; intros N Hin; [contradiction|].
  inversion N as [|? ? Hc0 Hcs]; subst.
  cbn [snapshot map dict_get].
  destruct (String.eqb_spec (name c0) (name c)) as [E|E].
  - destruct Hin as [Hin|Hin]; [subst; reflexivity|].
    exfalso. apply Hc0. rewrite E. apply in_map, Hin.
  - destruct Hin as [Hin|Hin]; [subst; contradiction|].
    apply IH; assumption.
Qed.

Lemma fold_left_zeros (l : list Q) :
  Forall (fun x => x == 0) l ->
  forall a, fold_left Qplus l a == a.
Proof.
  intros F. induction F as [|x l Hx _ IH]; intros a; cbn [fold_left].
  - reflexivity.
  - rewrite IH, Hx. ring.
Qed.

(** Keep rates that did not move give a change of 0. *)
Lemma rate_unchanged (cs : list (Candidate num)) :
  NoDup (map name cs) ->
  fltb (rate_changed (snapshot cs) cs) CONVERGENCE_THRESHOLD = true.
Proof.
  intros N. apply Qltb_lt.
  change (rate_changed (snapshot cs) cs < 1 # 1000000000).
  unfold rate_changed. change (@fadd ExactArith) with Qplus.
  rewrite fold_left_zeros; [reflexivity|].
  apply Forall_forall. intros x Hx. apply in_map_iff in Hx.
  destruct Hx as [c [Hc Hin]]. subst x.
  rewrite (dict_get_snapshot cs c _ N Hin).
  change (Qabs (keep_rate c - keep_rate c) == 0).
  setoid_replace (keep_rate c - keep_rate c) with 0
    by (unfold Qminus; apply Qplus_opp_r).
  reflexivity.
Qed.

Lemma shrink_keep_rates_none q (cs : list (Candidate num)) :
  Forall (fun c : Candidate num => is_active c && over_quota q c = false)
    cs ->
  shrink_keep_rates q cs = Ok cs.
Proof.
  intros F. induction F as [|c cs Hc _ IH]; [reflexivity|].
  cbn [shrink_keep_rates]. unfold shrink at 1.
  unfold over_quota in Hc. rewrite Hc. cbn [bind]. rewrite IH.
  reflexivity.
Qed.

(** A round without a surplus is one pass: in exact arithmetic, when
    the count made with every Active keep rate back at 1 puts no Active
    candidate over the quota, [_run_meek_iteration] leaves the loop at its
    first convergence test and returns that count, the keep rate of every
    Active candidate at 1 and that of the others as it was. *)
Theorem round_without_surplus_is_one_pass
  (s s1 : SingleTransferableVote num) :
  NoDup (map name (candidates s)) ->
  _recalculate_votes (reset_keep_rates s) = Ok s1 ->
  Forall (fun c : Candidate num =>
            is_active c && over_quota (droop_quota s1) c = false)
    (candidates s1) ->
  _run_meek_iteration s = Ok s1 /\
  Forall2
    (fun c c1 =>
       ident c1 = ident c /\
       keep_rate c1 = if is_active c then of_int 1 else keep_rate c)
    (candidates s) (candidates s1).
Proof.
  intros N H F.
  assert (Hp : forall {X : Type} (p : Candidate num -> X),
             votes_free p ->
             map p (candidates s1) = map p (candidates (reset_keep_rates s)))
    by (intros X p Vp; apply (recalculate_map p _ _ Vp H)).
  assert (N1 : NoDup (map name (candidates s1))).
  { rewrite (Hp _ name) by (intros c v; reflexivity).
    rewrite reset_keep_rates_map by (intros c k; reflexivity). exact N. }
  split.
  - unfold _run_meek_iteration. change MAX_ITERATIONS with (S 999).
    rewrite meek_for_S.
    assert (Hs : meek_step (reset_keep_rates s) = Ok s1).
    { unfold meek_step. rewrite H. cbn [bind].
      rewrite (shrink_keep_rates_none _ _ F). cbn [bind].
      destruct s1; reflexivity. }
    rewrite Hs. cbn [bind].
    assert (Es : snapshot (candidates (reset_keep_rates s))
                 = snapshot (candidates s1)).
    { unfold snapshot. symmetry. apply Hp. intros c v; reflexivity. }
    rewrite Es, (rate_unchanged _ N1). cbn [bind].
    apply (recalculate_votes_idempotent_aux _ _ H).
  - pose proof (Hp _ (fun c => (ident c, keep_rate c))
                  (fun c v => eq_refl)) as E.
    unfold reset_keep_rates in E. cbn [candidates set_candidates] in E.
    rewrite map_map in E. revert E.
    generalize (candidates s1). generalize (candidates s). clear.
    intros cs. induction cs as [|c cs IH]; intros [|c1 cs1] E;
      try discriminate; constructor.
    + cbn [map] in E.
      pose proof (f_equal (@hd_error _) E) as Eh. cbn [hd_error] in Eh.
      assert (Ei : ident c1
                   = ident (if is_active c
                            then set_keep_rate c (of_int 1) else c))
        by congruence.
      assert (Ek : keep_rate c1
                   = keep_rate (if is_active c
                                then set_keep_rate c (of_int 1) else c))
        by congruence.
      destruct (is_active c); split; assumption.
    + apply IH. cbn [map] in E.
      exact (f_equal (@tl _) E).
Qed.

Lemma meek_for_iterations_pos n : forall s s' : SingleTransferableVote num,
  meek_for (S n) s = Ok s' ->
  exists k, (1 <= k <= S n)%nat /\ meek_iterations k s = Ok s'.
Proof.
  intros s s' H. rewrite meek_for_S in H.
  apply bind_Ok in H. destruct H as [s1 [H1 H]].
  destruct (fltb _ _).
  - inversion H; subst. exists 1%nat. split; [lia|].
    cbn [meek_iterations]. rewrite H1. reflexivity.
  - apply meek_for_iterations in H. destruct H as [k [Hk H]].
    exists (S k). split; [lia|].
    cbn [meek_iterations]. rewrite H1. exact H.
Qed.

Lemma recalculate_rates_ok (s s' : SingleTransferableVote num) :
  _recalculate_votes s = Ok s' ->
  rates_ok (candidates s) -> rates_ok (candidates s').
Proof.
  intros H.
  pose proof (recalculate_map
                (fun c : Candidate num => (status c, keep_rate c)) _ _
                (fun c v => eq_refl) H) as E.
  unfold rates_ok. revert E.
  generalize (candidates s). generalize (candidates s'). clear.
  intros cs'. induction cs' as [|c' cs' IH]; intros [|c cs] E R;
    try discriminate; constructor.
  - cbn [map] in E.
    pose proof (f_equal (@hd_error _) E) as Eh. cbn [hd_error] in Eh.
    assert (Es : status c' = status c) by congruence.
    assert (Ek : keep_rate c' = keep_rate c) by congruence.
    rewrite Es, Ek. inversion R; assumption.
  - apply (IH cs); [exact (f_equal (@tl _) E) | inversion R; assumption].
Qed.

Lemma rates_ok_in_unit (cs : list (Candidate num)) :
  rates_ok cs -> rates_in_unit cs.
Proof.
  unfold rates_ok, rates_in_unit. apply Forall_impl.
  intros c H Hs. destruct (H Hs) as [H0 H1].
  split; [apply Qlt_le_weak, H0 | exact H1].
Qed.

(** What a round's convergence loop ends in, in exact arithmetic
    and under a positive quota: [_run_meek_iteration] returns after at
    least one and at most [MAX_ITERATIONS] passes of the loop and one last
    count; the keep rate of every Active candidate is then in (0, 1],
    every candidate holds between 0 votes and the number of ballots, a
    candidate that is not Active holds none, and all the votes together are
    no more than the ballots. *)
Theorem meek_iteration_ends_within_bounds (s : SingleTransferableVote num) :
  well_formed s ->
  (0 < droop_quota s)%Z ->
  exists s' s1 k,
    _run_meek_iteration s = Ok s' /\
    (1 <= k <= MAX_ITERATIONS)%nat /\
    meek_iterations k (reset_keep_rates s) = Ok s1 /\
    _recalculate_votes s1 = Ok s' /\
    rates_ok (candidates s') /\
    Forall (fun c =>
              0 <= votes c /\
              votes c <= inject_Z (Z.of_nat (length (ballots s))) /\
              (status c <> Active -> votes c == 0))
      (candidates s') /\
    total (map votes (candidates s'))
    <= inject_Z (Z.of_nat (length (ballots s))).
Proof.
  intros W Hq.
  destruct (run_meek_iteration_total s W) as [s' H]; [lia|].
  pose proof H as H0. unfold _run_meek_iteration in H0.
  apply bind_Ok in H0. destruct H0 as [s1 [H1 H2]].
  pose proof (meek_for_static _ _ _ H1) as St1.
  change MAX_ITERATIONS with (S 999) in H1.
  apply meek_for_iterations_pos in H1. destruct H1 as [k [Hk H1]].
  assert (Wr : well_formed (reset_keep_rates s))
    by (eapply static_well_formed; [apply reset_static | exact W]).
  assert (W1 : well_formed s1)
    by (eapply static_well_formed; [exact St1 | exact Wr]).
  assert (R1 : rates_ok (candidates s1)).
  { eapply meek_iterations_rates_ok; [|apply reset_rates_ok|exact H1].
    exact Hq. }
  assert (Eb : ballots s1 = ballots s).
  { destruct St1 as (Eb & _). rewrite Eb. reflexivity. }
  destruct (recalculate_counted s1 W1 (rates_ok_in_unit _ R1))
    as (s2 & rs & H3 & _ & F & Rs & C).
  rewrite H2 in H3. inversion H3; subst s2. clear H3.
  rewrite Eb in C.
  assert (V0 : Forall (fun x => 0 <= x) (map votes (candidates s'))).
  { apply Forall_forall. intros x Hx. apply in_map_iff in Hx.
    destruct Hx as [c [Hc Hin]]. subst x.
    rewrite Forall_forall in F. apply (F c Hin). }
  assert (R0 : 0 <= total rs).
  { apply total_nonneg. eapply Forall_impl; [|exact Rs].
    intros r [Hr _]. exact Hr. }
  exists s', s1, k.
  split; [exact H|]. split; [exact Hk|]. split; [exact H1|].
  split; [exact H2|].
  split; [exact (recalculate_rates_ok _ _ H2 R1)|].
  split; [|qlra].
  apply Forall_forall. intros c Hin.
  rewrite Forall_forall in F. destruct (F c Hin) as (_ & Hv & Hz).
  split; [exact Hv|]. split; [|exact Hz].
  pose proof (total_bounds_member _ (votes c) V0 (in_map votes _ _ Hin)).
  qlra.
Qed.

End ExactCounting.

(** ** Instances *)

Section ProgramInstances.

Import Scenario ProgramScenario.

Open Scope string_scope.

Lemma surrounding_space_at_padded :
  Forall2 (fun line line' =>
             exists pre post,
               Forall (fun c => isspace c = true) pre /\
               Forall (fun c => isspace c = true) post /\
               line' = (pre ++ line ++ post)%list)
    bare padded /\
  load_file isspace (@init FloatArith names 1) (Some padded)
  = load_file isspace (@init FloatArith names 1) (Some bare) /\
  forall blank,
    Forall (fun c => isspace c = true) blank ->
    load_file isspace (@init FloatArith names 1) (Some (blank :: bare))
    = load_file isspace (@init FloatArith names 1) (Some bare).
Proof.
  assert (H : Forall2 (fun line line' =>
             exists pre post,
               Forall (fun c => isspace c = true) pre /\
               Forall (fun c => isspace c = true) post /\
               line' = (pre ++ line ++ post)%list)
    bare padded).
  { constructor; [|constructor; [|constructor]].
    - exists [" "], [LF]. repeat split; repeat constructor.
    - exists [], [" "; LF]. repeat split; repeat constructor. }
  split; [exact H|].
  apply (@load_file_ignores_surrounding_space FloatArith isspace
           (@init FloatArith names 1) bare padded H).
Defined.

Lemma recount_at_scenario :
  _recalculate_votes with_quota = Ok counted_once /\
  _recalculate_votes counted_once = Ok counted_once /\
  forall t, config t = config with_quota ->
            zero_votes (candidates t) = zero_votes (candidates with_quota) ->
            _recalculate_votes t = Ok counted_once.
Proof.
  assert (H : _recalculate_votes with_quota = Ok counted_once)
    by (vm_compute; reflexivity).
  split; [exact H|].
  apply (@recalculate_votes_idempotent FloatArith with_quota counted_once H).
Defined.

Lemma meek_iteration_at_scenario :
  _run_meek_iteration with_quota = Ok counted_once /\
  _recalculate_votes counted_once = Ok counted_once /\
  static with_quota counted_once /\
  Forall2 (fun c c' =>
             name c' = name c /\ status c' = status c /\
             (status c <> Active -> keep_rate c' = keep_rate c))
    (candidates with_quota) (candidates counted_once).
Proof.
  assert (H : _run_meek_iteration with_quota = Ok counted_once)
    by (vm_compute; reflexivity).
  split; [exact H|].
  apply (@meek_iteration_leaves_a_recounted_state FloatArith
           with_quota counted_once H).
Defined.


Lemma negative_seats_at_four_for_A :
  (-2 < 0)%Z /\
  ballots (load_file isspace (@init FloatArith ["A"; "B"] (-2)) four_for_A)
  <> [] /\
  forall fuel s',
    @main FloatArith isspace fuel ["A"; "B"] (-2) four_for_A
    <> Some (Ok s').
Proof.
  assert (H : ballots (load_file isspace (@init FloatArith ["A"; "B"] (-2))
                         four_for_A) <> [])
    by (vm_compute; discriminate).
  split; [reflexivity|]. split; [exact H|].
  apply (@main_negative_seats_never_ends FloatArith isspace ["A"; "B"]
           (-2)%Z four_for_A); [reflexivity | exact H].
Defined.

Lemma two_seats_are_filled :
  run_election 2 (@init FloatArith two_seats_names 2) two_seats_file
  = Some (Ok two_seats_final) /\
  ballots two_seats_final <> [] /\
  length (winners two_seats_final) = 2%nat /\
  Forall (fun c => status c <> Active /\ exclusive c /\
                   final_status c = status c)
    (candidates two_seats_final) /\
  (Z.of_nat (length (winners two_seats_final)) <= 2)%Z.
Proof.
  assert (H : run_election 2 (@init FloatArith two_seats_names 2)
                two_seats_file
              = Some (Ok two_seats_final))
    by (vm_compute; reflexivity).
  assert (Hb : ballots two_seats_final <> []) by discriminate.
  split; [exact H|]. split; [exact Hb|]. split; [reflexivity|].
  apply (@completed_run_decides_everyone FloatArith 2 two_seats_names 2
           two_seats_file two_seats_final H Hb).
Defined.

End ProgramInstances.

Section ExactProgramInstances.

Import ExactScenario ExactProgramScenario.

#[local] Existing Instance ExactArith.

Open Scope Q_scope.

Lemma partial_rates_in_unit : rates_in_unit (candidates partial).
Proof.
  unfold rates_in_unit.
  repeat (constructor; [intros _; split; discriminate|]). constructor.
Qed.

Lemma bounds_at_partial :
  well_formed partial /\
  rates_in_unit (candidates partial) /\
  exists s' rs,
    _recalculate_votes partial = Ok s' /\
    walk_votes (ballots partial) (zero_votes (candidates partial))
    = Ok (candidates s', rs) /\
    Forall (fun c =>
              0 <= votes c /\
              votes c <= inject_Z (Z.of_nat (length (ballots partial))) /\
              (status c <> Active -> votes c == 0))
      (candidates s') /\
    Forall (fun r => 0 <= r /\ r <= 1) rs.
Proof.
  split; [exact partial_well_formed|].
  split; [exact partial_rates_in_unit|].
  apply (recalculated_votes_are_bounded partial partial_well_formed
           partial_rates_in_unit).
Defined.

Lemma surplus_well_formed : well_formed surplus.
Proof.
  split.
  - simpl. repeat constructor; simpl; intuition discriminate.
  - repeat constructor.
Qed.

Lemma surplus_rates_in_unit : rates_in_unit (candidates surplus).
Proof.
  unfold rates_in_unit.
  repeat (constructor; [intros _; split; discriminate|]). constructor.
Qed.

Lemma one_over_quota_at_surplus :
  well_formed surplus /\
  rates_in_unit (candidates surplus) /\
  (0 <= num_winners surplus)%Z /\
  droop_quota surplus
  = (Z.of_nat (length (ballots surplus)) / (num_winners surplus + 1) + 1)%Z /\
  _recalculate_votes surplus = Ok surplus_counted /\
  length (filter (over_quota (droop_quota surplus_counted))
            (candidates surplus_counted)) = 1%nat /\
  (Z.of_nat (length (filter (over_quota (droop_quota surplus_counted))
                       (candidates surplus_counted)))
   <= num_winners surplus_counted)%Z.
Proof.
  assert (Hw : (0 <= num_winners surplus)%Z) by discriminate.
  assert (Hq : droop_quota surplus
               = (Z.of_nat (length (ballots surplus))
                  / (num_winners surplus + 1) + 1)%Z) by reflexivity.
  assert (H : _recalculate_votes surplus = Ok surplus_counted)
    by (vm_compute; reflexivity).
  split; [exact surplus_well_formed|].
  split; [exact surplus_rates_in_unit|].
  split; [exact Hw|]. split; [exact Hq|]. split; [exact H|].
  split; [reflexivity|].
  apply (at_most_the_seats_over_quota surplus surplus_counted
           surplus_well_formed surplus_rates_in_unit Hw Hq H).
Defined.

Lemma full_tie_at_tie :
  (forall c d,
     In c (active_candidates tie) -> In d (active_candidates tie) ->
     votes c == votes d) /\
  length (active_candidates tie) = 2%nat /\
  active_candidates (_eliminate_loser tie) = [] /\
  Forall2
    (fun c c' =>
       status c' = (if is_active c then Eliminated else status c))
    (candidates tie) (candidates (_eliminate_loser tie)).
Proof.
  assert (H : forall c d,
             In c (active_candidates tie) -> In d (active_candidates tie) ->
             votes c == votes d).
  { intros c d [Hc|[Hc|[]]] [Hd|[Hd|[]]]; subst; reflexivity. }
  split; [exact H|]. split; [reflexivity|].
  apply (full_tie_eliminates_everyone tie H).
Defined.

Lemma one_pass_at_partial :
  NoDup (map name (candidates partial)) /\
  _recalculate_votes (reset_keep_rates partial) = Ok partial_reset /\
  Forall (fun c : Candidate num =>
            is_active c && over_quota (droop_quota partial_reset) c = false)
    (candidates partial_reset) /\
  _run_meek_iteration partial = Ok partial_reset /\
  Forall2
    (fun c c1 =>
       ident c1 = ident c /\
       keep_rate c1 = if is_active c then of_int 1 else keep_rate c)
    (candidates partial) (candidates partial_reset).
Proof.
  assert (N : NoDup (map name (candidates partial)))
    by exact (proj1 partial_well_formed).
  assert (H : _recalculate_votes (reset_keep_rates partial)
              = Ok partial_reset)
    by (vm_compute; reflexivity).
  assert (F : Forall (fun c : Candidate num =>
                        is_active c
                        && over_quota (droop_quota partial_reset) c = false)
                (candidates partial_reset))
    by (repeat constructor).
  split; [exact N|]. split; [exact H|]. split; [exact F|].
  apply (round_without_surplus_is_one_pass partial partial_reset N H F).
Defined.

Lemma meek_iteration_bounds_at_surplus :
  well_formed surplus /\
  (0 < droop_quota surplus)%Z /\
  exists s' s1 k,
    _run_meek_iteration surplus = Ok s' /\
    (1 <= k <= MAX_ITERATIONS)%nat /\
    meek_iterations k (reset_keep_rates surplus) = Ok s1 /\
    _recalculate_votes s1 = Ok s' /\
    rates_ok (candidates s') /\
    Forall (fun c =>
              0 <= votes c /\
              votes c <= inject_Z (Z.of_nat (length (ballots surplus))) /\
              (status c <> Active -> votes c == 0))
      (candidates s') /\
    total (map votes (candidates s'))
    <= inject_Z (Z.of_nat (length (ballots surplus))).
Proof.
  assert (Hq : (0 < droop_quota surplus)%Z) by reflexivity.
  split; [exact surplus_well_formed|]. split; [exact Hq|].
  apply (meek_iteration_ends_within_bounds surplus surplus_well_formed Hq).
Defined.

End ExactProgramInstances.

(** * Binary64 arithmetic *)

Section Binary64Facts.

Local Open Scope Z_scope.


Lemma digits2_pos_bounds p :
  2 ^ (Zpos (digits2_pos p) - 1) <= Zpos p < 2 ^ Zpos (digits2_pos p).
Proof.
  induction p as [p IH|p IH|]; cbn [digits2_pos].
  - rewrite Pos2Z.inj_succ.
    replace (Z.succ (Zpos (digits2_pos p)) - 1) with
      (Z.succ (Zpos (digits2_pos p) - 1)) by lia.
    rewrite !Z.pow_succ_r by lia. lia.
  - rewrite Pos2Z.inj_succ.
    replace (Z.succ (Zpos (digits2_pos p)) - 1) with
      (Z.succ (Zpos (digits2_pos p) - 1)) by lia.
    rewrite !Z.pow_succ_r by lia. lia.
  - simpl. lia.
Qed.

Lemma iter_pos_nat {X : Type} (f : X -> X) p : forall x,
  iter_pos f p x = Nat.iter (Pos.to_nat p) f x.
Proof.
  induction p as [p IH|p IH|]; intros x; cbn [iter_pos].
  - rewrite !IH, Pos2Nat.inj_xI.
    replace (S (2 * Pos.to_nat p)) with (Pos.to_nat p + Pos.to_nat p + 1)%nat
      by lia.
    rewrite !Nat.iter_add. reflexivity.
  - rewrite !IH, Pos2Nat.inj_xO.
    replace (2 * Pos.to_nat p)%nat with (Pos.to_nat p + Pos.to_nat p)%nat
      by lia.
    rewrite Nat.iter_add. reflexivity.
  - reflexivity.
Qed.

Lemma shr_1_spec m r s :
  0 <= m ->
  shr_1 (Build_shr_record m r s)
  = Build_shr_record (m / 2) (Z.odd m) (r || s).
Proof.
  intros Hm. destruct m as [|p|p]; [reflexivity| |lia].
  destruct p as [p|p|]; cbn [shr_1].
  - f_equal. rewrite Pos2Z.inj_xI.
    apply Z.div_unique with (r := 1); lia.
  - f_equal. rewrite Pos2Z.inj_xO.
    apply Z.div_unique with (r := 0); lia.
  - reflexivity.
Qed.

(** [k] steps of [shr_1]: the quotient by 2^k, exact only if nothing was
    lost. *)
Lemma shr_iter k : forall m r s,
  0 <= m ->
  exists r' s',
    Nat.iter k shr_1 (Build_shr_record m r s)
    = Build_shr_record (m / 2 ^ Z.of_nat k) r' s' /\
    (r' || s' = false <->
     r || s = false /\ m = (m / 2 ^ Z.of_nat k) * 2 ^ Z.of_nat k).
Proof.
  induction k as [|k IH]; intros m r s Hm.
  - exists r, s. change (Nat.iter 0 shr_1 ?x) with x.
    change (2 ^ Z.of_nat 0) with 1.
    rewrite Z.div_1_r. split; [reflexivity|].
    split; [intros H; split; [exact H|lia] | intros [H _]; exact H].
  - destruct (IH m r s Hm) as (r1 & s1 & E & X).
    rewrite Nat.iter_succ, E.
    assert (Hq : 0 <= m / 2 ^ Z.of_nat k)
      by (apply Z.div_pos; [lia | apply Z.pow_pos_nonneg; lia]).
    rewrite (shr_1_spec _ _ _ Hq).
    exists (Z.odd (m / 2 ^ Z.of_nat k)), (r1 || s1).
    assert (P : 2 ^ Z.of_nat (S k) = 2 ^ Z.of_nat k * 2)
      by (rewrite Nat2Z.inj_succ, Z.pow_succ_r; lia).
    assert (Pk : 0 < 2 ^ Z.of_nat k) by (apply Z.pow_pos_nonneg; lia).
    split; [rewrite P, Z.div_div by lia; reflexivity|].
    rewrite P, <- Z.div_div by lia.
    set (q := m / 2 ^ Z.of_nat k) in *.
    pose proof (Zdiv.Zmod_odd q) as O.
    pose proof (Z.div_mod q 2) as Dq.
    pose proof (Z.div_mod m (2 ^ Z.of_nat k)) as Dm. fold q in Dm.
    pose proof (Z.mod_pos_bound m (2 ^ Z.of_nat k) Pk) as Bm.
    pose proof (Z.mod_pos_bound q 2) as Bq.
    split.
    + intros H. apply orb_false_iff in H. destruct H as [Ho H1].
      destruct (proj1 X H1) as [X1 X2]. split; [exact X1|].
      rewrite Ho in O. lia.
    + intros [H1 H2]. apply orb_false_iff.
      assert (Hm0 : m mod 2 ^ Z.of_nat k = 0) by nia.
      assert (Hq0 : q mod 2 = 0) by nia.
      split.
      * rewrite Hq0 in O. destruct (Z.odd q); [discriminate|reflexivity].
      * apply X. split; [exact H1 | lia].
Qed.

Lemma fexp64 x : fexp prec emax x = Z.max (x - 53) emin64.
Proof. reflexivity. Qed.

Lemma Zdigits2_bounds m :
  0 < m -> 2 ^ (Zdigits2 m - 1) <= m < 2 ^ Zdigits2 m /\ 0 < Zdigits2 m.
Proof.
  intros Hm. destruct m as [|p|p]; try lia.
  cbn [Zdigits2]. split; [apply digits2_pos_bounds | lia].
Qed.

Lemma pow2_lt_inv a b : 0 <= b -> 2 ^ a < 2 ^ b -> a < b.
Proof.
  intros Hb H. destruct (Z_lt_le_dec a b) as [L|L]; [exact L|].
  assert (2 ^ b <= 2 ^ a) by (apply Z.pow_le_mono_r; lia). lia.
Qed.

Lemma shr_record_of_loc_spec m l :
  exists r s,
    shr_record_of_loc m l = Build_shr_record m r s /\
    (r || s = false <-> l = loc_Exact).
Proof.
  destruct l as [|[| |]]; cbn [shr_record_of_loc];
    eexists; eexists; (split; [reflexivity|]); cbn; split; congruence.
Qed.

(** The first shift of [binary_round_aux]: the mantissa comes to working
    position. *)
Lemma shr_fexp_spec m e l :
  0 <= m ->
  2 ^ 52 <= m \/ e <= emin64 ->
  exists m1 e1 r s,
    shr_fexp prec emax m e l = (Build_shr_record m1 r s, e1) /\
    e1 = Z.max (Zdigits2 m + e - 53) emin64 /\
    e <= e1 /\
    m1 * 2 ^ (e1 - e) <= m < (m1 + 1) * 2 ^ (e1 - e) /\
    (r || s = false <-> l = loc_Exact /\ m = m1 * 2 ^ (e1 - e)) /\
    aligned m1 e1.
Proof.
  intros Hm P. unfold shr_fexp. rewrite fexp64.
  set (e1 := Z.max (Zdigits2 m + e - 53) emin64).
  assert (D : m = 0 /\ Zdigits2 m = 0 \/
              0 < m /\ 2 ^ (Zdigits2 m - 1) <= m < 2 ^ Zdigits2 m
              /\ 0 < Zdigits2 m).
  { destruct (Z.eq_dec m 0) as [->|N]; [left; auto|right].
    split; [lia|]. apply Zdigits2_bounds. lia. }
  assert (Hn : 0 <= e1 - e).
  { destruct D as [[-> D0]|(Hp & B & Hd)].
    - destruct P as [P|P]; [lia|]. unfold e1. lia.
    - destruct P as [P|P]; [|unfold e1; lia].
      assert (52 < Zdigits2 m) by (apply pow2_lt_inv; lia).
      unfold e1. lia. }
  destruct (shr_record_of_loc_spec m l) as (r0 & s0 & E0 & X0).
  assert (Pn : 0 < 2 ^ (e1 - e)) by (apply Z.pow_pos_nonneg; lia).
  assert (A : aligned (m / 2 ^ (e1 - e)) e1).
  { unfold aligned.
    assert (Q0 : 0 <= m / 2 ^ (e1 - e)) by (apply Z.div_pos; lia).
    split; [split; [exact Q0|]|split; [unfold e1; lia|]].
    - destruct D as [[-> D0]|(Hp & B & Hd)].
      + rewrite Z.div_0_l by lia. lia.
      + apply Z.div_lt_upper_bound; [lia|].
        destruct (Z_le_gt_dec (Zdigits2 m) 53) as [L|L].
        * assert (2 ^ Zdigits2 m <= 2 ^ 53)
            by (apply Z.pow_le_mono_r; lia).
          nia.
        * assert (Zdigits2 m - 53 <= e1 - e) by (unfold e1; lia).
          assert (2 ^ (Zdigits2 m - 53) <= 2 ^ (e1 - e))
            by (apply Z.pow_le_mono_r; lia).
          assert (2 ^ Zdigits2 m = 2 ^ (Zdigits2 m - 53) * 2 ^ 53).
          { rewrite <- Z.pow_add_r by lia. f_equal. lia. }
          assert (0 < 2 ^ (Zdigits2 m - 53))
            by (apply Z.pow_pos_nonneg; lia).
          nia.
    - destruct (Z.eq_dec e1 emin64) as [Ee|Ne]; [right; exact Ee|left].
      destruct D as [[-> D0]|(Hp & B & Hd)].
      + exfalso. destruct P as [P|P]; [lia|]. unfold e1 in Ne. lia.
      + assert (En : e1 - e = Zdigits2 m - 53) by (unfold e1 in *; lia).
        rewrite En in *.
        apply Z.div_le_lower_bound; [lia|].
        assert (2 ^ (Zdigits2 m - 1) = 2 ^ (Zdigits2 m - 53) * 2 ^ 52).
        { rewrite <- Z.pow_add_r by lia. f_equal. lia. }
        lia. }
  assert (Dv : (m / 2 ^ (e1 - e)) * 2 ^ (e1 - e) <= m
               < (m / 2 ^ (e1 - e) + 1) * 2 ^ (e1 - e)).
  { pose proof (Z.div_mod m (2 ^ (e1 - e))).
    pose proof (Z.mod_pos_bound m (2 ^ (e1 - e)) Pn). lia. }
  exists (m / 2 ^ (e1 - e)), e1.
  unfold shr. rewrite E0.
  destruct (e1 - e) as [|p|p] eqn:En; [| |lia].
  - exists r0, s0.
    assert (Ee : e1 = e) by lia.
    change (2 ^ 0) with 1 in *. rewrite Z.div_1_r in *.
    split; [rewrite Ee; reflexivity|]. split; [reflexivity|].
    split; [lia|]. split; [lia|].
    split; [|exact A].
    rewrite X0. split; [intros Hx; split; [exact Hx | lia] | tauto].
  - rewrite iter_pos_nat.
    destruct (shr_iter (Pos.to_nat p) m r0 s0 Hm) as (r' & s' & E & X).
    rewrite positive_nat_Z in E, X. rewrite E.
    exists r', s'.
    replace (e + Z.pos p) with e1 by lia.
    split; [reflexivity|]. split; [reflexivity|].
    split; [lia|]. split; [exact Dv|].
    split; [|exact A].
    rewrite X, X0. tauto.
Qed.

Lemma round_nearest_even_spec m r s :
  round_nearest_even m (loc_of_shr_record (Build_shr_record m r s)) = m \/
  r || s = true /\
  round_nearest_even m (loc_of_shr_record (Build_shr_record m r s)) = m + 1.
Proof.
  destruct r, s; cbn [loc_of_shr_record round_nearest_even orb]; auto.
  destruct (Z.even m); auto.
Qed.

(** The second shift of [binary_round_aux] loses nothing: it only brings
    2^53 back to 2^52. *)
Lemma second_shift m2 e1 :
  0 <= m2 <= 2 ^ 53 ->
  emin64 <= e1 ->
  2 ^ 52 <= m2 \/ e1 = emin64 ->
  exists mr er r s,
    shr_fexp prec emax m2 e1 loc_Exact = (Build_shr_record mr r s, er) /\
    e1 <= er /\
    m2 = mr * 2 ^ (er - e1) /\
    aligned mr er.
Proof.
  intros B He P.
  destruct (Z.eq_dec m2 (2 ^ 53)) as [->|N].
  - exists (2 ^ 52), (e1 + 1), false, false.
    unfold shr_fexp. rewrite fexp64.
    change (Zdigits2 (2 ^ 53)) with 54.
    replace (Z.max (54 + e1 - 53) emin64 - e1) with 1 by lia.
    split; [reflexivity|]. split; [lia|].
    split; [replace (e1 + 1 - e1) with 1 by lia; reflexivity|].
    unfold aligned. lia.
  - destruct (shr_fexp_spec m2 e1 loc_Exact) as
      (m1 & e' & r & s & E & Ee & Le & Dv & _ & A); [lia|lia|].
    assert (e' = e1).
    { rewrite Ee. destruct (Z.eq_dec m2 0) as [->|Nz].
      - cbn [Zdigits2]. lia.
      - destruct (Zdigits2_bounds m2) as [[B1 B2] B3]; [lia|].
        assert (Zdigits2 m2 - 1 < 53) by (apply pow2_lt_inv; lia).
        destruct P as [P|P]; [|lia].
        assert (52 < Zdigits2 m2) by (apply pow2_lt_inv; lia).
        lia. }
    clear Ee. subst e'. rewrite Z.sub_diag in Dv. change (2 ^ 0) with 1 in Dv.
    exists m1, e1, r, s.
    split; [exact E|]. split; [lia|].
    split; [rewrite Z.sub_diag; change (2 ^ 0) with 1; lia | exact A].
Qed.

(** What [binary_round_aux] computes on a mantissa with enough digits. *)
Lemma binary_round_aux_spec sx m e l :
  0 <= m ->
  2 ^ 52 <= m \/ e <= emin64 ->
  exists m1 e1 (exact : bool) m2 mr er,
    e <= e1 /\
    m1 * 2 ^ (e1 - e) <= m < (m1 + 1) * 2 ^ (e1 - e) /\
    (exact = true <-> l = loc_Exact /\ m = m1 * 2 ^ (e1 - e)) /\
    aligned m1 e1 /\
    (m2 = m1 \/ exact = false /\ m2 = m1 + 1) /\
    e1 <= er /\
    m2 = mr * 2 ^ (er - e1) /\
    aligned mr er /\
    binary_round_aux prec emax sx m e l
    = match mr with
      | Z0 => S754_zero sx
      | Zpos p => if er <=? 971 then S754_finite sx p er
                  else S754_infinity sx
      | Zneg _ => S754_nan
      end.
Proof.
  intros Hm P.
  destruct (shr_fexp_spec m e l Hm P) as
    (m1 & e1 & r & s & E & _ & Le & Dv & X & A).
  pose proof (round_nearest_even_spec m1 r s) as R.
  set (m2 := round_nearest_even m1
               (loc_of_shr_record (Build_shr_record m1 r s))) in *.
  destruct A as (A1 & A2 & A3).
  destruct (second_shift m2 e1) as (mr & er & r2 & s2 & E2 & Le2 & V2 & A');
    [destruct R as [->|[_ ->]]; lia | exact A2
     | destruct R as [->|[_ ->]]; [exact A3 | destruct A3; [left; lia|auto]]
     |].
  exists m1, e1, (negb (r || s)), m2, mr, er.
  split; [exact Le|]. split; [exact Dv|].
  split; [rewrite <- X; destruct (r || s); cbn; split; congruence|].
  split; [unfold aligned; auto|].
  split.
  { destruct R as [R|[R1 R2]]; [left; exact R|right].
    split; [rewrite R1; reflexivity | exact R2]. }
  split; [exact Le2|]. split; [exact V2|]. split; [exact A'|].
  unfold binary_round_aux. rewrite E. cbn [shr_m]. fold m2. rewrite E2.
  cbn [shr_m]. reflexivity.
Qed.

(** ** Values *)

Lemma pow2_pos e : (0 < pow2 e)%Q.
Proof. apply Qpower_0_lt. reflexivity. Qed.

Lemma pow2_add a b : (pow2 (a + b) == pow2 a * pow2 b)%Q.
Proof. apply Qpower_plus. discriminate. Qed.

Lemma pow2_Z n : 0 <= n -> (pow2 n == inject_Z (2 ^ n))%Q.
Proof. intros H. symmetry. apply (Zpower_Qpower 2 n H). Qed.

Lemma F2Q_shift m e n : 0 <= n -> (F2Q (m * 2 ^ n) e == F2Q m (e + n))%Q.
Proof.
  intros H. unfold F2Q.
  rewrite inject_Z_mult, pow2_add, (pow2_Z n H). ring.
Qed.

Lemma F2Q_shift' m e e' : e' <= e -> (F2Q m e == F2Q (m * 2 ^ (e - e')) e')%Q.
Proof.
  intros H. rewrite F2Q_shift by lia.
  replace (e' + (e - e')) with e by lia. reflexivity.
Qed.

Lemma F2Q_le m1 m2 e : m1 <= m2 <-> (F2Q m1 e <= F2Q m2 e)%Q.
Proof.
  unfold F2Q. rewrite (Qmult_le_r _ _ _ (pow2_pos e)), <- Zle_Qle.
  reflexivity.
Qed.

Lemma F2Q_lt m1 m2 e : m1 < m2 <-> (F2Q m1 e < F2Q m2 e)%Q.
Proof.
  unfold F2Q. rewrite (Qmult_lt_r _ _ _ (pow2_pos e)), <- Zlt_Qlt.
  reflexivity.
Qed.

Lemma F2Q_0 e : (F2Q 0 e == 0)%Q.
Proof. unfold F2Q. ring. Qed.

Lemma pow2_ge_2 n : 0 < n -> 2 <= 2 ^ n.
Proof.
  intros H. replace n with (Z.succ (n - 1)) by lia.
  rewrite Z.pow_succ_r by lia.
  assert (0 < 2 ^ (n - 1)) by (apply Z.pow_pos_nonneg; lia). lia.
Qed.

(** Between two neighbours in working position there is no other. *)
Lemma spacing_up m1 e1 mb eb :
  aligned m1 e1 -> aligned mb eb ->
  (F2Q m1 e1 < F2Q mb eb)%Q -> (F2Q (m1 + 1) e1 <= F2Q mb eb)%Q.
Proof.
  intros (A1 & A2 & A3) (B1 & B2 & B3) H.
  destruct (Z_le_gt_dec e1 eb) as [L|L].
  - rewrite (F2Q_shift' mb eb e1 L) in *.
    apply F2Q_le. apply F2Q_lt in H. lia.
  - exfalso. assert (L' : eb <= e1) by lia.
    rewrite (F2Q_shift' m1 e1 eb L') in H. apply F2Q_lt in H.
    pose proof (pow2_ge_2 (e1 - eb)). nia.
Qed.

Lemma spacing_down m1 e1 mb eb :
  aligned m1 e1 -> aligned mb eb ->
  (F2Q mb eb < F2Q (m1 + 1) e1)%Q -> (F2Q mb eb <= F2Q m1 e1)%Q.
Proof.
  intros (A1 & A2 & A3) (B1 & B2 & B3) H.
  destruct (Z_le_gt_dec e1 eb) as [L|L].
  - rewrite (F2Q_shift' mb eb e1 L) in *.
    apply F2Q_le. apply F2Q_lt in H. lia.
  - assert (L' : eb <= e1) by lia.
    rewrite (F2Q_shift' m1 e1 eb L'). apply F2Q_le.
    pose proof (pow2_ge_2 (e1 - eb)). nia.
Qed.

(** An exponent above the largest one cannot be reached below a finite
    number. *)
Lemma aligned_exponent mr er mb eb :
  aligned mr er -> aligned mb eb -> 0 < mr ->
  (F2Q mr er <= F2Q mb eb)%Q -> er <= eb.
Proof.
  intros (A1 & A2 & A3) (B1 & B2 & B3) Hp H.
  destruct (Z_le_gt_dec er eb) as [L|L]; [exact L|exfalso].
  assert (L' : eb <= er) by lia.
  rewrite (F2Q_shift' mr er eb L') in H. apply F2Q_le in H.
  pose proof (pow2_ge_2 (er - eb)). nia.
Qed.

Lemma valid_aligned s m e :
  valid_binary (S754_finite s m e) = true ->
  aligned (Zpos m) e /\ e <= 971.
Proof.
  unfold valid_binary. cbn [SpecFloat.valid_binary].
  unfold bounded, canonical_mantissa.
  rewrite fexp64. intros H. apply andb_true_iff in H.
  destruct H as [H1 H2]. apply Z.eqb_eq in H1. apply Z.leb_le in H2.
  change (emax - prec) with 971 in H2. split; [|exact H2].
  pose proof (digits2_pos_bounds m) as [D1 D2].
  set (d := Zpos (digits2_pos m)) in *.
  assert (0 < d) by (unfold d; lia).
  unfold aligned.
  destruct (Z.max_spec (d + e - 53) emin64) as [[M1 M2]|[M1 M2]].
  - assert (d <= 53) by lia.
    assert (2 ^ d <= 2 ^ 53) by (apply Z.pow_le_mono_r; lia).
    split; [lia|]. split; [lia|]. right. lia.
  - assert (d = 53) by lia.
    replace d with 53 in *. change (53 - 1) with 52 in D1.
    split; [lia|]. split; [lia|]. left. lia.
Qed.

Lemma SFfin_aligned b :
  valid_binary b = true -> SFfin b ->
  exists mb eb, aligned mb eb /\ eb <= 971 /\ (SF2Q b == F2Q mb eb)%Q.
Proof.
  intros V F. destruct b as [s|s| |s m e]; try contradiction.
  - exists 0, emin64. split; [unfold aligned, emin64; lia|].
    split; [unfold emin64; lia|]. cbn. rewrite F2Q_0. reflexivity.
  - destruct s; [contradiction|].
    destruct (valid_aligned _ _ _ V) as [A E].
    exists (Zpos m), e. split; [exact A|]. split; [exact E|]. reflexivity.
Qed.

(** ** Rounding does not cross a representable number *)

Lemma location_dec (l : location) : {l = loc_Exact} + {l <> loc_Exact}.
Proof. destruct l; [left; reflexivity | right; discriminate]. Qed.

(** The facts about the first shift and the rounded mantissa that both
    bounds use. *)
Lemma round_aux_frame sx m e l x :
  0 <= m ->
  2 ^ 52 <= m \/ e <= emin64 ->
  inbetween m e l x ->
  exists m1 e1 m2 mr er,
    aligned m1 e1 /\
    (F2Q m1 e1 <= x)%Q /\ (x < F2Q (m1 + 1) e1)%Q /\
    (m2 = m1 \/ (F2Q m1 e1 < x)%Q /\ m2 = m1 + 1) /\
    aligned mr er /\
    (F2Q mr er == F2Q m2 e1)%Q /\
    binary_round_aux prec emax sx m e l
    = match mr with
      | Z0 => S754_zero sx
      | Zpos p => if er <=? 971 then S754_finite sx p er
                  else S754_infinity sx
      | Zneg _ => S754_nan
      end.
Proof.
  intros Hm P (I1 & I2 & I3 & I4).
  destruct (binary_round_aux_spec sx m e l Hm P) as
    (m1 & e1 & ex & m2 & mr & er & Le & Dv & X & A & R & Le2 & V2 & A' & E).
  exists m1, e1, m2, mr, er.
  assert (S1 : (F2Q m1 e1 == F2Q (m1 * 2 ^ (e1 - e)) e)%Q)
    by (apply F2Q_shift'; exact Le).
  assert (S2 : (F2Q (m1 + 1) e1 == F2Q ((m1 + 1) * 2 ^ (e1 - e)) e)%Q)
    by (apply F2Q_shift'; exact Le).
  assert (L1 : (F2Q m1 e1 <= F2Q m e)%Q)
    by (rewrite S1; apply F2Q_le; lia).
  assert (L2 : (F2Q (m + 1) e <= F2Q (m1 + 1) e1)%Q)
    by (rewrite S2; apply F2Q_le; lia).
  split; [exact A|].
  split; [eapply Qle_trans; eauto|].
  split; [eapply Qlt_le_trans; eauto|].
  split.
  { destruct R as [R|[Rx R]]; [left; exact R|right].
    split; [|exact R].
    destruct (location_dec l) as [El|Nl].
    - assert (Nm : m <> m1 * 2 ^ (e1 - e)).
      { intros Em. assert (ex = true) by (apply X; auto). congruence. }
      assert (Lt : (F2Q m1 e1 < F2Q m e)%Q)
        by (rewrite S1; apply F2Q_lt; lia).
      eapply Qlt_le_trans; eauto.
    - eapply Qle_lt_trans; [exact L1 | exact (I4 Nl)]. }
  split; [exact A'|].
  split; [|exact E].
  rewrite V2. apply F2Q_shift'. exact Le2.
Qed.

(** Upwards: a finite number that is not below [x] is not below the
    rounding of [x], which is finite. *)
Theorem round_aux_le m e l x mb eb :
  0 <= m ->
  2 ^ 52 <= m \/ e <= emin64 ->
  inbetween m e l x ->
  aligned mb eb -> eb <= 971 ->
  (x <= F2Q mb eb)%Q ->
  SFfin (binary_round_aux prec emax false m e l) /\
  (SF2Q (binary_round_aux prec emax false m e l) <= F2Q mb eb)%Q.
Proof.
  intros Hm P I B Eb Hx.
  destruct (round_aux_frame false m e l x Hm P I) as
    (m1 & e1 & m2 & mr & er & A & X1 & X2 & R & A' & V & E).
  assert (U : (F2Q mr er <= F2Q mb eb)%Q).
  { rewrite V. destruct R as [->|[Lt ->]].
    - eapply Qle_trans; eauto.
    - apply spacing_up; auto. eapply Qlt_le_trans; eauto. }
  rewrite E. destruct mr as [|p|p].
  - split; [exact Logic.I|]. cbn [SF2Q]. rewrite <- (F2Q_0 er). exact U.
  - assert (er <= eb) by (apply (aligned_exponent (Zpos p) er mb eb); auto; lia).
    destruct (Z.leb_spec er 971) as [L|L]; [|lia].
    split; [exact Logic.I|]. exact U.
  - destruct A' as [[A0 _] _]. lia.
Qed.

(** Downwards: a finite number that is not above [x] is not above the
    rounding of [x]. *)
Theorem round_aux_ge m e l x mb eb :
  0 <= m ->
  2 ^ 52 <= m \/ e <= emin64 ->
  inbetween m e l x ->
  aligned mb eb ->
  (F2Q mb eb <= x)%Q ->
  binary_round_aux prec emax false m e l = S754_infinity false \/
  SFfin (binary_round_aux prec emax false m e l) /\
  (F2Q mb eb <= SF2Q (binary_round_aux prec emax false m e l))%Q.
Proof.
  intros Hm P I B Hx.
  destruct (round_aux_frame false m e l x Hm P I) as
    (m1 & e1 & m2 & mr & er & A & X1 & X2 & R & A' & V & E).
  assert (U : (F2Q mb eb <= F2Q mr er)%Q).
  { rewrite V. apply Qle_trans with (F2Q m1 e1).
    - apply spacing_down; auto. eapply Qle_lt_trans; eauto.
    - apply F2Q_le. destruct R as [->|[_ ->]]; lia. }
  rewrite E. destruct mr as [|p|p].
  - right. split; [exact Logic.I|]. cbn [SF2Q]. rewrite <- (F2Q_0 er). exact U.
  - destruct (Z.leb_spec er 971) as [L|L]; [right|left; reflexivity].
    split; [exact Logic.I|]. exact U.
  - destruct A' as [[A0 _] _]. lia.
Qed.

(** ** Comparison *)

Lemma SF2Q_nonneg x : SFfin x -> (0 <= SF2Q x)%Q.
Proof.
  destruct x as [s|s| |s m e]; cbn; try contradiction; try discriminate.
  destruct s; [contradiction|]. intros _. cbn [cond_Zopp].
  rewrite <- (F2Q_0 e). apply F2Q_le. lia.
Qed.

Lemma F2Q_pos_pos m e : (0 < F2Q (Zpos m) e)%Q.
Proof. rewrite <- (F2Q_0 e). apply F2Q_lt. lia. Qed.

Lemma aligned_lt m1 e1 m2 e2 :
  aligned m1 e1 -> aligned m2 e2 -> e1 < e2 ->
  (F2Q m1 e1 < F2Q m2 e2)%Q.
Proof.
  intros (A1 & A2 & A3) (B1 & B2 & B3) L.
  assert (L' : e1 <= e2) by lia.
  rewrite (F2Q_shift' m2 e2 e1 L'). apply F2Q_lt.
  pose proof (pow2_ge_2 (e2 - e1)). nia.
Qed.

(** On finite numbers that are not negative, [SFcompare] is the order of
    the values. *)
Lemma SFcompare_fin x y :
  valid_binary x = true -> valid_binary y = true ->
  SFfin x -> SFfin y ->
  SFcompare x y = Some (SF2Q x ?= SF2Q y)%Q.
Proof.
  intros Vx Vy Fx Fy.
  destruct x as [sx|sx| |sx mx ex]; try contradiction;
    destruct y as [sy|sy| |sy my ey]; try contradiction.
  - reflexivity.
  - destruct sy; [contradiction|]. cbn [SFcompare SF2Q cond_Zopp].
    f_equal. symmetry. apply Qlt_alt. apply F2Q_pos_pos.
  - destruct sx; [contradiction|]. cbn [SFcompare SF2Q cond_Zopp].
    f_equal. symmetry. apply Qgt_alt. apply F2Q_pos_pos.
  - destruct sx; [contradiction|]. destruct sy; [contradiction|].
    destruct (valid_aligned _ _ _ Vx) as [Ax _].
    destruct (valid_aligned _ _ _ Vy) as [Ay _].
    cbn [SFcompare SF2Q cond_Zopp]. f_equal.
    destruct (Z.compare_spec ex ey) as [E|L|L].
    + subst ey. change (Pos.compare_cont Eq mx my) with (Pos.compare mx my).
      destruct (Pos.compare_spec mx my) as [E|L|L]; symmetry.
      * subst. apply Qeq_alt. reflexivity.
      * apply Qlt_alt, F2Q_lt. lia.
      * apply Qgt_alt, F2Q_lt. lia.
    + symmetry. apply Qlt_alt. apply aligned_lt; assumption.
    + symmetry. apply Qgt_alt. apply aligned_lt; assumption.
Qed.

(** ** Alignment to the left *)

Lemma iter_xO m d : Zpos (Pos.iter xO m d) = Zpos m * 2 ^ Zpos d.
Proof.
  induction d as [|d IH] using Pos.peano_ind.
  - cbn [Pos.iter]. rewrite Pos2Z.inj_xO. change (2 ^ 1) with 2. lia.
  - rewrite Pos.iter_succ, Pos2Z.inj_xO, IH, Pos2Z.inj_succ,
      Z.pow_succ_r by lia.
    lia.
Qed.

Lemma shl_align_spec m e e' :
  exists m' e'',
    shl_align m e e' = (m', e'') /\
    e'' = Z.min e e' /\
    Zpos m' = Zpos m * 2 ^ (e - e'').
Proof.
  unfold shl_align. destruct (e' - e) as [|d|d] eqn:E.
  - exists m, e. split; [reflexivity|]. split; [lia|].
    rewrite Z.sub_diag. change (2 ^ 0) with 1. lia.
  - exists m, e. split; [reflexivity|]. split; [lia|].
    rewrite Z.sub_diag. change (2 ^ 0) with 1. lia.
  - exists (Pos.iter xO m d), e'. split; [reflexivity|]. split; [lia|].
    rewrite iter_xO. f_equal. f_equal. lia.
Qed.

(** [binary_round] hands [binary_round_aux] a mantissa with enough
    digits and the same value. *)
Lemma binary_round_spec sx m e :
  exists m' e',
    binary_round prec emax sx m e
    = binary_round_aux prec emax sx (Zpos m') e' loc_Exact /\
    (2 ^ 52 <= Zpos m' \/ e' <= emin64) /\
    (F2Q (Zpos m') e' == F2Q (Zpos m) e)%Q.
Proof.
  unfold binary_round. rewrite fexp64.
  destruct (shl_align_spec m e (Z.max (Zpos (digits2_pos m) + e - 53) emin64))
    as (m' & e' & E & Ee & V).
  rewrite E. exists m', e'. split; [reflexivity|].
  pose proof (digits2_pos_bounds m) as [D1 D2].
  set (d := Zpos (digits2_pos m)) in *.
  assert (0 < d) by (unfold d; lia).
  assert (Le : e' <= e) by lia.
  split.
  - destruct (Z_le_gt_dec e' emin64) as [L|L]; [right; exact L|left].
    rewrite V.
    destruct (Z_le_gt_dec 53 d) as [Ld|Ld].
    + assert (e' = e) by lia.
      replace (e - e') with 0 by lia. change (2 ^ 0) with 1.
      assert (2 ^ 52 <= 2 ^ (d - 1)) by (apply Z.pow_le_mono_r; lia).
      lia.
    + assert (Es : e - e' = 53 - d) by lia. rewrite Es.
      assert (2 ^ 52 = 2 ^ (d - 1) * 2 ^ (53 - d)).
      { rewrite <- Z.pow_add_r by lia. f_equal. lia. }
      assert (0 < 2 ^ (53 - d)) by (apply Z.pow_pos_nonneg; lia).
      nia.
  - rewrite V. symmetry. apply F2Q_shift'. exact Le.
Qed.

Lemma inbetween_exact m e x :
  (x == F2Q m e)%Q -> inbetween m e loc_Exact x.
Proof.
  intros E. unfold inbetween. rewrite E.
  split; [apply Qle_refl|]. split; [apply F2Q_lt; lia|].
  split; [reflexivity | congruence].
Qed.

Lemma binary_normalize_le z e x mb eb :
  0 <= z ->
  (x == F2Q z e)%Q ->
  aligned mb eb -> eb <= 971 ->
  (x <= F2Q mb eb)%Q ->
  SFfin (binary_normalize prec emax z e false) /\
  (SF2Q (binary_normalize prec emax z e false) <= F2Q mb eb)%Q.
Proof.
  intros Hz E B Eb Hx. destruct z as [|p|p]; [| |lia].
  - cbn. split; [exact Logic.I|]. rewrite <- (F2Q_0 e), <- E. exact Hx.
  - cbn [binary_normalize].
    destruct (binary_round_spec false p e) as (m' & e' & R & P & V).
    rewrite R.
    apply (round_aux_le (Zpos m') e' loc_Exact x mb eb);
      [lia | exact P | | exact B | exact Eb | exact Hx].
    apply inbetween_exact. rewrite V. exact E.
Qed.

Lemma binary_normalize_ge z e x mb eb :
  0 <= z ->
  (x == F2Q z e)%Q ->
  aligned mb eb ->
  (F2Q mb eb <= x)%Q ->
  binary_normalize prec emax z e false = S754_infinity false \/
  SFfin (binary_normalize prec emax z e false) /\
  (F2Q mb eb <= SF2Q (binary_normalize prec emax z e false))%Q.
Proof.
  intros Hz E B Hx. destruct z as [|p|p]; [| |lia].
  - right. cbn. split; [exact Logic.I|].
    rewrite <- (F2Q_0 e), <- E. exact Hx.
  - cbn [binary_normalize].
    destruct (binary_round_spec false p e) as (m' & e' & R & P & V).
    rewrite R.
    apply (round_aux_ge (Zpos m') e' loc_Exact x mb eb);
      [lia | exact P | | exact B | exact Hx].
    apply inbetween_exact. rewrite V. exact E.
Qed.

(** ** The operations on finite numbers that are not negative *)

Lemma F2Q_mul m1 e1 m2 e2 :
  (F2Q (m1 * m2) (e1 + e2) == F2Q m1 e1 * F2Q m2 e2)%Q.
Proof. unfold F2Q. rewrite inject_Z_mult, pow2_add. ring. Qed.

Lemma F2Q_add m1 m2 e : (F2Q (m1 + m2) e == F2Q m1 e + F2Q m2 e)%Q.
Proof. unfold F2Q. rewrite inject_Z_plus. ring. Qed.

Lemma F2Q_sub m1 m2 e : (F2Q (m1 - m2) e == F2Q m1 e - F2Q m2 e)%Q.
Proof. unfold F2Q, Z.sub. rewrite inject_Z_plus, inject_Z_opp. ring. Qed.

Lemma F2Q_nonneg m e : 0 <= m -> (0 <= F2Q m e)%Q.
Proof. intros H. rewrite <- (F2Q_0 e). apply F2Q_le. exact H. Qed.

Lemma product_digits mx ex my ey :
  aligned (Zpos mx) ex -> aligned (Zpos my) ey ->
  2 ^ 52 <= Zpos (mx * my) \/ ex + ey <= emin64.
Proof.
  intros (A1 & A2 & A3) (B1 & B2 & B3). rewrite Pos2Z.inj_mul.
  destruct A3 as [A3|A3]; [left; nia|].
  destruct B3 as [B3|B3]; [left; nia|].
  right. unfold emin64 in *. lia.
Qed.

Lemma SFmul_fin_cases x y :
  SFfin x -> SFfin y ->
  (exists s, SF64mul x y = S754_zero s /\ (SF2Q x * SF2Q y == 0)%Q) \/
  (exists mx ex my ey,
     x = S754_finite false mx ex /\ y = S754_finite false my ey /\
     SF64mul x y
     = binary_round_aux prec emax false (Zpos (mx * my)) (ex + ey)
         loc_Exact).
Proof.
  intros Fx Fy.
  destruct x as [sx|sx| |sx mx ex]; try contradiction;
    destruct y as [sy|sy| |sy my ey]; try contradiction;
    try (destruct sx; [contradiction|]);
    try (destruct sy; [contradiction|]).
  - left. eexists. split; [reflexivity|]. cbn. ring.
  - left. eexists. split; [reflexivity|]. cbn [SF2Q]. ring.
  - left. eexists. split; [reflexivity|]. cbn [SF2Q]. ring.
  - right. exists mx, ex, my, ey. repeat split.
Qed.

Theorem SFmul_le x y mb eb :
  valid_binary x = true -> valid_binary y = true ->
  SFfin x -> SFfin y ->
  aligned mb eb -> eb <= 971 ->
  (SF2Q x * SF2Q y <= F2Q mb eb)%Q ->
  SFfin (SF64mul x y) /\ (SF2Q (SF64mul x y) <= F2Q mb eb)%Q.
Proof.
  intros Vx Vy Fx Fy B Eb H.
  destruct (SFmul_fin_cases x y Fx Fy) as
    [(s & E & Z0)|(mx & ex & my & ey & -> & -> & E)]; rewrite E.
  - split; [exact Logic.I|]. cbn [SF2Q]. apply F2Q_nonneg.
    destruct B as [[B0 _] _]. exact B0.
  - destruct (valid_aligned _ _ _ Vx) as [Ax _].
    destruct (valid_aligned _ _ _ Vy) as [Ay _].
    apply (round_aux_le _ _ _ (F2Q (Zpos mx) ex * F2Q (Zpos my) ey) mb eb);
      [lia | apply product_digits; assumption | | exact B | exact Eb
       | exact H].
    apply inbetween_exact. rewrite Pos2Z.inj_mul. symmetry. apply F2Q_mul.
Qed.

Theorem SFmul_ge x y mb eb :
  valid_binary x = true -> valid_binary y = true ->
  SFfin x -> SFfin y ->
  aligned mb eb ->
  (F2Q mb eb <= SF2Q x * SF2Q y)%Q ->
  SF64mul x y = S754_infinity false \/
  SFfin (SF64mul x y) /\ (F2Q mb eb <= SF2Q (SF64mul x y))%Q.
Proof.
  intros Vx Vy Fx Fy B H.
  destruct (SFmul_fin_cases x y Fx Fy) as
    [(s & E & Z0)|(mx & ex & my & ey & -> & -> & E)]; rewrite E.
  - right. split; [exact Logic.I|]. cbn [SF2Q]. rewrite <- Z0. exact H.
  - destruct (valid_aligned _ _ _ Vx) as [Ax _].
    destruct (valid_aligned _ _ _ Vy) as [Ay _].
    apply (round_aux_ge _ _ _ (F2Q (Zpos mx) ex * F2Q (Zpos my) ey) mb eb);
      [lia | apply product_digits; assumption | | exact B | exact H].
    apply inbetween_exact. rewrite Pos2Z.inj_mul. symmetry. apply F2Q_mul.
Qed.

Lemma shl_align_value m e e' :
  e' <= e ->
  (F2Q (Zpos (fst (shl_align m e e'))) e' == F2Q (Zpos m) e)%Q.
Proof.
  intros L. destruct (shl_align_spec m e e') as (m' & e'' & E & Ee & V).
  rewrite E. cbn [fst]. rewrite V.
  replace e'' with e' by lia. symmetry. apply F2Q_shift'. exact L.
Qed.

Lemma SFadd_fin_cases x y :
  SFfin x -> SFfin y ->
  (SFfin (SF64add x y) /\ (SF2Q (SF64add x y) == SF2Q x + SF2Q y)%Q) \/
  (exists z e,
     0 <= z /\ (F2Q z e == SF2Q x + SF2Q y)%Q /\
     SF64add x y = binary_normalize prec emax z e false).
Proof.
  intros Fx Fy.
  destruct x as [sx|sx| |sx mx ex]; try contradiction;
    destruct y as [sy|sy| |sy my ey]; try contradiction;
    try (destruct sx; [contradiction|]);
    try (destruct sy; [contradiction|]).
  - left. destruct sx, sy; cbn; split; auto; ring.
  - left. cbn [SF64add SFadd SF2Q SFfin]. split; [exact Logic.I|]. ring.
  - left. cbn [SF64add SFadd SF2Q SFfin]. split; [exact Logic.I|]. ring.
  - right. unfold SF64add. cbn [SFadd cond_Zopp SF2Q].
    set (ez := Z.min ex ey).
    eexists. exists ez. split; [|split; [|reflexivity]]; [lia|].
    rewrite F2Q_add, !shl_align_value by (unfold ez; lia). reflexivity.
Qed.

Theorem SFadd_le x y mb eb :
  SFfin x -> SFfin y ->
  aligned mb eb -> eb <= 971 ->
  (SF2Q x + SF2Q y <= F2Q mb eb)%Q ->
  SFfin (SF64add x y) /\ (SF2Q (SF64add x y) <= F2Q mb eb)%Q.
Proof.
  intros Fx Fy B Eb H.
  destruct (SFadd_fin_cases x y Fx Fy) as [[F E]|(z & e & Hz & V & E)].
  - split; [exact F|]. rewrite E. exact H.
  - rewrite E.
    apply (binary_normalize_le z e (SF2Q x + SF2Q y) mb eb); auto.
    symmetry. exact V.
Qed.

Theorem SFadd_ge x y mb eb :
  SFfin x -> SFfin y ->
  aligned mb eb ->
  (F2Q mb eb <= SF2Q x + SF2Q y)%Q ->
  SF64add x y = S754_infinity false \/
  SFfin (SF64add x y) /\ (F2Q mb eb <= SF2Q (SF64add x y))%Q.
Proof.
  intros Fx Fy B H.
  destruct (SFadd_fin_cases x y Fx Fy) as [[F E]|(z & e & Hz & V & E)].
  - right. split; [exact F|]. rewrite E. exact H.
  - rewrite E.
    apply (binary_normalize_ge z e (SF2Q x + SF2Q y) mb eb); auto.
    symmetry. exact V.
Qed.

Lemma SFsub_fin_cases x y :
  SFfin x -> SFfin y -> (SF2Q y <= SF2Q x)%Q ->
  (SFfin (SF64sub x y) /\ (SF2Q (SF64sub x y) == SF2Q x - SF2Q y)%Q) \/
  (exists z e,
     0 <= z /\ (F2Q z e == SF2Q x - SF2Q y)%Q /\
     SF64sub x y = binary_normalize prec emax z e false).
Proof.
  intros Fx Fy L.
  destruct x as [sx|sx| |sx mx ex]; try contradiction;
    destruct y as [sy|sy| |sy my ey]; try contradiction;
    try (destruct sx; [contradiction|]);
    try (destruct sy; [contradiction|]).
  - left. destruct sx, sy; cbn; split; auto; ring.
  - exfalso. cbn [SF2Q cond_Zopp] in L.
    pose proof (F2Q_pos_pos my ey). lra.
  - left. cbn [SF64sub SFsub SF2Q SFfin]. split; [exact Logic.I|]. ring.
  - right. unfold SF64sub. cbn [SFsub cond_Zopp SF2Q] in *.
    set (ez := Z.min ex ey) in *.
    assert (V : (F2Q (Zpos (fst (shl_align mx ex ez))
                      - Zpos (fst (shl_align my ey ez))) ez
                 == F2Q (Zpos mx) ex - F2Q (Zpos my) ey)%Q).
    { rewrite F2Q_sub, !shl_align_value by (unfold ez; lia). reflexivity. }
    eexists. exists ez. split; [|split; [exact V|reflexivity]].
    apply (F2Q_le 0 _ ez). rewrite V, F2Q_0. lra.
Qed.

Theorem SFsub_le x y mb eb :
  SFfin x -> SFfin y -> (SF2Q y <= SF2Q x)%Q ->
  aligned mb eb -> eb <= 971 ->
  (SF2Q x - SF2Q y <= F2Q mb eb)%Q ->
  SFfin (SF64sub x y) /\ (SF2Q (SF64sub x y) <= F2Q mb eb)%Q.
Proof.
  intros Fx Fy L B Eb H.
  destruct (SFsub_fin_cases x y Fx Fy L) as [[F E]|(z & e & Hz & V & E)].
  - split; [exact F|]. rewrite E. exact H.
  - rewrite E.
    apply (binary_normalize_le z e (SF2Q x - SF2Q y) mb eb); auto.
    symmetry. exact V.
Qed.

Theorem SFsub_ge x y mb eb :
  SFfin x -> SFfin y -> (SF2Q y <= SF2Q x)%Q ->
  aligned mb eb ->
  (F2Q mb eb <= SF2Q x - SF2Q y)%Q ->
  SF64sub x y = S754_infinity false \/
  SFfin (SF64sub x y) /\ (F2Q mb eb <= SF2Q (SF64sub x y))%Q.
Proof.
  intros Fx Fy L B H.
  destruct (SFsub_fin_cases x y Fx Fy L) as [[F E]|(z & e & Hz & V & E)].
  - right. split; [exact F|]. rewrite E. exact H.
  - rewrite E.
    apply (binary_normalize_ge z e (SF2Q x - SF2Q y) mb eb); auto.
    symmetry. exact V.
Qed.

Lemma new_location_exact nb k :
  (new_location nb k = loc_Exact <-> k = 0).
Proof.
  unfold new_location, new_location_even, new_location_odd.
  destruct (Z.even nb); destruct (Z.eqb_spec k 0) as [E|E];
    split; intros H; try congruence; try reflexivity.
Qed.

(** The quotient [SFdiv] rounds: a mantissa with enough digits, at or
    just below the true quotient. *)
Lemma SFdiv_core_spec mx ex my ey :
  Zpos mx < 2 ^ 53 ->
  exists q e l,
    SFdiv_core_binary prec emax (Zpos mx) ex (Zpos my) ey = (q, e, l) /\
    0 <= q /\
    (2 ^ 52 <= q \/ e <= emin64) /\
    inbetween q e l (F2Q (Zpos mx) ex / F2Q (Zpos my) ey).
Proof.
  intros Bx.
  unfold SFdiv_core_binary. rewrite fexp64. cbn [Zdigits2].
  pose proof (digits2_pos_bounds mx) as [D1 D1'].
  pose proof (digits2_pos_bounds my) as [D2 D2'].
  set (d1 := Zpos (digits2_pos mx)) in *.
  set (d2 := Zpos (digits2_pos my)) in *.
  assert (0 < d1) by (unfold d1; lia).
  assert (0 < d2) by (unfold d2; lia).
  set (e' := Z.min (Z.max (d1 + ex - (d2 + ey) - 53) emin64) (ex - ey)).
  set (s := ex - ey - e').
  assert (Hs : 0 <= s) by (unfold s, e'; lia).
  set (m' := match s with
             | 0 => Zpos mx
             | Zpos _ => Z.shiftl (Zpos mx) s
             | Zneg _ => 0
             end).
  assert (Em : m' = Zpos mx * 2 ^ s).
  { unfold m'. destruct s as [|p|p] eqn:Es; [|apply Z.shiftl_mul_pow2|]; lia. }
  assert (Ps : 0 < 2 ^ s) by (apply Z.pow_pos_nonneg; lia).
  pose proof (Z.div_eucl_eq m' (Zpos my)) as Dv.
  pose proof (Z.mod_pos_bound m' (Zpos my)) as Bm.
  unfold Z.modulo in Bm.
  destruct (Z.div_eucl m' (Zpos my)) as [q r] eqn:Ed.
  specialize (Dv ltac:(lia)). specialize (Bm ltac:(lia)).
  exists q, e', (new_location (Zpos my) r).
  split; [reflexivity|].
  assert (Hq : 0 <= q) by nia.
  split; [exact Hq|].
  split.
  { destruct (Z_le_gt_dec e' emin64) as [L|L]; [right; exact L|left].
    assert (d1 - 1 < 53) by (apply pow2_lt_inv; lia).
    assert (53 - d1 + d2 <= s) by (unfold s, e' in *; lia).
    assert (2 ^ (53 - d1 + d2) <= 2 ^ s) by (apply Z.pow_le_mono_r; lia).
    assert (2 ^ (d1 - 1) * 2 ^ (53 - d1 + d2) = 2 ^ 52 * 2 ^ d2).
    { rewrite <- !Z.pow_add_r by lia. f_equal. lia. }
    assert (0 < 2 ^ (d1 - 1)) by (apply Z.pow_pos_nonneg; lia).
    assert (2 ^ 52 * 2 ^ d2 <= m') by nia.
    nia. }
  set (Y := F2Q (Zpos my) ey).
  assert (PY : (0 < Y)%Q) by apply F2Q_pos_pos.
  assert (N : (F2Q (Zpos mx) ex == F2Q m' (e' + ey))%Q).
  { rewrite Em, F2Q_shift by lia. replace (e' + ey + s) with ex
      by (unfold s; lia). reflexivity. }
  assert (M : forall a, (F2Q a e' * Y == F2Q (a * Zpos my) (e' + ey))%Q).
  { intros a. unfold Y. symmetry. apply F2Q_mul. }
  unfold inbetween. rewrite N.
  split; [|split; [|split]].
  - apply Qle_shift_div_l; [exact PY|]. rewrite M. apply F2Q_le. nia.
  - apply Qlt_shift_div_r; [exact PY|]. rewrite M. apply F2Q_lt. nia.
  - intros El. apply new_location_exact in El. subst r.
    rewrite <- (Qmult_1_r (F2Q q e')) at 1.
    assert (Eq' : (F2Q m' (e' + ey) == F2Q q e' * Y)%Q).
    { rewrite M. replace (q * Zpos my) with m' by lia. reflexivity. }
    rewrite Eq'. field. intros Z0. rewrite Z0 in PY. discriminate.
  - intros Nl. assert (r <> 0)
      by (intros ->; apply Nl, new_location_exact; reflexivity).
    apply Qlt_shift_div_l; [exact PY|]. rewrite M. apply F2Q_lt. nia.
Qed.

Theorem SFdiv_le x my ey mb eb :
  valid_binary x = true -> SFfin x ->
  aligned mb eb -> eb <= 971 ->
  (SF2Q x / F2Q (Zpos my) ey <= F2Q mb eb)%Q ->
  SFfin (SF64div x (S754_finite false my ey)) /\
  (SF2Q (SF64div x (S754_finite false my ey)) <= F2Q mb eb)%Q.
Proof.
  intros Vx Fx B Eb H.
  destruct x as [sx|sx| |sx mx ex]; try contradiction.
  - cbn. split; [exact Logic.I|]. apply F2Q_nonneg.
    destruct B as [[B0 _] _]. exact B0.
  - destruct sx; [contradiction|].
    unfold SF64div. cbn [SFdiv xorb].
    destruct (valid_aligned _ _ _ Vx) as [[[_ Ax] _] _].
    destruct (SFdiv_core_spec mx ex my ey Ax)
      as (q & e & l & E & Hq & P & I).
    rewrite E.
    apply (round_aux_le q e l _ mb eb Hq P I B Eb). exact H.
Qed.

Theorem SFdiv_ge x my ey mb eb :
  valid_binary x = true -> SFfin x ->
  aligned mb eb ->
  (F2Q mb eb <= SF2Q x / F2Q (Zpos my) ey)%Q ->
  SF64div x (S754_finite false my ey) = S754_infinity false \/
  SFfin (SF64div x (S754_finite false my ey)) /\
  (F2Q mb eb <= SF2Q (SF64div x (S754_finite false my ey)))%Q.
Proof.
  intros Vx Fx B H.
  destruct x as [sx|sx| |sx mx ex]; try contradiction.
  - right. cbn. split; [exact Logic.I|].
    cbn [SF2Q] in H. unfold Qdiv in H. rewrite Qmult_0_l in H. exact H.
  - destruct sx; [contradiction|].
    unfold SF64div. cbn [SFdiv xorb].
    destruct (valid_aligned _ _ _ Vx) as [[[_ Ax] _] _].
    destruct (SFdiv_core_spec mx ex my ey Ax)
      as (q & e & l & E & Hq & P & I).
    rewrite E.
    apply (round_aux_ge q e l _ mb eb Hq P I B). exact H.
Qed.

(** ** Binary64 numbers *)

Lemma representable_B2Q b : fin b -> representable (B2Q b).
Proof. intros F. apply SFfin_aligned; [apply Prim2SF_valid | exact F]. Qed.

Lemma B2Q_nonneg x : fin x -> (0 <= B2Q x)%Q.
Proof. apply SF2Q_nonneg. Qed.

Lemma representable_int n : 0 <= n <= 2 ^ 53 -> representable (inject_Z n).
Proof.
  intros Hn. unfold representable.
  assert (V0 : forall k, (inject_Z k == F2Q k 0)%Q)
    by (intros k; unfold F2Q; change (pow2 0) with 1%Q; ring).
  destruct (Z.eq_dec n 0) as [->|N0].
  - exists 0, emin64. split; [unfold aligned, emin64; lia|].
    split; [unfold emin64; lia|]. rewrite F2Q_0. reflexivity.
  - destruct (Z.eq_dec n (2 ^ 53)) as [->|N1].
    + exists (2 ^ 52), 1. split; [unfold aligned, emin64; lia|].
      split; [lia|]. rewrite V0. rewrite <- (F2Q_shift (2 ^ 52) 0 1) by lia.
      reflexivity.
    + destruct (Zdigits2_bounds n) as [[D1 D2] D3]; [lia|].
      set (d := Zdigits2 n) in *.
      assert (d - 1 < 53) by (apply pow2_lt_inv; lia).
      exists (n * 2 ^ (53 - d)), (d - 53).
      assert (P1 : 2 ^ 52 = 2 ^ (d - 1) * 2 ^ (53 - d)).
      { rewrite <- Z.pow_add_r by lia. f_equal. lia. }
      assert (P2 : 2 ^ 53 = 2 ^ d * 2 ^ (53 - d)).
      { rewrite <- Z.pow_add_r by lia. f_equal. lia. }
      assert (0 < 2 ^ (53 - d)) by (apply Z.pow_pos_nonneg; lia).
      split; [unfold aligned, emin64; split; [nia|split; [lia|left; nia]]|].
      split; [lia|].
      rewrite F2Q_shift by lia. replace (d - 53 + (53 - d)) with 0 by lia.
      apply V0.
Qed.

Lemma float_ltb_fin x y :
  fin x -> fin y ->
  ((x <? y)%float = true <-> (B2Q x < B2Q y)%Q).
Proof.
  intros Fx Fy. rewrite ltb_spec. unfold SFltb.
  rewrite (SFcompare_fin _ _ (Prim2SF_valid x) (Prim2SF_valid y) Fx Fy).
  unfold B2Q. rewrite Qlt_alt.
  destruct (SF2Q (Prim2SF x) ?= SF2Q (Prim2SF y))%Q; split; congruence.
Qed.

Lemma float_leb_fin x y :
  fin x -> fin y ->
  ((x <=? y)%float = true <-> (B2Q x <= B2Q y)%Q).
Proof.
  intros Fx Fy. rewrite leb_spec. unfold SFleb.
  rewrite (SFcompare_fin _ _ (Prim2SF_valid x) (Prim2SF_valid y) Fx Fy).
  unfold B2Q. rewrite Qle_alt.
  destruct (SF2Q (Prim2SF x) ?= SF2Q (Prim2SF y))%Q; split; congruence.
Qed.

Lemma float_eqb_fin x y :
  fin x -> fin y ->
  ((x =? y)%float = true <-> (B2Q x == B2Q y)%Q).
Proof.
  intros Fx Fy. rewrite eqb_spec. unfold SFeqb.
  rewrite (SFcompare_fin _ _ (Prim2SF_valid x) (Prim2SF_valid y) Fx Fy).
  unfold B2Q. rewrite Qeq_alt.
  destruct (SF2Q (Prim2SF x) ?= SF2Q (Prim2SF y))%Q; split; congruence.
Qed.

Lemma fin_positive y :
  fin y -> (0 < B2Q y)%Q ->
  exists my ey, Prim2SF y = S754_finite false my ey.
Proof.
  unfold fin, B2Q. destruct (Prim2SF y) as [s|s| |s m e]; cbn;
    try contradiction; try (intros _ H; discriminate H).
  destruct s; [contradiction|]. intros _ _. eauto.
Qed.

Theorem float_mul_le x y q :
  fin x -> fin y -> representable q ->
  (B2Q x * B2Q y <= q)%Q ->
  fin (x * y) /\ (B2Q (x * y) <= q)%Q.
Proof.
  intros Fx Fy (mb & eb & A & E & V) H. unfold fin, B2Q.
  rewrite mul_spec, V.
  apply SFmul_le; auto using Prim2SF_valid. rewrite <- V. exact H.
Qed.

Theorem float_mul_ge x y q :
  fin x -> fin y -> representable q -> fin (x * y) ->
  (q <= B2Q x * B2Q y)%Q ->
  (q <= B2Q (x * y))%Q.
Proof.
  intros Fx Fy (mb & eb & A & E & V) F H. unfold fin, B2Q in *.
  rewrite mul_spec in *. rewrite V in *.
  destruct (SFmul_ge (Prim2SF x) (Prim2SF y) mb eb)
    as [I|[_ G]]; auto using Prim2SF_valid.
  rewrite I in F. contradiction.
Qed.

Theorem float_add_le x y q :
  fin x -> fin y -> representable q ->
  (B2Q x + B2Q y <= q)%Q ->
  fin (x + y) /\ (B2Q (x + y) <= q)%Q.
Proof.
  intros Fx Fy (mb & eb & A & E & V) H. unfold fin, B2Q.
  rewrite add_spec, V.
  apply SFadd_le; auto. rewrite <- V. exact H.
Qed.

Theorem float_add_ge x y q :
  fin x -> fin y -> representable q -> fin (x + y) ->
  (q <= B2Q x + B2Q y)%Q ->
  (q <= B2Q (x + y))%Q.
Proof.
  intros Fx Fy (mb & eb & A & E & V) F H. unfold fin, B2Q in *.
  rewrite add_spec in *. rewrite V in *.
  destruct (SFadd_ge (Prim2SF x) (Prim2SF y) mb eb) as [I|[_ G]]; auto.
  rewrite I in F. contradiction.
Qed.

Theorem float_sub_le x y q :
  fin x -> fin y -> (B2Q y <= B2Q x)%Q -> representable q ->
  (B2Q x - B2Q y <= q)%Q ->
  fin (x - y) /\ (B2Q (x - y) <= q)%Q.
Proof.
  intros Fx Fy L (mb & eb & A & E & V) H. unfold fin, B2Q.
  rewrite sub_spec, V.
  apply SFsub_le; auto. rewrite <- V. exact H.
Qed.

Theorem float_sub_ge x y q :
  fin x -> fin y -> (B2Q y <= B2Q x)%Q -> representable q -> fin (x - y) ->
  (q <= B2Q x - B2Q y)%Q ->
  (q <= B2Q (x - y))%Q.
Proof.
  intros Fx Fy L (mb & eb & A & E & V) F H. unfold fin, B2Q in *.
  rewrite sub_spec in *. rewrite V in *.
  destruct (SFsub_ge (Prim2SF x) (Prim2SF y) mb eb) as [I|[_ G]]; auto.
  rewrite I in F. contradiction.
Qed.

Theorem float_div_le x y q :
  fin x -> fin y -> (0 < B2Q y)%Q -> representable q ->
  (B2Q x / B2Q y <= q)%Q ->
  fin (x / y) /\ (B2Q (x / y) <= q)%Q.
Proof.
  intros Fx Fy Py (mb & eb & A & E & V) H.
  destruct (fin_positive y Fy Py) as (my & ey & Ey).
  unfold fin, B2Q in *. rewrite div_spec, V. rewrite Ey in *.
  cbn [SF2Q cond_Zopp] in H.
  apply SFdiv_le; auto using Prim2SF_valid. rewrite <- V. exact H.
Qed.

(** A finite number minus itself is +0. *)
Lemma float_sub_self x : fin x -> Prim2SF (x - x) = S754_zero false.
Proof.
  unfold fin. rewrite sub_spec.
  destruct (Prim2SF x) as [s|s| |s m e]; try contradiction.
  - intros _. destruct s; reflexivity.
  - destruct s; [contradiction|]. intros _.
    unfold SF64sub. cbn [SFsub cond_Zopp]. rewrite Z.sub_diag. reflexivity.
Qed.

(** ** Integers *)

Lemma float_of_int_spec z :
  0 <= z < 2 ^ 63 ->
  Prim2SF (float_of_int z) = binary_normalize prec emax z 0 false.
Proof.
  intros Hz. unfold float_of_int. apply Prim2SF_SF2Prim.
  pose proof (Prim2SF_valid (of_uint63 (Uint63.of_Z z))) as V.
  rewrite of_uint63_spec, Uint63.of_Z_spec in V.
  rewrite Z.mod_small in V; [exact V|].
  change Uint63.wB with (2 ^ 63). exact Hz.
Qed.

Lemma float_of_int_fin z : 0 <= z < 2 ^ 63 -> fin (float_of_int z).
Proof.
  intros Hz. unfold fin. rewrite (float_of_int_spec z Hz).
  apply (binary_normalize_le z 0 (F2Q z 0) (2 ^ 52) 11);
    [lia | reflexivity | unfold aligned, emin64; lia | lia |].
  rewrite <- (F2Q_shift (2 ^ 52) 0 11) by lia. apply F2Q_le. lia.
Qed.

Lemma float_of_int_value z :
  0 <= z <= 2 ^ 53 -> (B2Q (float_of_int z) == inject_Z z)%Q.
Proof.
  intros Hz.
  assert (H63 : 0 <= z < 2 ^ 63) by lia.
  destruct (representable_int z Hz) as (mb & eb & A & E & V).
  assert (V0 : (inject_Z z == F2Q z 0)%Q)
    by (unfold F2Q; change (pow2 0) with 1%Q; ring).
  unfold B2Q. rewrite (float_of_int_spec z H63). apply Qle_antisym.
  - rewrite V.
    apply (binary_normalize_le z 0 (F2Q z 0) mb eb); auto;
      [lia | reflexivity | rewrite <- V0, V; apply Qle_refl].
  - rewrite V at 1.
    destruct (binary_normalize_ge z 0 (F2Q z 0) mb eb) as [I|[_ G]]; auto;
      [lia | reflexivity | rewrite <- V0, V; apply Qle_refl |].
    pose proof (float_of_int_fin z H63) as F. unfold fin in F.
    rewrite (float_of_int_spec z H63), I in F. contradiction.
Qed.

End Binary64Facts.

(** * The rounding error of one operation *)

Section Binary64Errors.

Open Scope Q_scope.

(** The multiples of 2^c up to 2^53 * 2^c are values of binary64 numbers. *)
Lemma representable_grid j c :
  (0 <= j <= 2 ^ 53)%Z -> (emin64 <= c <= 900)%Z ->
  representable (F2Q j c).
Proof.
  intros Hj Hc. unfold representable.
  destruct (Z.eq_dec j 0) as [->|N0].
  - exists 0%Z, emin64. split; [unfold aligned, emin64; lia|].
    split; [unfold emin64; lia|]. rewrite !F2Q_0. reflexivity.
  - destruct (Z.eq_dec j (2 ^ 53)) as [->|N1].
    + exists (2 ^ 52)%Z, (c + 1)%Z.
      split; [unfold aligned, emin64 in *; lia|]. split; [lia|].
      rewrite <- (F2Q_shift (2 ^ 52) c 1) by lia. reflexivity.
    + destruct (Zdigits2_bounds j) as [[D1 D2] D3]; [lia|].
      set (d := Zdigits2 j) in *.
      assert (d - 1 < 53)%Z by (apply pow2_lt_inv; lia).
      set (t := Z.min (53 - d) (c - emin64)).
      assert (Ht : (0 <= t)%Z) by (unfold t; lia).
      exists (j * 2 ^ t)%Z, (c - t)%Z.
      assert (Pt : (0 < 2 ^ t)%Z) by (apply Z.pow_pos_nonneg; lia).
      assert (P1 : (2 ^ t <= 2 ^ (53 - d))%Z)
        by (apply Z.pow_le_mono_r; unfold t; lia).
      assert (P2 : (2 ^ 53 = 2 ^ d * 2 ^ (53 - d))%Z).
      { rewrite <- Z.pow_add_r by lia. f_equal. lia. }
      assert (P3 : (2 ^ 52 = 2 ^ (d - 1) * 2 ^ (53 - d))%Z).
      { rewrite <- Z.pow_add_r by lia. f_equal. lia. }
      split.
      * unfold aligned. split; [nia|]. split; [unfold t; lia|].
        destruct (Z.min_spec (53 - d) (c - emin64)) as [[M1 M2]|[M1 M2]];
          fold t in M2.
        -- left. rewrite M2. nia.
        -- right. lia.
      * split; [lia|]. rewrite F2Q_shift by lia.
        replace (c - t + t)%Z with c by lia. reflexivity.
Qed.

(** A real between 0 and 2^53 * 2^c lies between two binary64 values
    that are 2^c apart at most. *)
Lemma grid_neighbours a c :
  0 <= a -> a <= F2Q (2 ^ 53) c -> (emin64 <= c <= 900)%Z ->
  exists lo hi,
    representable lo /\ representable hi /\
    lo <= a /\ a <= hi /\ hi - lo <= pow2 c.
Proof.
  intros H0 H1 Hc. pose proof (pow2_pos c) as Pc.
  set (x := a / pow2 c).
  assert (Ex : a == x * pow2 c).
  { unfold x. field. intros Z0. rewrite Z0 in Pc. discriminate. }
  assert (X0 : 0 <= x).
  { unfold x. apply Qle_shift_div_l; [exact Pc|]. lra. }
  assert (X1 : x <= inject_Z (2 ^ 53)).
  { unfold x. apply Qle_shift_div_r; [exact Pc | exact H1]. }
  pose proof (Qfloor_le x) as F1. pose proof (Qle_ceiling x) as C1.
  pose proof (Qlt_floor x) as F2. pose proof (Qceiling_lt x) as C2.
  assert (Fl : (0 <= Qfloor x)%Z).
  { change 0%Z with (Qfloor 0). apply Qfloor_resp_le. exact X0. }
  assert (Ce : (Qceiling x <= 2 ^ 53)%Z).
  { rewrite <- (Qceiling_Z (2 ^ 53)). apply Qceiling_resp_le. exact X1. }
  assert (FC : (Qfloor x <= Qceiling x)%Z).
  { rewrite Zle_Qle. eapply Qle_trans; eauto. }
  assert (CF : (Qceiling x <= Qfloor x + 1)%Z).
  { assert (L : inject_Z (Qceiling x - 1) < inject_Z (Qfloor x + 1))
      by (eapply Qlt_trans; eauto).
    rewrite <- Zlt_Qlt in L. lia. }
  exists (F2Q (Qfloor x) c), (F2Q (Qceiling x) c).
  split; [apply representable_grid; lia|].
  split; [apply representable_grid; lia|].
  unfold F2Q. rewrite Ex.
  split; [apply Qmult_le_compat_r; [exact F1 | lra]|].
  split; [apply Qmult_le_compat_r; [exact C1 | lra]|].
  assert (D : inject_Z (Qceiling x) - inject_Z (Qfloor x) <= 1).
  { rewrite Zle_Qle in CF. rewrite inject_Z_plus in CF.
    change (inject_Z 1) with 1 in CF. lra. }
  nra.
Qed.

Lemma float_add_err (x y : float) c :
  fin x -> fin y -> (emin64 <= c <= 900)%Z ->
  B2Q x + B2Q y <= F2Q (2 ^ 53) c ->
  fin (x + y)%float /\
  - pow2 c <= B2Q (x + y)%float - (B2Q x + B2Q y) <= pow2 c.
Proof.
  intros Fx Fy Hc H.
  pose proof (B2Q_nonneg x Fx). pose proof (B2Q_nonneg y Fy).
  destruct (grid_neighbours (B2Q x + B2Q y) c) as
    (lo & hi & Rl & Rh & L1 & L2 & D); [lra | exact H | exact Hc |].
  destruct (float_add_le x y hi Fx Fy Rh L2) as [F U].
  pose proof (float_add_ge x y lo Fx Fy Rl F L1) as L.
  split; [exact F | lra].
Qed.

Lemma float_sub_err (x y : float) c :
  fin x -> fin y -> B2Q y <= B2Q x -> (emin64 <= c <= 900)%Z ->
  B2Q x - B2Q y <= F2Q (2 ^ 53) c ->
  fin (x - y)%float /\
  - pow2 c <= B2Q (x - y)%float - (B2Q x - B2Q y) <= pow2 c.
Proof.
  intros Fx Fy Le Hc H.
  destruct (grid_neighbours (B2Q x - B2Q y) c) as
    (lo & hi & Rl & Rh & L1 & L2 & D); [lra | exact H | exact Hc |].
  destruct (float_sub_le x y hi Fx Fy Le Rh L2) as [F U].
  pose proof (float_sub_ge x y lo Fx Fy Le Rl F L1) as L.
  split; [exact F | lra].
Qed.

Lemma F2Q_unit : F2Q (2 ^ 53) (-53) == 1.
Proof. vm_compute. reflexivity. Qed.

End Binary64Errors.

(** * The count in binary64 *)

Section Binary64Count.

#[local] Existing Instance FloatArith.

Open Scope Q_scope.

#[local] Ltac f64 :=
  change (@fmul FloatArith) with PrimFloat.mul in *;
  change (@fadd FloatArith) with PrimFloat.add in *;
  change (@fsub FloatArith) with PrimFloat.sub in *;
  change (@fabs FloatArith) with PrimFloat.abs in *;
  change (@fltb FloatArith) with PrimFloat.ltb in *;
  change (@fdiv FloatArith) with float_div in *;
  change (@of_int FloatArith) with float_of_int in *.

Lemma one64 : unit64 (float_of_int 1) /\ B2Q (float_of_int 1) == 1.
Proof.
  split; [split|].
  - apply float_of_int_fin. lia.
  - rewrite (float_of_int_value 1) by lia. apply Qle_refl.
  - apply (float_of_int_value 1). lia.
Qed.

Lemma zero64 : fin (float_of_int 0) /\ B2Q (float_of_int 0) == 0.
Proof.
  split; [apply float_of_int_fin; lia | apply (float_of_int_value 0); lia].
Qed.

Lemma representable_0 : representable 0.
Proof. apply (representable_int 0). lia. Qed.

Lemma representable_1 : representable 1.
Proof. apply (representable_int 1). lia. Qed.

(** One transfer: [vote_value * keep], and what is left of the ballot. *)
Lemma transfer64 (v k : float) :
  unit64 v -> unit64 k ->
  fin (v * k)%float /\ B2Q (v * k)%float <= B2Q v /\
  B2Q (v * k)%float <= B2Q k /\
  unit64 (v - v * k)%float.
Proof.
  intros [Fv Lv] [Fk Lk].
  pose proof (B2Q_nonneg v Fv) as Nv. pose proof (B2Q_nonneg k Fk) as Nk.
  assert (P1 : B2Q v * B2Q k <= B2Q v) by nra.
  assert (P2 : B2Q v * B2Q k <= B2Q k) by nra.
  destruct (float_mul_le v k (B2Q v) Fv Fk (representable_B2Q v Fv) P1)
    as [Ft Lt].
  destruct (float_mul_le v k (B2Q k) Fv Fk (representable_B2Q k Fk) P2)
    as [_ Lt'].
  pose proof (B2Q_nonneg _ Ft) as Nt.
  split; [exact Ft|]. split; [exact Lt|]. split; [exact Lt'|].
  destruct (float_sub_le v (v * k)%float (B2Q v) Fv Ft Lt
              (representable_B2Q v Fv)) as [Fr Lr]; [lra|].
  split; [exact Fr | lra].
Qed.

Lemma find_candidate_member p (cs : list (Candidate num)) cand :
  find_candidate p cs = Some cand -> In cand cs /\ name cand = p.
Proof.
  unfold find_candidate. intros H. apply find_some in H.
  destruct H as [H1 H2]. apply String.eqb_eq in H2. auto.
Qed.

Lemma find_candidate_only p (cs : list (Candidate num)) cand c :
  NoDup (map name cs) ->
  find_candidate p cs = Some cand ->
  In c cs -> name c = p -> c = cand.
Proof.
  unfold find_candidate.
  induction cs as [|c0 cs IH]; intros N F Hin Hn; [contradiction|].
  inversion N as [|? ? Hc0 Hcs]; subst. cbn [find] in F.
  destruct (String.eqb_spec (name c0) (name c)) as [E|E].
  - inversion F; subst cand. destruct Hin as [Hin|Hin]; [auto|].
    exfalso. apply Hc0. rewrite E. apply in_map, Hin.
  - destruct Hin as [Hin|Hin]; [subst; contradiction|].
    apply IH; auto.
Qed.

Lemma not_active_status (c : Candidate num) :
  is_active c = false <-> status c <> Active.
Proof.
  rewrite (status_active c). destruct (is_active c); split; congruence.
Qed.

Lemma inject_Z_succ n : inject_Z (n + 1) == inject_Z n + 1.
Proof. rewrite inject_Z_plus. reflexivity. Qed.

(** The rate a candidate keeps at, as the walk reads it. *)
Lemma effective_rate64 (c : Candidate num) :
  (status c = Active -> unit64 (keep_rate c)) ->
  unit64 (if is_active c then keep_rate c else of_int 0) /\
  (status c <> Active ->
   B2Q (if is_active c then keep_rate c else of_int 0) <= 0).
Proof.
  intros R. destruct (is_active c) eqn:E.
  - split; [apply R, status_active, E|].
    intros N. apply not_active_status in N. congruence.
  - f64. destruct zero64 as [F0 V0]. split; [split; [exact F0|]|].
    + rewrite V0. discriminate.
    + intros _. rewrite V0. apply Qle_refl.
Qed.

Lemma walking64_weaken n p prefs (c : Candidate num) :
  walking64 n (p :: prefs) c -> walking64 n prefs c.
Proof.
  intros (R & F & A & B & C). repeat split; auto.
  - apply R; assumption.
  - apply R; assumption.
  - intros H. apply B. right. exact H.
Qed.

Lemma update_candidate_absent64 n f (cs : list (Candidate num)) :
  ~ In n (map name cs) -> update_candidate n f cs = cs.
Proof.
  unfold update_candidate. induction cs as [|c cs IH]; cbn [map]; intros H.
  - reflexivity.
  - destruct (String.eqb_spec (name c) n) as [E|E].
    + exfalso. apply H. left. exact E.
    + rewrite IH; [reflexivity|]. intros Hn. apply H. right. exact Hn.
Qed.

Lemma tally64_update n f (cs : list (Candidate num)) c :
  NoDup (map name cs) ->
  find_candidate n cs = Some c ->
  tally64 (update_candidate n f cs)
  == tally64 cs + (B2Q (votes (f c)) - B2Q (votes c)).
Proof.
  unfold find_candidate, tally64.
  induction cs as [|c0 cs IH]; intros N F; [discriminate|].
  inversion N as [|? ? Hn Hr]; subst.
  cbn [find] in F. unfold update_candidate. cbn [map].
  fold (update_candidate n f cs).
  destruct (String.eqb_spec (name c0) n) as [E|E].
  - inversion F; subst c0.
    rewrite update_candidate_absent64 by (rewrite <- E; exact Hn).
    set (l := map (fun c0 : Candidate float => B2Q (votes c0)) cs).
    change (B2Q (votes (f c)) + total l
            == B2Q (votes c) + total l + (B2Q (votes (f c)) - B2Q (votes c))).
    lra.
  - specialize (IH Hr F).
    set (l := map (fun c1 : Candidate float => B2Q (votes c1)) cs) in *.
    set (l' := map (fun c1 : Candidate float => B2Q (votes c1))
                 (update_candidate n f cs)) in *.
    change (B2Q (votes c0) + total l'
            == B2Q (votes c0) + total l + (B2Q (votes (f c)) - B2Q (votes c))).
    lra.
Qed.

(** One step of the walk over a ballot: the bounds are kept, and the
    votes and the value of the ballot together move by the two roundings
    only. *)
Lemma walk_step64 p prefs (v : float) cs cand n c :
  NoDup (map name cs) -> ~ In p prefs ->
  (0 <= n < 2 ^ 53)%Z ->
  (emin64 <= c <= 0)%Z -> inject_Z (n + 1) <= F2Q (2 ^ 53) c ->
  Forall (walking64 n (p :: prefs)) cs ->
  unit64 v ->
  find_candidate p cs = Some cand ->
  let k := if is_active cand then keep_rate cand else float_of_int 0 in
  let t := (v * k)%float in
  let cs1 :=
    update_candidate p (fun c => set_votes c (votes c + t)%float) cs in
  Forall (walking64 n prefs) cs1 /\
  unit64 (v - t)%float /\
  - step_error c <= (tally64 cs1 + B2Q (v - t)%float) - (tally64 cs + B2Q v)
  /\ (tally64 cs1 + B2Q (v - t)%float) - (tally64 cs + B2Q v)
     <= step_error c.
Proof.
  intros N Hnp Hn Hc Hg F Uv Ef k t cs1.
  destruct (find_candidate_member _ _ _ Ef) as [Hin Hp]. subst p.
  rewrite Forall_forall in F. pose proof (F cand Hin) as Fc.
  destruct Fc as (Rc & Fv & Ac & Bc & Cc).
  destruct (effective_rate64 cand Rc) as [Uk Zk]. f64.
  change (unit64 k) in Uk. change (status cand <> Active -> B2Q k <= 0) in Zk.
  destruct (transfer64 v k Uv Uk) as (Ft & Lt & Lk & Ur). fold t in Ft, Lt, Lk, Ur.
  pose proof (B2Q_nonneg _ Ft) as Nt. pose proof (B2Q_nonneg _ Fv) as Nv.
  destruct Uv as [Fvv Lv]. pose proof (B2Q_nonneg _ Fvv) as Nvv.
  assert (Bn : B2Q (votes cand) <= inject_Z n)
    by (apply Bc; left; reflexivity).
  assert (S1 : B2Q (votes cand) + B2Q t <= inject_Z (n + 1))
    by (rewrite inject_Z_succ; lra).
  destruct (float_add_le (votes cand) t (inject_Z (n + 1)) Fv Ft) as [Fs Ls];
    [apply representable_int; lia | exact S1 |].
  destruct (float_add_err (votes cand) t c Fv Ft) as [_ Ea];
    [lia | lra |].
  destruct (float_sub_err v t (-53) Fvv Ft Lt) as [_ Es];
    [unfold emin64; lia | rewrite F2Q_unit; lra |].
  split; [|split; [exact Ur|]].
  - apply Forall_forall. intros c' Hc'.
    unfold cs1, update_candidate in Hc'. apply in_map_iff in Hc'.
    destruct Hc' as [c0 [Ec Hc0]].
    destruct (String.eqb_spec (name c0) (name cand)) as [En|En].
    + assert (c0 = cand) by (eapply find_candidate_only; eauto).
      subst c0 c'.
      unfold walking64. cbn [set_votes votes keep_rate name].
      change (status (set_votes cand _)) with (status cand).
      split; [exact Rc|]. split; [exact Fs|]. split; [exact Ls|].
      split; [intros Hr; contradiction|].
      intros Ns.
      destruct (float_add_le (votes cand) t 0 Fv Ft representable_0)
        as [_ L0]; [|exact L0].
      pose proof (Cc Ns) as C0. pose proof (Zk Ns) as Z0. lra.
    + subst c'. apply walking64_weaken with (p := name cand).
      apply F, Hc0.
  - unfold cs1. rewrite (tally64_update _ _ _ _ N Ef).
    cbn [set_votes votes]. unfold step_error. split; lra.
Qed.

Lemma walking64_done n prefs (cs : list (Candidate num)) :
  Forall (walking64 n prefs) cs -> Forall (walking64 n []) cs.
Proof.
  apply Forall_impl. intros c (R & Fc & A & B & C).
  repeat split; auto; try (apply R; assumption). intros [].
Qed.

(** The walk over one ballot: the bounds, and the rounding it adds. *)
Lemma walk_preferences_err prefs : forall (v : float) cs cs' r n c,
  NoDup (map name cs) -> NoDup prefs ->
  (0 <= n < 2 ^ 53)%Z ->
  (emin64 <= c <= 0)%Z -> inject_Z (n + 1) <= F2Q (2 ^ 53) c ->
  Forall (walking64 n prefs) cs ->
  unit64 v ->
  walk_preferences prefs v cs = Ok (cs', r) ->
  Forall (walking64 n []) cs' /\ unit64 r /\
  - (inject_Z (Z.of_nat (length prefs)) * step_error c)
  <= (tally64 cs' + B2Q r) - (tally64 cs + B2Q v) /\
  (tally64 cs' + B2Q r) - (tally64 cs + B2Q v)
  <= inject_Z (Z.of_nat (length prefs)) * step_error c.
Proof.
  assert (Es : forall c, 0 <= step_error c).
  { intros c. unfold step_error.
    pose proof (pow2_pos c). pose proof (pow2_pos (-53)). lra. }
  induction prefs as [|p prefs IH]; cbn [walk_preferences];
    intros v cs cs' r n c N Np Hn Hc Hg F Uv H.
  - inversion H; subst. split; [exact F|]. split; [exact Uv|].
    cbn [length]. change (inject_Z (Z.of_nat 0)) with 0. split; lra.
  - assert (L0 : 0 <= inject_Z (Z.of_nat (length (p :: prefs))) * step_error c).
    { apply Qmult_le_0_compat; [|apply Es].
      change 0 with (inject_Z 0). rewrite <- Zle_Qle. lia. }
    match type of H with
    | (if ?b then _ else _) = _ => destruct b
    end.
    + inversion H; subst. split; [eapply walking64_done; exact F|].
      split; [exact Uv|]. split; lra.
    + destruct (find_candidate p cs) as [cand|] eqn:Ef; [|discriminate].
      cbv zeta in H. f64.
      inversion Np as [|? ? Hnp Np']; subst.
      destruct (walk_step64 p prefs v cs cand n c N Hnp Hn Hc Hg F Uv Ef)
        as (F1 & U1 & E1 & E2).
      match type of H with
      | walk_preferences _ ?vv ?cc = _ =>
          set (v1 := vv) in *; set (cs1 := cc) in *
      end.
      change (Forall (walking64 n prefs) cs1) in F1.
      change (unit64 v1) in U1.
      change (- step_error c
              <= tally64 cs1 + B2Q v1 - (tally64 cs + B2Q v)) in E1.
      change (tally64 cs1 + B2Q v1 - (tally64 cs + B2Q v)
              <= step_error c) in E2.
      assert (N1 : NoDup (map name cs1)).
      { unfold cs1. rewrite update_candidate_map; [exact N | reflexivity]. }
      destruct (IH v1 cs1 cs' r n c N1 Np' Hn Hc Hg F1 U1 H)
        as (F2 & U2 & E3 & E4).
      split; [exact F2|]. split; [exact U2|].
      cbn [length]. rewrite Nat2Z.inj_succ. unfold Z.succ.
      rewrite inject_Z_plus. change (inject_Z 1) with 1.
      split; lra.
Qed.

Lemma grid_0 n : (0 <= n < 2 ^ 53)%Z -> inject_Z (n + 1) <= F2Q (2 ^ 53) 0.
Proof.
  intros Hn. unfold F2Q. change (pow2 0) with 1. rewrite Qmult_1_r.
  rewrite <- Zle_Qle. lia.
Qed.

Lemma walk_preferences64 prefs : forall (v : float) cs cs' r n,
  NoDup (map name cs) -> NoDup prefs ->
  (0 <= n < 2 ^ 53)%Z ->
  Forall (walking64 n prefs) cs ->
  unit64 v ->
  walk_preferences prefs v cs = Ok (cs', r) ->
  Forall (walking64 n []) cs' /\ unit64 r.
Proof.
  intros v cs cs' r n N Np Hn F Uv H.
  destruct (walk_preferences_err prefs v cs cs' r n 0 N Np Hn
              ltac:(unfold emin64; lia) (grid_0 n Hn) F Uv H)
    as (F' & U' & _).
  auto.
Qed.

Lemma walking64_of_counted n prefs (c : Candidate num) :
  (0 <= n)%Z ->
  (status c = Active -> unit64 (keep_rate c)) ->
  counted64 n c -> walking64 n prefs c.
Proof.
  intros Hn R (F & L & Z). unfold walking64.
  split; [exact R|]. split; [exact F|].
  split; [rewrite inject_Z_succ; lra|]. split; [intros _; exact L|].
  intros N. rewrite (Z N). apply Qle_refl.
Qed.

Lemma counted64_of_walking n (c : Candidate num) :
  walking64 n [] c ->
  (status c = Active -> unit64 (keep_rate c)) /\ counted64 (n + 1) c.
Proof.
  intros (R & F & A & _ & C). split; [exact R|]. unfold counted64.
  split; [exact F|]. split; [exact A|].
  intros N. apply Qle_antisym; [exact (C N) | apply B2Q_nonneg, F].
Qed.

Lemma counted64_mono n m (c : Candidate num) :
  (n <= m)%Z -> counted64 n c -> counted64 m c.
Proof.
  intros L (F & B & Z). unfold counted64. split; [exact F|].
  split; [|exact Z]. rewrite Zle_Qle in L. lra.
Qed.

Lemma step_error_nonneg c : 0 <= step_error c.
Proof.
  unfold step_error. pose proof (pow2_pos c). pose proof (pow2_pos (-53)).
  lra.
Qed.

(** The walk over the ballots: the bounds, and the rounding it adds. *)
Lemma walk_votes_err vs : forall cs cs' (rs : list float) n c,
  NoDup (map name cs) ->
  Forall (fun v => NoDup (preferences v)) vs ->
  (0 <= n)%Z -> (n + Z.of_nat (length vs) <= 2 ^ 53)%Z ->
  (emin64 <= c <= 0)%Z ->
  inject_Z (n + Z.of_nat (length vs)) <= F2Q (2 ^ 53) c ->
  rates64 cs -> Forall (counted64 n) cs ->
  walk_votes vs cs = Ok (cs', rs) ->
  rates64 cs' /\
  Forall (counted64 (n + Z.of_nat (length vs))) cs' /\
  Forall unit64 rs /\
  length rs = length vs /\
  - (inject_Z (preferences_count vs) * step_error c)
  <= (tally64 cs' + remainders64 rs)
     - (tally64 cs + inject_Z (Z.of_nat (length vs))) /\
  (tally64 cs' + remainders64 rs)
  - (tally64 cs + inject_Z (Z.of_nat (length vs)))
  <= inject_Z (preferences_count vs) * step_error c.
Proof.
  induction vs as [|v vs IH]; intros cs cs' rs n c N Nv Hn Hb Hc Hg R C H.
  - simpl in H. inversion H; subst. split; [exact R|].
    split.
    { eapply Forall_impl; [|exact C]. intros c0. apply counted64_mono.
      simpl. lia. }
    split; [constructor|]. split; [reflexivity|].
    change (remainders64 []) with 0.
    change (inject_Z (Z.of_nat (length (@nil Vote)))) with 0.
    change (inject_Z (preferences_count [])) with 0.
    split; lra.
  - cbn [walk_votes] in H.
    apply bind_Ok in H. destruct H as [[cs1 r1] [H1 H]].
    apply bind_Ok in H. destruct H as [[cs2 rs2] [H2 H]].
    simpl in H. inversion H; subst. simpl in H2. clear H.
    inversion Nv as [|? ? Np Nv']; subst.
    cbn [length] in Hb, Hg. rewrite Nat2Z.inj_succ in Hb, Hg.
    assert (N1 : NoDup (map name cs1)).
    { erewrite walk_preferences_map; [exact N| |exact H1].
      intros c0 x; reflexivity. }
    assert (W0 : Forall (walking64 n (preferences v)) cs).
    { unfold rates64 in R. rewrite Forall_forall in R, C |- *.
      intros c0 Hc0. apply walking64_of_counted; auto. }
    assert (Hg1 : inject_Z (n + 1) <= F2Q (2 ^ 53) c).
    { eapply Qle_trans; [|exact Hg]. rewrite <- Zle_Qle. lia. }
    destruct (walk_preferences_err _ _ _ _ _ n c N Np ltac:(lia) Hc Hg1
                W0 (proj1 one64) H1) as (W1 & U1 & E1 & E2).
    assert (R1 : rates64 cs1).
    { unfold rates64. eapply Forall_impl; [|exact W1].
      intros c0 Wc. apply (counted64_of_walking n c0 Wc). }
    assert (C1 : Forall (counted64 (n + 1)) cs1).
    { eapply Forall_impl; [|exact W1].
      intros c0 Wc. apply (counted64_of_walking n c0 Wc). }
    assert (Hg2 : inject_Z (n + 1 + Z.of_nat (length vs)) <= F2Q (2 ^ 53) c).
    { eapply Qle_trans; [|exact Hg]. rewrite <- Zle_Qle. lia. }
    destruct (IH cs1 cs' rs2 (n + 1)%Z c N1 Nv' ltac:(lia) ltac:(lia) Hc Hg2
                R1 C1 H2) as (R2 & C2 & U2 & L2 & E3 & E4).
    split; [exact R2|].
    split.
    { cbn [length]. rewrite Nat2Z.inj_succ.
      replace (n + Z.succ (Z.of_nat (length vs)))%Z
        with (n + 1 + Z.of_nat (length vs))%Z by lia.
      exact C2. }
    split; [constructor; assumption|].
    split; [cbn [length]; rewrite L2; reflexivity|].
    f64. rewrite (proj2 one64) in E1, E2.
    change (remainders64 (r1 :: rs2)) with (B2Q r1 + remainders64 rs2).
    change (preferences_count (v :: vs))
      with (Z.of_nat (length (preferences v)) + preferences_count vs)%Z.
    cbn [length]. rewrite Nat2Z.inj_succ. unfold Z.succ.
    rewrite !inject_Z_plus. change (inject_Z 1) with 1.
    split; lra.
Qed.

Lemma walk_votes64 vs : forall cs cs' (rs : list float) n,
  NoDup (map name cs) ->
  Forall (fun v => NoDup (preferences v)) vs ->
  (0 <= n)%Z -> (n + Z.of_nat (length vs) <= 2 ^ 53)%Z ->
  rates64 cs -> Forall (counted64 n) cs ->
  walk_votes vs cs = Ok (cs', rs) ->
  rates64 cs' /\
  Forall (counted64 (n + Z.of_nat (length vs))) cs' /\
  Forall unit64 rs.
Proof.
  intros cs cs' rs n N Nv Hn Hb R C H.
  destruct (walk_votes_err vs cs cs' rs n 0 N Nv Hn Hb
              ltac:(unfold emin64; lia)) as (R' & C' & U' & _); auto.
  unfold F2Q. change (pow2 0) with 1. rewrite Qmult_1_r.
  rewrite <- Zle_Qle. exact Hb.
Qed.

Lemma zero_votes64 (cs : list (Candidate num)) :
  rates64 cs ->
  rates64 (zero_votes cs) /\ Forall (counted64 0) (zero_votes cs).
Proof.
  intros R. unfold rates64, zero_votes in *. rewrite !Forall_forall in *.
  split; intros c' Hc'; apply in_map_iff in Hc';
    destruct Hc' as [c [<- Hc]].
  - exact (R c Hc).
  - unfold counted64. cbn [set_votes votes]. f64.
    destruct zero64 as [F0 V0]. split; [exact F0|].
    split; [rewrite V0; apply Qle_refl | intros _; exact V0].
Qed.

(** What a pass of [_recalculate_votes] gives in binary64 when the keep
    rates of the Active candidates are between 0 and 1. *)
Lemma recalculate64 (s : SingleTransferableVote num) :
  well_formed s -> ballots_ok s -> rates64 (candidates s) ->
  exists s' rs,
    _recalculate_votes s = Ok s' /\
    walk_votes (ballots s) (zero_votes (candidates s))
    = Ok (candidates s', rs) /\
    rates64 (candidates s') /\
    Forall (counted64 (Z.of_nat (length (ballots s)))) (candidates s') /\
    Forall unit64 rs.
Proof.
  intros W [Bn Bl] R. pose proof W as [N _].
  destruct (recalculate_total s W) as [s' Hs'].
  pose proof Hs' as Hr. unfold _recalculate_votes in Hr.
  apply bind_Ok in Hr. destruct Hr as [[cs' rs] [Hw Hr]].
  simpl in Hr. inversion Hr; subst s'. clear Hr.
  assert (N0 : NoDup (map name (zero_votes (candidates s)))).
  { rewrite zero_votes_map; [exact N | intros c x; reflexivity]. }
  destruct (zero_votes64 _ R) as [R0 C0].
  destruct (walk_votes64 _ _ _ _ 0%Z N0 Bn ltac:(lia) ltac:(lia) R0 C0 Hw)
    as (R1 & C1 & U1).
  exists (set_candidates s cs'), rs. cbn [candidates set_candidates].
  split; [exact Hs'|]. split; [exact Hw|]. split; [exact R1|].
  split; [exact C1 | exact U1].
Qed.

Lemma tally64_zero_votes (cs : list (Candidate num)) :
  tally64 (zero_votes cs) == 0.
Proof.
  unfold tally64, zero_votes. induction cs as [|c cs IH]; [reflexivity|].
  cbn [map set_votes votes]. f64.
  change (B2Q (float_of_int 0) + total (map (fun c0 => B2Q (votes c0))
            (map (fun c0 => set_votes c0 (float_of_int 0)) cs)) == 0).
  f64. rewrite IH, (proj2 zero64). reflexivity.
Qed.

Lemma grid_K K :
  (0 <= K)%Z -> F2Q (2 ^ 53) (K - 53) == inject_Z (2 ^ K).
Proof.
  intros HK. rewrite <- (Z.mul_1_l (2 ^ 53)).
  rewrite F2Q_shift by lia. replace (K - 53 + 53)%Z with K by lia.
  unfold F2Q. rewrite (pow2_Z K HK). ring.
Qed.

Lemma step_error_value K :
  (0 <= K)%Z ->
  step_error (K - 53) == (inject_Z (2 ^ K) + 1) / inject_Z (2 ^ 53).
Proof.
  intros HK. unfold step_error.
  replace (K - 53)%Z with (K + -53)%Z by lia.
  rewrite pow2_add, (pow2_Z K HK).
  assert (E : pow2 (-53) == 1 / inject_Z (2 ^ 53))
    by (vm_compute; reflexivity).
  rewrite E. field. discriminate.
Qed.

(** A pass of [_recalculate_votes] in binary64: the bounds, and how far
    the votes and the remainders together are from the number of
    ballots. *)
Lemma recalculate_err (s : SingleTransferableVote num) (K : Z) :
  well_formed s -> ballots_ok s -> rates64 (candidates s) ->
  (0 <= K <= 53)%Z -> (Z.of_nat (length (ballots s)) <= 2 ^ K)%Z ->
  exists cs' rs,
    walk_votes (ballots s) (zero_votes (candidates s)) = Ok (cs', rs) /\
    _recalculate_votes s = Ok (set_candidates s cs') /\
    length rs = length (ballots s) /\
    rates64 cs' /\
    Forall (counted64 (Z.of_nat (length (ballots s)))) cs' /\
    Forall unit64 rs /\
    - (inject_Z (preferences_count (ballots s)) * step_error (K - 53))
    <= tally64 cs' + remainders64 rs
       - inject_Z (Z.of_nat (length (ballots s))) /\
    tally64 cs' + remainders64 rs - inject_Z (Z.of_nat (length (ballots s)))
    <= inject_Z (preferences_count (ballots s)) * step_error (K - 53).
Proof.
  intros W [Bn Bl] R HK HN. pose proof W as [N _].
  destruct (recalculate_total s W) as [s' Hs'].
  pose proof Hs' as Hr. unfold _recalculate_votes in Hr.
  apply bind_Ok in Hr. destruct Hr as [[cs' rs] [Hw Hr]].
  simpl in Hr. inversion Hr; subst s'. clear Hr.
  assert (N0 : NoDup (map name (zero_votes (candidates s)))).
  { rewrite zero_votes_map; [exact N | intros c x; reflexivity]. }
  destruct (zero_votes64 _ R) as [R0 C0].
  assert (Hg : inject_Z (0 + Z.of_nat (length (ballots s)))
               <= F2Q (2 ^ 53) (K - 53)).
  { rewrite grid_K by lia. rewrite <- Zle_Qle. lia. }
  destruct (walk_votes_err _ _ _ _ 0%Z (K - 53)%Z N0 Bn ltac:(lia) ltac:(lia)
              ltac:(unfold emin64; lia) Hg R0 C0 Hw)
    as (R1 & C1 & U1 & L1 & E1 & E2).
  rewrite tally64_zero_votes in E1, E2.
  exists cs', rs.
  split; [exact Hw|]. split; [exact Hs'|]. split; [exact L1|].
  split; [exact R1|]. split; [exact C1|]. split; [exact U1|].
  split; lra.
Qed.

(** ** Python's comparisons and the values *)

Lemma fin_0 : fin 0%float /\ B2Q 0%float == 0.
Proof. split; [exact I | reflexivity]. Qed.

Lemma fin_1 : fin 1%float /\ B2Q 1%float == 1.
Proof. split; [exact I | vm_compute; reflexivity]. Qed.

(** What lies between two finite numbers that are not negative is one. *)
Lemma between_fin (lo x hi : float) :
  fin lo -> fin hi -> le64 lo x -> le64 x hi -> fin x.
Proof.
  unfold fin, le64. rewrite !leb_spec. unfold SFleb.
  destruct (Prim2SF lo) as [sl|sl| |sl ml el]; try contradiction;
    destruct (Prim2SF hi) as [sh|sh| |sh mh eh]; try contradiction;
    destruct (Prim2SF x) as [sx|sx| |sx mx ex];
    try (destruct sl; [contradiction|]);
    try (destruct sh; [contradiction|]);
    try (destruct sx); cbn; intros; try discriminate; exact I.
Qed.

Lemma le64_fin (x y : float) :
  fin x -> fin y -> (le64 x y <-> B2Q x <= B2Q y).
Proof. intros Fx Fy. apply float_leb_fin; assumption. Qed.

Lemma unit64_le (x : float) : unit64 x <-> le64 0 x /\ le64 x 1.
Proof.
  destruct fin_0 as [F0 V0]. destruct fin_1 as [F1 V1]. split.
  - intros [F L]. split.
    + apply le64_fin; auto. rewrite V0. apply B2Q_nonneg, F.
    + apply le64_fin; auto. rewrite V1. exact L.
  - intros [L0 L1].
    assert (F : fin x) by exact (between_fin 0%float x 1%float F0 F1 L0 L1).
    split; [exact F|]. rewrite <- V1. apply le64_fin; auto.
Qed.

(** ** The keep rates *)

Lemma quota64 q : (0 <= q < 2 ^ 63)%Z -> fin (float_of_int q).
Proof. apply float_of_int_fin. Qed.

(** Above a quota that is not negative the division is defined, and the
    factor is between 0 and 1. *)
Lemma over_quota64 q (v : float) :
  (0 <= q < 2 ^ 63)%Z -> fin v ->
  (float_of_int q <? v)%float = true ->
  float_div (float_of_int q) v = Some (float_of_int q / v)%float /\
  unit64 (float_of_int q / v)%float.
Proof.
  intros Hq Fv L. pose proof (quota64 q Hq) as Fq.
  apply (float_ltb_fin _ _ Fq Fv) in L.
  pose proof (B2Q_nonneg _ Fq) as Nq.
  assert (Pv : 0 < B2Q v) by lra.
  split.
  - unfold float_div. destruct (v =? 0)%float eqn:E; [|reflexivity].
    apply (float_eqb_fin v 0%float Fv (proj1 fin_0)) in E.
    rewrite (proj2 fin_0) in E. lra.
  - apply (float_div_le _ _ 1 Fq Fv Pv representable_1).
    apply Qle_shift_div_r; [exact Pv | lra].
Qed.

Lemma shrink64_total q (c : Candidate num) :
  (0 <= q < 2 ^ 63)%Z -> fin (votes c) ->
  exists c', shrink q c = Ok c'.
Proof.
  intros Hq Fv. unfold shrink. f64.
  destruct (is_active c && (float_of_int q <? votes c)%float) eqn:E;
    [|eauto].
  apply andb_true_iff in E. destruct E as [_ E].
  destruct (over_quota64 q (votes c) Hq Fv E) as [D _].
  rewrite D. eauto.
Qed.

Lemma shrink64 q (c0 c c' : Candidate num) :
  (0 <= q < 2 ^ 63)%Z ->
  ident c = ident c0 -> keep_rate c = keep_rate c0 ->
  (status c0 = Active -> unit64 (keep_rate c0)) ->
  fin (votes c) ->
  shrink q c = Ok c' ->
  shrinks64 q c0 c' /\ votes c' = votes c /\
  (status c' = Active -> unit64 (keep_rate c')).
Proof.
  intros Hq Hi Hk R Fv H.
  assert (Hn : name c = name c0) by (unfold ident in Hi; congruence).
  assert (Hs : status c = status c0).
  { unfold ident, status in *. injection Hi as _ Hw Hl.
    rewrite Hw, Hl. reflexivity. }
  unfold shrink in H. f64. unfold shrinks64, over_quota. f64.
  destruct (is_active c) eqn:Ea; cbn [andb] in H.
  - assert (Sa : status c0 = Active)
      by (rewrite <- Hs; apply status_active, Ea).
    pose proof (R Sa) as U.
    destruct (float_of_int q <? votes c)%float eqn:E.
    + destruct (over_quota64 q (votes c) Hq Fv E) as [D Uf].
      rewrite D in H. inversion H; subst c'. clear H.
      cbn [set_keep_rate name votes keep_rate].
      change (status (set_keep_rate c _)) with (status c).
      rewrite Hk in *.
      destruct U as [Fk Lk]. pose proof Uf as [Ff Lf].
      pose proof (B2Q_nonneg _ Fk). pose proof (B2Q_nonneg _ Ff).
      destruct (float_mul_le (keep_rate c0) (float_of_int q / votes c)%float
                  (B2Q (keep_rate c0)) Fk Ff (representable_B2Q _ Fk))
        as [Fm Lm]; [nra|].
      assert (Um : unit64 (keep_rate c0 * (float_of_int q / votes c))%float)
        by (split; [exact Fm | lra]).
      split; [|split; [reflexivity | intros _; exact Um]].
      split; [exact Hn|]. split; [exact Hs|].
      split; [|intros N; congruence].
      intros _. apply unit64_le in Um. apply unit64_le in Uf.
      split; [apply Um|]. split; [apply le64_fin; assumption|].
      split; [apply (unit64_le (keep_rate c0)); split; assumption|].
      rewrite E. split; [|intros X; discriminate X].
      intros _. split; [apply Uf|]. split; [apply Uf | reflexivity].
    + inversion H; subst c'. clear H. rewrite Hk.
      split; [|split; [reflexivity | intros _; exact U]].
      split; [exact Hn|]. split; [exact Hs|].
      split; [|intros N; congruence].
      intros _. pose proof U as U'. apply unit64_le in U'.
      split; [apply U'|]. split; [apply le64_fin; try apply U; apply Qle_refl|].
      split; [apply U'|]. rewrite E.
      split; [intros X; discriminate X | reflexivity].
  - inversion H; subst c'. clear H.
    assert (Sn : status c0 <> Active).
    { rewrite <- Hs. apply not_active_status, Ea. }
    split; [|split; [reflexivity|]].
    + split; [exact Hn|]. split; [exact Hs|].
      split; [intros X; contradiction | intros _; exact Hk].
    + intros X. rewrite Hs in X. contradiction.
Qed.

Lemma Forall2_right {X : Type} (R : X -> X -> Prop) (P : X -> Prop) l l' :
  Forall2 R l l' -> (forall a b, R a b -> P b) -> Forall P l'.
Proof.
  intros H HP. induction H; constructor; eauto.
Qed.

Lemma Forall2_with {X : Type} (R : X -> X -> Prop) (P : X -> Prop) l l' :
  Forall2 R l l' -> Forall P l -> Forall2 (fun a b => P a /\ R a b) l l'.
Proof.
  intros H. induction H; intros F; inversion F; subst; constructor; auto.
Qed.

Lemma Forall2_with_r {X : Type} (R : X -> X -> Prop) (P : X -> Prop) l l' :
  Forall2 R l l' -> Forall P l' -> Forall2 (fun a b => R a b /\ P b) l l'.
Proof.
  intros H. induction H; intros F; inversion F; subst; constructor; auto.
Qed.

Lemma shrink_keep_rates64_total q (cs : list (Candidate num)) :
  (0 <= q < 2 ^ 63)%Z -> Forall (fun c => fin (votes c)) cs ->
  exists cs', shrink_keep_rates q cs = Ok cs'.
Proof.
  intros Hq F. induction F as [|c cs Fc _ [cs' IH]]; simpl; eauto.
  destruct (shrink64_total q c Hq Fc) as [c' Hc].
  rewrite Hc, IH. simpl. eauto.
Qed.

(** One pass of the body of the convergence loop, in binary64. *)
Lemma meek_step64 (s : SingleTransferableVote num) :
  well_formed s -> ballots_ok s ->
  (0 <= droop_quota s < 2 ^ 63)%Z ->
  rates64 (candidates s) ->
  exists s',
    meek_step s = Ok s' /\
    rates64 (candidates s') /\
    Forall (counted64 (Z.of_nat (length (ballots s)))) (candidates s') /\
    Forall2 (shrinks64 (droop_quota s)) (candidates s) (candidates s').
Proof.
  intros W B Hq R.
  destruct (recalculate64 s W B R) as (s1 & rs & H1 & _ & R1 & C1 & _).
  pose proof (recalculate_static _ _ H1) as (_ & _ & Hq1 & _).
  assert (Fv : Forall (fun c : Candidate num => fin (votes c)) (candidates s1)).
  { eapply Forall_impl; [|exact C1]. intros c (F & _). exact F. }
  destruct (shrink_keep_rates64_total (droop_quota s1) (candidates s1))
    as [cs H2]; [lia | exact Fv |].
  exists (set_candidates s1 cs). unfold meek_step. rewrite H1. cbn [bind].
  rewrite H2. cbn [bind candidates set_candidates].
  split; [reflexivity|].
  assert (Hp : map (fun c => (ident c, keep_rate c)) (candidates s1)
               = map (fun c => (ident c, keep_rate c)) (candidates s)).
  { eapply recalculate_map; [|exact H1]. intros c v; reflexivity. }
  apply map_eq_Forall2 in Hp.
  apply shrink_keep_rates_Forall2 in H2. rewrite Hq1 in H2.
  pose proof (Forall2_with _ _ _ _ Hp R) as Hp'.
  pose proof (Forall2_with _ _ _ _ H2 C1) as H2'.
  assert (G : Forall2 (fun c0 c' =>
                shrinks64 (droop_quota s) c0 c' /\
                counted64 (Z.of_nat (length (ballots s))) c' /\
                (status c' = Active -> unit64 (keep_rate c')))
                (candidates s) cs).
  { eapply Forall2_compose; [|exact Hp'|exact H2'].
    intros c0 c c' [R0 E] [(Fc & Lc & Zc) Hs].
    assert (Hi : ident c = ident c0) by congruence.
    assert (Hk : keep_rate c = keep_rate c0) by congruence.
    destruct (shrink64 _ c0 c c' Hq Hi Hk R0 Fc Hs) as (S1 & S2 & S3).
    split; [exact S1|]. split; [|exact S3].
    destruct S1 as (_ & Es & _).
    assert (Es' : status c' = status c).
    { rewrite Es. unfold ident, status in *. injection Hi as _ Hw Hl.
      rewrite Hw, Hl. reflexivity. }
    unfold counted64. rewrite S2, Es'. auto. }
  split; [|split].
  - unfold rates64. eapply Forall2_right; [exact G|].
    intros a b (_ & _ & U). exact U.
  - eapply Forall2_right; [exact G|]. intros a b (_ & C & _). exact C.
  - eapply Forall2_impl; [|exact G]. intros a b (S1 & _). exact S1.
Qed.

Lemma reset_rates64 (s : SingleTransferableVote num) :
  rates64 (candidates (reset_keep_rates s)).
Proof.
  unfold rates64. simpl. apply Forall_forall. intros c Hc.
  apply in_map_iff in Hc. destruct Hc as [c0 [Hc0 _]]. subst c.
  destruct (is_active c0) eqn:E.
  - intros _. cbn [set_keep_rate keep_rate]. f64. apply one64.
  - intros Hs. apply status_active in Hs. congruence.
Qed.

Lemma ballots_ok_static (s s' : SingleTransferableVote num) :
  static s s' -> ballots_ok s -> ballots_ok s'.
Proof.
  intros (Eb & _) B. unfold ballots_ok. rewrite Eb. exact B.
Qed.

(** What holds after any number of passes. *)
Lemma meek_iterations64 k : forall s s' : SingleTransferableVote num,
  well_formed s -> ballots_ok s ->
  (0 <= droop_quota s < 2 ^ 63)%Z ->
  rates64 (candidates s) ->
  meek_iterations k s = Ok s' ->
  well_formed s' /\ ballots_ok s' /\ droop_quota s' = droop_quota s /\
  rates64 (candidates s').
Proof.
  induction k as [|k IH]; simpl; intros s s' W B Hq R H.
  - inversion H; subst. auto.
  - apply bind_Ok in H. destruct H as [s1 [H1 H]].
    destruct (meek_step64 s W B Hq R) as (s1' & E & R1 & _).
    rewrite H1 in E. inversion E; subst s1'. clear E.
    pose proof (meek_step_static _ _ H1) as St.
    pose proof St as (_ & _ & Hq1 & _).
    assert (W1 : well_formed s1) by (eapply static_well_formed; eauto).
    assert (B1 : ballots_ok s1) by (eapply ballots_ok_static; eauto).
    assert (Q1 : (0 <= droop_quota s1 < 2 ^ 63)%Z) by lia.
    destruct (IH s1 s' W1 B1 Q1 R1 H) as (W' & B' & Q' & R').
    split; [exact W'|]. split; [exact B'|]. split; [lia | exact R'].
Qed.

Lemma meek_for64 n : forall s : SingleTransferableVote num,
  well_formed s -> ballots_ok s ->
  (0 <= droop_quota s < 2 ^ 63)%Z ->
  rates64 (candidates s) ->
  exists s', meek_for n s = Ok s' /\ rates64 (candidates s').
Proof.
  induction n as [|n IH]; simpl; intros s W B Hq R; eauto.
  destruct (meek_step64 s W B Hq R) as (s1 & H1 & R1 & _).
  rewrite H1. cbn [bind].
  match goal with |- context [if ?b then _ else _] => destruct b end; eauto.
  pose proof (meek_step_static _ _ H1) as St.
  pose proof St as (_ & _ & Hq1 & _).
  assert (W1 : well_formed s1) by (eapply static_well_formed; eauto).
  assert (B1 : ballots_ok s1) by (eapply ballots_ok_static; eauto).
  assert (Q1 : (0 <= droop_quota s1 < 2 ^ 63)%Z) by lia.
  exact (IH s1 W1 B1 Q1 R1).
Qed.

(** The convergence loop raises nothing in binary64 and ends on a count
    within bounds. *)
Lemma run_meek_iteration64 (s : SingleTransferableVote num) :
  well_formed s -> ballots_ok s ->
  (0 <= droop_quota s < 2 ^ 63)%Z ->
  exists s',
    _run_meek_iteration s = Ok s' /\
    rates64 (candidates s') /\
    Forall (counted64 (Z.of_nat (length (ballots s)))) (candidates s').
Proof.
  intros W B Hq. unfold _run_meek_iteration.
  assert (Wr : well_formed (reset_keep_rates s))
    by (eapply static_well_formed; [apply reset_static | exact W]).
  assert (Br : ballots_ok (reset_keep_rates s)) by exact B.
  destruct (meek_for64 MAX_ITERATIONS (reset_keep_rates s) Wr Br Hq
              (reset_rates64 s)) as (s1 & H1 & R1).
  rewrite H1. cbn [bind].
  pose proof (meek_for_static _ _ _ H1) as St.
  assert (W1 : well_formed s1) by (eapply static_well_formed; eauto).
  assert (B1 : ballots_ok s1) by (eapply ballots_ok_static; eauto).
  destruct (recalculate64 s1 W1 B1 R1) as (s' & rs & H2 & _ & R2 & C2 & _).
  exists s'. split; [exact H2|]. split; [exact R2|].
  destruct St as (Eb & _). simpl in Eb. rewrite <- Eb. exact C2.
Qed.

(** ** The rounds *)

(** A candidate with finite votes passes the tie test against its own
    votes: the difference is +0. *)
Lemma tied_self64 (c : Candidate num) :
  fin (votes c) -> tied (votes c) c = true.
Proof.
  intros F. unfold tied. f64.
  rewrite ltb_spec, abs_spec, (float_sub_self _ F). reflexivity.
Qed.

(** With an Active candidate left and finite votes, [_eliminate_loser]
    eliminates one. *)
Lemma eliminate_loser_decreases64 (s : SingleTransferableVote num) :
  Forall (fun c => fin (votes c)) (candidates s) ->
  active_candidates s <> [] ->
  (length (active_candidates (_eliminate_loser s))
   < length (active_candidates s))%nat.
Proof.
  intros Fv Hne. unfold _eliminate_loser.
  destruct (map votes (active_candidates s)) as [|v vs] eqn:E.
  - destruct (active_candidates s); [contradiction | discriminate].
  - pose proof (py_min_In v vs) as Hm. rewrite <- E in Hm.
    apply in_map_iff in Hm. destruct Hm as [c [Hv Hc]].
    unfold active_candidates in Hc. apply filter_In in Hc.
    destruct Hc as [Hin Hact].
    unfold active_candidates at 1, set_candidates. cbn [candidates].
    set (m := py_min v vs) in *.
    change (map _ (candidates s)) with (map (eliminate m) (candidates s)).
    assert (L : length (filter is_active (map (eliminate m) (candidates s)))
                = length (filter (fun c => is_active (eliminate m c))
                            (candidates s))).
    { clear. induction (candidates s) as [|c0 cs IH]; simpl; [reflexivity|].
      destruct (is_active (eliminate m c0)); simpl; rewrite IH; reflexivity. }
    rewrite L.
    apply filter_length_lt with (x := c).
    + intros [n0 v0 w l k0]. unfold eliminate, is_active.
      cbn [is_winner is_loser]. destruct w, l; cbn [negb andb]; auto.
    + exact Hin.
    + exact Hact.
    + rewrite Forall_forall in Fv.
      unfold eliminate. rewrite Hact. rewrite <- Hv.
      rewrite (tied_self64 c (Fv c Hin)). simpl.
      unfold is_active. simpl. apply andb_false_r.
Qed.

Lemma counted64_fin n (cs : list (Candidate num)) :
  Forall (counted64 n) cs -> Forall (fun c => fin (votes c)) cs.
Proof. apply Forall_impl. intros c (F & _). exact F. Qed.

Lemma eliminate_loser_ballots_ok (s : SingleTransferableVote num) :
  ballots_ok s -> ballots_ok (_eliminate_loser s).
Proof.
  intros B. pose proof (eliminate_config s) as C. unfold config in C.
  unfold ballots_ok. assert (E : ballots (_eliminate_loser s) = ballots s)
    by congruence.
  rewrite E. exact B.
Qed.

Lemma main_loop_ends64 n : forall s : SingleTransferableVote num,
  (length (active_candidates s) <= n)%nat ->
  well_formed s -> ballots_ok s ->
  (0 <= droop_quota s < 2 ^ 63)%Z ->
  (0 <= num_winners s)%Z ->
  exists s', _run_main_loop (S n) s = Some (Ok s').
Proof.
  induction n as [|n IH]; intros s Hn W B Hq Hw;
    destruct (run_meek_iteration64 s W B Hq) as (s1 & H1 & R1 & C1);
    pose proof (run_meek_iteration_static _ _ H1) as St;
    cbn [_run_main_loop]; unfold main_loop_body, _run_single_round;
    rewrite H1; cbn [bind];
    destruct (Z.leb_spec (Z.of_nat (length (active_candidates s)))
                (num_winners s)) as [L|L]; eauto; try lia.
  assert (Hlen : length (active_candidates s1) = length (active_candidates s)).
  { destruct St as (_ & _ & _ & Hi). apply map_ident_length, Hi. }
  assert (Hne : active_candidates s1 <> []).
  { intros E. rewrite E in Hlen. simpl in Hlen. lia. }
  pose proof (eliminate_loser_decreases64 s1 (counted64_fin _ _ C1) Hne) as Hd.
  pose proof (eliminate_config s1) as C. unfold config in C.
  destruct St as (Eb & Hw1 & Hq1 & _).
  apply IH.
  - lia.
  - apply eliminate_loser_well_formed.
    eapply static_well_formed; [|exact W]. repeat split; auto.
    apply (run_meek_iteration_static _ _ H1).
  - apply eliminate_loser_ballots_ok. unfold ballots_ok. rewrite Eb. exact B.
  - assert (droop_quota (_eliminate_loser s1) = droop_quota s1) by congruence.
    lia.
  - assert (num_winners (_eliminate_loser s1) = num_winners s1) by congruence.
    lia.
Qed.

Lemma rounds_invariant64 (s2 s : SingleTransferableVote num) :
  rounds s2 s ->
  well_formed s2 -> ballots_ok s2 ->
  well_formed s /\ ballots_ok s /\ config s = config s2.
Proof.
  intros H. induction H as [s|s s1 s' H1 H IH]; intros W B; [auto|].
  apply next_round_inv in H1. destruct H1 as [_ [sm [Hm He]]]. subst s1.
  pose proof (run_meek_iteration_static _ _ Hm) as St.
  destruct IH as (W' & B' & C').
  { apply eliminate_loser_well_formed.
    eapply static_well_formed; eauto. }
  { apply eliminate_loser_ballots_ok. eapply ballots_ok_static; eauto. }
  split; [exact W'|]. split; [exact B'|].
  rewrite C', eliminate_config. apply static_config, St.
Qed.

Lemma load_data_ballots_ok names W file :
  (Z.of_nat (length (ballots (_load_data (init names W) file))) < 2 ^ 53)%Z ->
  ballots_ok (_load_data (init names W) file).
Proof.
  intros Hn. split; [|exact Hn].
  destruct file as [lines|]; simpl; [|constructor].
  apply Forall_forall. intros v Hv.
  apply in_map_iff in Hv. destruct Hv as [prefs [Hp Hin]]. subst v.
  apply filter_In in Hin. destruct Hin as [_ Hin]. simpl.
  destruct prefs as [|p prefs]; [discriminate|].
  apply valid_prefs_spec in Hin. apply Hin.
Qed.

Lemma droop_quota_range (n W : Z) :
  (0 <= n < 2 ^ 53)%Z -> (0 <= W)%Z ->
  (1 <= n / (W + 1) + 1 < 2 ^ 63)%Z.
Proof.
  intros Hn HW.
  assert (0 <= n / (W + 1))%Z by (apply Z.div_pos; lia).
  assert (n / (W + 1) <= n)%Z
    by (apply Z.div_le_upper_bound; [lia | nia]).
  lia.
Qed.

(** C10.  In binary64: with at least one seat and at least one valid
    ballot, fewer than 2^53 of them, [run_election] on a freshly
    constructed election ends without an exception once the fuel exceeds
    the number of candidates; every round of the run that is not the
    terminal one leaves strictly fewer Active candidates than it found;
    and after the convergence loop of any round every candidate passes
    the tie test against its own votes, so the one that holds the minimum
    does. *)
Theorem main_loop_terminates64 (names : list string) (W : Z)
  (file : option (list (list string))) :
  (1 <= W)%Z ->
  ballots (_load_data (init names W) file) <> [] ->
  (Z.of_nat (length (ballots (_load_data (init names W) file))) < 2 ^ 53)%Z ->
  (exists s',
     run_election (S (length (dict_fromkeys names))) (init names W) file
     = Some (Ok s')) /\
  (forall s2 s s',
     _calculate_droop_quota (_load_data (init names W) file) = Ok s2 ->
     rounds s2 s ->
     next_round s s' ->
     (length (active_candidates s') < length (active_candidates s))%nat) /\
  (forall s2 s sm c,
     _calculate_droop_quota (_load_data (init names W) file) = Ok s2 ->
     rounds s2 s ->
     _run_meek_iteration s = Ok sm ->
     In c (candidates sm) ->
     tied (votes c) c = true).
Proof.
  intros HW Hne Hn.
  pose proof (load_data_ballots_ok names W file Hn) as B1.
  set (s1 := _load_data (init names W) file) in *.
  assert (W1 : well_formed s1) by apply load_data_well_formed.
  destruct (load_data_frame (init names W) file) as (Hc & Hw & _).
  fold s1 in Hc, Hw. simpl in Hw.
  assert (Hq : _calculate_droop_quota s1 =
               Ok (set_droop_quota s1
                     (Z.of_nat (length (ballots s1)) / (W + 1) + 1)%Z)).
  { rewrite calculate_droop_quota_Ok; rewrite Hw; [reflexivity | lia]. }
  set (s2 := set_droop_quota s1 _) in Hq.
  assert (W2 : well_formed s2) by exact W1.
  assert (B2 : ballots_ok s2) by exact B1.
  assert (Q2 : (1 <= droop_quota s2 < 2 ^ 63)%Z).
  { unfold s2. cbn [droop_quota set_droop_quota].
    apply droop_quota_range; lia. }
  split; [|split].
  - unfold run_election. fold s1. destruct (ballots s1) eqn:E;
      [contradiction|]. rewrite Hq.
    apply main_loop_ends64; [|exact W2|exact B2|lia|simpl; lia].
    unfold active_candidates.
    change (candidates s2) with (candidates s1). rewrite Hc.
    rewrite <- (init_names names W), length_map.
    generalize (candidates (init names W)). intros cs.
    induction cs as [|c cs IH]; simpl; [lia|].
    destruct (is_active c); simpl; lia.
  - intros s2' s s' Hq' Hr Hnr. rewrite Hq in Hq'. inversion Hq'; subst s2'.
    destruct (rounds_invariant64 _ _ Hr W2 B2) as (Ws & Bs & Cs).
    assert (Eq : droop_quota s = droop_quota s2)
      by (unfold config in Cs; congruence).
    assert (Ew : num_winners s = W)
      by (unfold config in Cs; injection Cs as _ Cw _; simpl in Cw;
          rewrite Cw; exact Hw).
    apply next_round_inv in Hnr. destruct Hnr as [L [sm [Hm He]]]. subst s'.
    destruct (run_meek_iteration64 s Ws Bs ltac:(lia)) as (sm' & E & _ & Cm).
    rewrite Hm in E. inversion E; subst sm'. clear E.
    pose proof (run_meek_iteration_static _ _ Hm) as St.
    assert (Hlen : length (active_candidates sm)
                   = length (active_candidates s)).
    { destruct St as (_ & _ & _ & Hi). apply map_ident_length, Hi. }
    rewrite <- Hlen.
    apply eliminate_loser_decreases64; [exact (counted64_fin _ _ Cm)|].
    intros E. rewrite E in Hlen. simpl in Hlen. lia.
  - intros s2' s sm c Hq' Hr Hm Hin. rewrite Hq in Hq'.
    inversion Hq'; subst s2'.
    destruct (rounds_invariant64 _ _ Hr W2 B2) as (Ws & Bs & Cs).
    assert (Eq : droop_quota s = droop_quota s2)
      by (unfold config in Cs; congruence).
    destruct (run_meek_iteration64 s Ws Bs ltac:(lia)) as (sm' & E & _ & Cm).
    rewrite Hm in E. inversion E; subst sm'. clear E.
    apply tied_self64.
    pose proof (counted64_fin _ _ Cm) as Fm. rewrite Forall_forall in Fm.
    exact (Fm c Hin).
Qed.

(** ** The bounds in Python's comparisons *)

Lemma within64_of_counted n (c : Candidate num) :
  (0 <= n <= 2 ^ 53)%Z ->
  (status c = Active -> unit64 (keep_rate c)) ->
  counted64 n c -> within64 n c.
Proof.
  intros Hn R (F & L & Z). unfold within64.
  destruct fin_0 as [F0 V0].
  assert (Fn : fin (float_of_int n)) by (apply float_of_int_fin; lia).
  split; [intros Hs; apply unit64_le, R, Hs|].
  split; [apply (proj2 (le64_fin _ _ F0 F)); rewrite V0; apply B2Q_nonneg, F|].
  split.
  { apply (proj2 (le64_fin _ _ F Fn)).
    rewrite float_of_int_value by lia. exact L. }
  intros Hs. apply (proj2 (float_eqb_fin _ _ F F0)). rewrite V0. apply Z, Hs.
Qed.

Lemma within64_all n (cs : list (Candidate num)) :
  (0 <= n <= 2 ^ 53)%Z ->
  rates64 cs -> Forall (counted64 n) cs -> Forall (within64 n) cs.
Proof.
  intros Hn R C. unfold rates64 in R. rewrite Forall_forall in *.
  intros c Hc. apply within64_of_counted; auto.
Qed.

Lemma rates64_of_le (cs : list (Candidate num)) :
  Forall (fun c => status c = Active ->
                   le64 0 (keep_rate c) /\ le64 (keep_rate c) 1) cs ->
  rates64 cs.
Proof.
  apply Forall_impl. intros c H Hs. apply unit64_le, H, Hs.
Qed.

(** ** The properties of the count and of the convergence loop *)

(** C3, as amended.  In binary64, for a state whose ballots name
    declared candidates, none of them twice, fewer than 2^53 ballots, and
    keep rates of the Active candidates between 0 and 1, whatever the
    statuses: the pass of [_recalculate_votes] succeeds, the votes and the
    values the ballots are left with are finite, and the votes of all
    candidates after it together with the values the ballots were left
    with differ from the number of ballots by the roundings only, at most
    P (2^K + 1) / 2^53 for P names on the ballots and at most 2^K
    ballots. *)
Theorem redistribution_conserves_up_to_rounding
  (s : SingleTransferableVote num) (K : Z) :
  well_formed s ->
  ballots_ok s ->
  rates_in_unit64 (candidates s) ->
  (0 <= K <= 53)%Z ->
  (Z.of_nat (length (ballots s)) <= 2 ^ K)%Z ->
  exists (cs' : list (Candidate num)) (rs : list float),
    walk_votes (ballots s) (zero_votes (candidates s)) = Ok (cs', rs) /\
    _recalculate_votes s = Ok (set_candidates s cs') /\
    length rs = length (ballots s) /\
    Forall (fun c => fin (votes c)) cs' /\
    Forall fin rs /\
    Qabs (tally64 cs' + remainders64 rs
          - inject_Z (Z.of_nat (length (ballots s))))
    <= inject_Z (preferences_count (ballots s))
       * (inject_Z (2 ^ K) + 1) / inject_Z (2 ^ 53).
Proof.
  intros W B R HK HN.
  destruct (recalculate_err s K W B (rates64_of_le _ R) HK HN)
    as (cs' & rs & Hw & Hr & L & _ & C1 & U1 & E1 & E2).
  exists cs', rs.
  split; [exact Hw|]. split; [exact Hr|]. split; [exact L|].
  split; [exact (counted64_fin _ _ C1)|].
  split; [eapply Forall_impl; [|exact U1]; intros r [F _]; exact F|].
  rewrite step_error_value in E1, E2 by lia.
  apply Qabs_Qle_condition.
  set (d := tally64 cs' + remainders64 rs
            - inject_Z (Z.of_nat (length (ballots s)))) in *.
  set (b := inject_Z (preferences_count (ballots s))) in *.
  set (e := (inject_Z (2 ^ K) + 1) / inject_Z (2 ^ 53)) in *.
  assert (Eb : b * (inject_Z (2 ^ K) + 1) / inject_Z (2 ^ 53) == b * e)
    by (unfold e; field; discriminate).
  rewrite Eb. split; lra.
Qed.

(** C5.  In binary64, in a run of the convergence loop on fewer than 2^53
    ballots under a quota that is not negative, the state [sk] after any
    number [k] of iterations has a next one, and from [sk] to it the keep
    rate of every Active candidate does not grow ([shrinks64]): it is
    multiplied by quota / votes, a factor between 0 and 1, when the votes
    are above the quota, and left alone when they are not. *)
Theorem keep_rates_never_grow64 (s sk : SingleTransferableVote num)
  (k : nat) :
  well_formed s ->
  ballots_ok s ->
  (0 <= droop_quota s < 2 ^ 63)%Z ->
  meek_iterations k (reset_keep_rates s) = Ok sk ->
  exists sk',
    meek_step sk = Ok sk' /\
    Forall2 (shrinks64 (droop_quota s)) (candidates sk) (candidates sk').
Proof.
  intros W B Hq Hk.
  assert (Wr : well_formed (reset_keep_rates s))
    by (eapply static_well_formed; [apply reset_static | exact W]).
  assert (Br : ballots_ok (reset_keep_rates s)) by exact B.
  destruct (meek_iterations64 k _ _ Wr Br Hq (reset_rates64 s) Hk)
    as (Wk & Bk & Qk & Rk).
  simpl in Qk.
  destruct (meek_step64 sk Wk Bk ltac:(lia) Rk) as (sk' & H & _ & _ & F).
  exists sk'. split; [exact H|]. rewrite <- Qk. exact F.
Qed.

(** X11.  In binary64, with keep rates of the Active candidates between
    0 and 1, a pass of [_recalculate_votes] over fewer than 2^53 ballots
    leaves every candidate between 0 votes and the number of ballots, a
    candidate that is Elected or Eliminated at 0, and to every ballot a
    value between 0 and 1. *)
Theorem recalculated_votes_are_bounded64 (s : SingleTransferableVote num) :
  well_formed s ->
  ballots_ok s ->
  rates_in_unit64 (candidates s) ->
  exists s' rs,
    _recalculate_votes s = Ok s' /\
    walk_votes (ballots s) (zero_votes (candidates s))
    = Ok (candidates s', rs) /\
    Forall (within64 (Z.of_nat (length (ballots s)))) (candidates s') /\
    Forall (fun r => le64 0 r /\ le64 r 1) rs.
Proof.
  intros W B R. pose proof B as [_ Bl].
  destruct (recalculate64 s W B (rates64_of_le _ R))
    as (s' & rs & H1 & H2 & R1 & C1 & U1).
  exists s', rs. split; [exact H1|]. split; [exact H2|]. split.
  - apply within64_all; [lia | exact R1 | exact C1].
  - eapply Forall_impl; [|exact U1]. intros r U. apply unit64_le, U.
Qed.

Lemma meek_for_iterations_pos64 n :
  forall s s' : SingleTransferableVote num,
  meek_for (S n) s = Ok s' ->
  exists k, (1 <= k <= S n)%nat /\ meek_iterations k s = Ok s'.
Proof.
  intros s s' H. cbn [meek_for] in H.
  apply bind_Ok in H. destruct H as [s1 [H1 H]].
  match type of H with (if ?b then _ else _) = _ => destruct b end.
  - inversion H; subst. exists 1%nat. split; [lia|].
    cbn [meek_iterations]. rewrite H1. reflexivity.
  - apply meek_for_iterations in H. destruct H as [k [Hk H]].
    exists (S k). split; [lia|].
    cbn [meek_iterations]. rewrite H1. exact H.
Qed.

(** X15.  What a round's convergence loop ends in, in binary64, on fewer
    than 2^53 ballots and under a quota that is not negative:
    [_run_meek_iteration] returns after at least one and at most
    [MAX_ITERATIONS] passes of the loop and one last count; the keep rate
    of every Active candidate is then between 0 and 1, every candidate
    holds between 0 votes and the number of ballots, and a candidate that
    is not Active holds none. *)
Theorem meek_iteration_ends_within_bounds64
  (s : SingleTransferableVote num) :
  well_formed s ->
  ballots_ok s ->
  (0 <= droop_quota s < 2 ^ 63)%Z ->
  exists s' s1 k,
    _run_meek_iteration s = Ok s' /\
    (1 <= k <= MAX_ITERATIONS)%nat /\
    meek_iterations k (reset_keep_rates s) = Ok s1 /\
    _recalculate_votes s1 = Ok s' /\
    Forall (within64 (Z.of_nat (length (ballots s)))) (candidates s').
Proof.
  intros W B Hq. pose proof B as [_ Bl].
  destruct (run_meek_iteration64 s W B Hq) as (s' & H & R & C).
  pose proof H as H0. unfold _run_meek_iteration in H0.
  apply bind_Ok in H0. destruct H0 as [s1 [H1 H2]].
  change MAX_ITERATIONS with (S 999) in H1.
  apply meek_for_iterations_pos64 in H1. destruct H1 as [k [Hk H1]].
  exists s', s1, k.
  split; [exact H|]. split; [exact Hk|]. split; [exact H1|].
  split; [exact H2|].
  apply within64_all; [lia | exact R | exact C].
Qed.

(** ** The quota and the seats *)

Lemma remainders64_nonneg (rs : list float) :
  Forall unit64 rs -> 0 <= remainders64 rs.
Proof.
  intros F. unfold remainders64. apply total_nonneg.
  apply Forall_forall. intros x Hx. apply in_map_iff in Hx.
  destruct Hx as [r [Hr Hin]]. subst x.
  rewrite Forall_forall in F. apply B2Q_nonneg, (F r Hin).
Qed.

(** Candidates over the quota hold more than the quota each. *)
Lemma over_quota_votes64 q (cs : list (Candidate num)) :
  (0 <= q <= 2 ^ 53)%Z ->
  Forall (fun c : Candidate num => fin (votes c)) cs ->
  inject_Z (Z.of_nat (length (filter (over_quota q) cs))) * inject_Z q
  <= tally64 cs.
Proof.
  intros Hq F. induction F as [|c cs Hc _ IH].
  - cbn. discriminate.
  - cbn [filter]. unfold tally64 in *. cbn [map].
    change (total (B2Q (votes c) :: map (fun c0 => B2Q (votes c0)) cs))
      with (B2Q (votes c) + total (map (fun c0 => B2Q (votes c0)) cs)).
    pose proof (B2Q_nonneg _ Hc) as N.
    destruct (over_quota q c) eqn:O.
    + unfold over_quota in O. f64.
      apply (float_ltb_fin _ _ (float_of_int_fin q ltac:(lia)) Hc) in O.
      rewrite float_of_int_value in O by lia.
      cbn [length]. rewrite Nat2Z.inj_succ. unfold Z.succ.
      rewrite inject_Z_plus. change (inject_Z 1) with 1.
      rewrite Qmult_plus_distr_l, Qmult_1_l. lra.
    + lra.
Qed.

(** X12.  The Droop quota leaves room for the seats and no more in
    binary64 too, as long as the roundings of a pass cannot add up to a
    whole ballot: with the quota at the value [_calculate_droop_quota] gives it,
    a number of seats that is not negative, keep rates between 0 and 1,
    at most 2^K ballots and P names on them with P (2^K + 1) < 2^53, a
    pass of [_recalculate_votes] puts at most [num_winners] candidates
    over the quota. *)
Theorem at_most_the_seats_over_quota64
  (s s' : SingleTransferableVote num) (K : Z) :
  well_formed s ->
  ballots_ok s ->
  rates_in_unit64 (candidates s) ->
  (0 <= num_winners s)%Z ->
  droop_quota s
  = (Z.of_nat (length (ballots s)) / (num_winners s + 1) + 1)%Z ->
  (0 <= K <= 53)%Z ->
  (Z.of_nat (length (ballots s)) <= 2 ^ K)%Z ->
  (preferences_count (ballots s) * (2 ^ K + 1) < 2 ^ 53)%Z ->
  _recalculate_votes s = Ok s' ->
  (Z.of_nat (length (filter (over_quota (droop_quota s')) (candidates s')))
   <= num_winners s')%Z.
Proof.
  intros W B R Hw Hq HK HN HP H. pose proof B as [_ Bl].
  destruct (recalculate_err s K W B (rates64_of_le _ R) HK HN)
    as (cs' & rs & _ & Hr & _ & _ & C1 & U1 & _ & E2).
  rewrite H in Hr. inversion Hr; subst s'. clear Hr.
  cbn [candidates set_candidates droop_quota num_winners].
  set (k := Z.of_nat (length (filter (over_quota (droop_quota s)) cs'))).
  set (n := Z.of_nat (length (ballots s))) in *.
  assert (P : (0 < num_winners s + 1)%Z) by lia.
  assert (N0 : (0 <= n / (num_winners s + 1))%Z).
  { apply Z.div_pos; [unfold n; lia | exact P]. }
  assert (N1 : (n / (num_winners s + 1) <= n)%Z).
  { apply Z.div_le_upper_bound; [exact P|]. unfold n. nia. }
  assert (Q0 : (0 <= droop_quota s <= 2 ^ 53)%Z) by lia.
  pose proof (over_quota_votes64 (droop_quota s) cs' Q0
                (counted64_fin _ _ C1)) as Kq.
  fold k in Kq.
  pose proof (remainders64_nonneg rs U1) as R0.
  assert (Es : inject_Z (preferences_count (ballots s)) * step_error (K - 53)
               < 1).
  { rewrite step_error_value by lia.
    setoid_replace
      (inject_Z (preferences_count (ballots s))
       * ((inject_Z (2 ^ K) + 1) / inject_Z (2 ^ 53)))
      with (inject_Z (preferences_count (ballots s) * (2 ^ K + 1))
            / inject_Z (2 ^ 53))
      by (rewrite inject_Z_mult, inject_Z_plus; field; discriminate).
    apply Qlt_shift_div_r; [reflexivity|]. rewrite Qmult_1_l.
    rewrite <- Zlt_Qlt. exact HP. }
  assert (L : inject_Z (k * droop_quota s) < inject_Z (n + 1)).
  { rewrite inject_Z_mult, inject_Z_plus. change (inject_Z 1) with 1. lra. }
  rewrite <- Zlt_Qlt in L.
  pose proof (Z.mul_succ_div_gt n _ P) as G.
  unfold Z.succ in G. rewrite <- Hq in G. rewrite Hq in L. rewrite Hq in G.
  nia.
Qed.

(** ** Ties *)

Lemma float_abs_fin (z : float) :
  fin z -> fin (abs z) /\ B2Q (abs z) == B2Q z.
Proof.
  unfold fin, B2Q. rewrite abs_spec.
  destruct (Prim2SF z) as [sz|sz| |sz mz ez]; cbn; try contradiction.
  - intros _. split; [exact Logic.I | reflexivity].
  - destruct sz; [contradiction|]. intros _.
    split; [exact Logic.I | reflexivity].
Qed.

Lemma fin_threshold :
  fin 0x1.12e0be826d695p-30%float /\
  pow2 emin64 < B2Q 0x1.12e0be826d695p-30%float.
Proof. split; [exact Logic.I | vm_compute; reflexivity]. Qed.

(** Two finite numbers that Python finds equal pass the tie test. *)
Lemma tied_equal64 (m : float) (c : Candidate num) :
  fin m -> fin (votes c) ->
  (votes c =? m)%float = true -> tied m c = true.
Proof.
  intros Fm Fv E. apply (float_eqb_fin _ _ Fv Fm) in E.
  assert (G : B2Q (votes c) - B2Q m <= F2Q (2 ^ 53) emin64).
  { setoid_replace (B2Q (votes c) - B2Q m) with 0 by (rewrite E; ring).
    vm_compute. discriminate. }
  destruct (float_sub_err (votes c) m emin64 Fv Fm ltac:(lra)
              ltac:(unfold emin64; lia) G) as [Fd [_ Ed]].
  destruct (float_abs_fin _ Fd) as [Fa Ea].
  destruct fin_threshold as [Ft Lt].
  unfold tied. f64.
  change CONVERGENCE_THRESHOLD with 0x1.12e0be826d695p-30%float.
  apply (float_ltb_fin _ _ Fa Ft). rewrite Ea. lra.
Qed.

(** X13.  [_eliminate_loser] breaks no tie in binary64 either: when all
    the Active candidates hold the same finite votes, every one of them
    is eliminated and no candidate is left Active. *)
Theorem full_tie_eliminates_everyone64 (s : SingleTransferableVote num) :
  Forall (fun c => fin (votes c)) (active_candidates s) ->
  (forall c d,
     In c (active_candidates s) -> In d (active_candidates s) ->
     (votes c =? votes d)%float = true) ->
  active_candidates (_eliminate_loser s) = [] /\
  Forall2
    (fun c c' =>
       status c' = (if is_active c then Eliminated else status c))
    (candidates s) (candidates (_eliminate_loser s)).
Proof.
  intros Fv T. rewrite Forall_forall in Fv. unfold _eliminate_loser.
  destruct (map votes (active_candidates s)) as [|v vs] eqn:E.
  - apply map_eq_nil in E. split; [exact E|].
    rewrite <- (map_id (candidates s)) at 2.
    apply Forall2_map_In. intros c Hc.
    destruct (is_active c) eqn:Ea; [|reflexivity].
    assert (Hca : In c (active_candidates s)) by (apply filter_In; auto).
    rewrite E in Hca. contradiction.
  - pose proof (py_min_In v vs) as M. rewrite <- E in M.
    apply in_map_iff in M. destruct M as [d [Hd Hin]].
    set (m := py_min v vs) in *.
    assert (G : forall c, In c (candidates s) ->
                eliminate m c
                = if is_active c then set_is_loser c true else c).
    { intros c Hc. unfold eliminate. destruct (is_active c) eqn:Ea;
        [|reflexivity].
      assert (Hca : In c (active_candidates s))
        by (apply filter_In; auto).
      rewrite (tied_equal64 m c); [reflexivity| | |].
      - rewrite <- Hd. apply Fv, Hin.
      - apply Fv, Hca.
      - rewrite <- Hd. apply T; assumption. }
    unfold active_candidates at 1. cbn [candidates set_candidates]. split.
    + apply filter_none. intros c' Hc'. apply in_map_iff in Hc'.
      destruct Hc' as [c [Hc Hc0]]. subst c'. rewrite (G c Hc0).
      destruct (is_active c) eqn:Ea; [|exact Ea].
      unfold is_active. cbn [set_is_loser is_loser is_winner].
      apply andb_false_r.
    + apply Forall2_map_In. intros c Hc. rewrite (G c Hc).
      destruct (is_active c) eqn:Ea; [|reflexivity].
      unfold is_active in Ea. apply andb_true_iff in Ea.
      destruct Ea as [Ew El]. apply negb_true_iff in Ew.
      unfold status. cbn [set_is_loser is_loser is_winner].
      rewrite Ew. reflexivity.
Qed.

(** ** A round without a surplus *)

Lemma dict_get_snapshot64 (cs : list (Candidate num)) c d :
  NoDup (map name cs) -> In c cs ->
  dict_get (snapshot cs) (name c) d = keep_rate c.
Proof.
  induction cs as [|c0 cs IH]; intros N Hin; [contradiction|].
  inversion N as [|? ? Hc0 Hcs]; subst.
  cbn [snapshot map dict_get].
  destruct (String.eqb_spec (name c0) (name c)) as [E|E].
  - destruct Hin as [Hin|Hin]; [subst; reflexivity|].
    exfalso. apply Hc0. rewrite E. apply in_map, Hin.
  - destruct Hin as [Hin|Hin]; [subst; contradiction|].
    apply IH; assumption.
Qed.

Lemma fold_left_zeros64 (l : list float) :
  Forall (fun x => x = 0%float) l ->
  fold_left PrimFloat.add l 0%float = 0%float.
Proof.
  intros F. induction F as [|x l Hx _ IH]; cbn [fold_left]; [reflexivity|].
  subst x. change (0 + 0)%float with 0%float. exact IH.
Qed.

(** Finite keep rates that did not move give a change of 0. *)
Lemma rate_unchanged64 (cs : list (Candidate num)) :
  NoDup (map name cs) ->
  Forall (fun c => fin (keep_rate c)) cs ->
  fltb (rate_changed (snapshot cs) cs) CONVERGENCE_THRESHOLD = true.
Proof.
  intros N F. unfold rate_changed. f64.
  change (float_of_int 0) with 0%float.
  rewrite fold_left_zeros64; [reflexivity|].
  apply Forall_forall. intros x Hx. apply in_map_iff in Hx.
  destruct Hx as [c [Hc Hin]]. subst x.
  rewrite (dict_get_snapshot64 cs c _ N Hin).
  rewrite Forall_forall in F.
  apply Prim2SF_inj. rewrite abs_spec.
  transitivity (SFabs (S754_zero false)); [|reflexivity].
  f_equal. exact (float_sub_self _ (F c Hin)).
Qed.

Lemma shrink_keep_rates_none64 q (cs : list (Candidate num)) :
  Forall (fun c : Candidate num => is_active c && over_quota q c = false)
    cs ->
  shrink_keep_rates q cs = Ok cs.
Proof.
  intros F. induction F as [|c cs Hc _ IH]; [reflexivity|].
  cbn [shrink_keep_rates]. unfold shrink at 1.
  unfold over_quota in Hc. rewrite Hc. cbn [bind]. rewrite IH.
  reflexivity.
Qed.

(** X14.  A round without a surplus is one pass in binary64 too, the keep
    rates being finite: when the count made with every Active keep rate
    back at 1 puts no Active candidate over the quota,
    [_run_meek_iteration] leaves the loop at its first convergence test
    and returns that count, the keep rate of every Active candidate at 1
    and that of the others as it was. *)
Theorem round_without_surplus_is_one_pass64
  (s s1 : SingleTransferableVote num) :
  NoDup (map name (candidates s)) ->
  Forall (fun c => status c <> Active -> fin (keep_rate c)) (candidates s) ->
  _recalculate_votes (reset_keep_rates s) = Ok s1 ->
  Forall (fun c : Candidate num =>
            is_active c && over_quota (droop_quota s1) c = false)
    (candidates s1) ->
  _run_meek_iteration s = Ok s1 /\
  Forall2
    (fun c c1 =>
       ident c1 = ident c /\
       keep_rate c1 = if is_active c then of_int 1 else keep_rate c)
    (candidates s) (candidates s1).
Proof.
  intros N Fk H F.
  assert (Hp : forall {X : Type} (p : Candidate num -> X),
             votes_free p ->
             map p (candidates s1) = map p (candidates (reset_keep_rates s)))
    by (intros X p Vp; apply (recalculate_map p _ _ Vp H)).
  assert (N1 : NoDup (map name (candidates s1))).
  { rewrite (Hp _ name) by (intros c v; reflexivity).
    rewrite reset_keep_rates_map by (intros c k; reflexivity). exact N. }
  assert (R2 : Forall2
    (fun c c1 : Candidate num =>
       ident c1 = ident c /\
       keep_rate c1 = if is_active c then of_int 1 else keep_rate c)
    (candidates s) (candidates s1)).
  { pose proof (Hp _ (fun c => (ident c, keep_rate c))
                  (fun c v => eq_refl)) as E.
    unfold reset_keep_rates in E. cbn [candidates set_candidates] in E.
    rewrite map_map in E. revert E.
    generalize (candidates s1). generalize (candidates s). clear.
    intros cs. induction cs as [|c cs IH]; intros [|c1 cs1] E;
      try discriminate; constructor.
    + cbn [map] in E.
      pose proof (f_equal (@hd_error _) E) as Eh. cbn [hd_error] in Eh.
      assert (Ei : ident c1
                   = ident (if is_active c
                            then set_keep_rate c (of_int 1) else c))
        by congruence.
      assert (Ek : keep_rate c1
                   = keep_rate (if is_active c
                                then set_keep_rate c (of_int 1) else c))
        by congruence.
      destruct (is_active c); split; assumption.
    + apply IH. cbn [map] in E.
      exact (f_equal (@tl _) E). }
  split; [|exact R2].
  assert (F1 : Forall (fun c : Candidate num => fin (keep_rate c))
                 (candidates s1)).
  { clear - Fk R2. induction R2 as [|c c1 cs cs1 [_ Ek] _ IH];
      constructor.
    - inversion Fk as [|? ? Hc _]; subst. rewrite Ek.
      destruct (is_active c) eqn:Ea.
      + f64. apply one64.
      + apply Hc. intros Hs. apply status_active in Hs. congruence.
    - apply IH. inversion Fk; assumption. }
  unfold _run_meek_iteration. change MAX_ITERATIONS with (S 999).
  cbn [meek_for].
  assert (Hs : meek_step (reset_keep_rates s) = Ok s1).
  { unfold meek_step. rewrite H. cbn [bind].
    rewrite (shrink_keep_rates_none64 _ _ F). cbn [bind].
    destruct s1; reflexivity. }
  rewrite Hs. cbn [bind].
  assert (Es : snapshot (candidates (reset_keep_rates s))
               = snapshot (candidates s1)).
  { unfold snapshot. symmetry. apply Hp. intros c v; reflexivity. }
  rewrite Es, (rate_unchanged64 _ N1 F1). cbn [bind].
  apply (recalculate_votes_idempotent_aux _ _ H).
Qed.

End Binary64Count.

(** * Instances in binary64 *)

Section Binary64Instances.

Import Binary64Scenario.

#[local] Existing Instance FloatArith.

Open Scope Q_scope.

Lemma shares_well_formed : well_formed shares.
Proof.
  split.
  - simpl. repeat constructor; simpl; intuition discriminate.
  - repeat constructor.
Qed.

Lemma heavy_well_formed : well_formed heavy.
Proof.
  split.
  - simpl. repeat constructor; simpl; intuition discriminate.
  - repeat constructor.
Qed.

(** In binary64 the votes and what is left of the ballots do not add up
    to the number of ballots.  With one ballot AB, A keeping 0.3 and B 0.2
    of what reaches them, they add up to less than the one ballot, as
    exact values and in Python's sum; with one ballot A and the keep rate
    of A at 2^1000, they add up to 0. *)
Lemma conservation_is_not_exact_in_binary64 :
  (well_formed shares /\
   walk_votes (ballots shares) (zero_votes (candidates shares))
   = Ok (shares_counted, shares_left) /\
   _recalculate_votes shares = Ok (set_candidates shares shares_counted) /\
   ~ tally64 shares_counted + remainders64 shares_left
     == inject_Z (Z.of_nat (length (ballots shares))) /\
   (float_sum (map votes shares_counted) + float_sum shares_left
    =? float_of_int (Z.of_nat (length (ballots shares))))%float = false) /\
  (well_formed heavy /\
   walk_votes (ballots heavy) (zero_votes (candidates heavy))
   = Ok (heavy_counted, heavy_left) /\
   _recalculate_votes heavy = Ok (set_candidates heavy heavy_counted) /\
   inject_Z (Z.of_nat (length (ballots heavy)))
   - (tally64 heavy_counted + remainders64 heavy_left) == 1 /\
   (float_sum (map votes heavy_counted) + float_sum heavy_left
    =? float_of_int (Z.of_nat (length (ballots heavy))))%float = false).
Proof.
  split.
  - split; [exact shares_well_formed|].
    split; [vm_compute; reflexivity|].
    split; [vm_compute; reflexivity|].
    split; [|vm_compute; reflexivity].
    intros H. vm_compute in H. discriminate H.
  - split; [exact heavy_well_formed|].
    split; [vm_compute; reflexivity|].
    split; [vm_compute; reflexivity|].
    split; vm_compute; reflexivity.
Qed.

Lemma partial_well_formed64 : well_formed partial.
Proof.
  split.
  - simpl. repeat constructor; simpl; intuition discriminate.
  - repeat constructor.
Qed.

Lemma partial_ballots_ok : ballots_ok partial.
Proof.
  split; [|reflexivity].
  repeat constructor; simpl; intuition discriminate.
Qed.

Lemma partial_rates_in_unit64 : rates_in_unit64 (candidates partial).
Proof.
  unfold rates_in_unit64.
  repeat (constructor;
          [intros H; try discriminate H; split; vm_compute; reflexivity|]).
  constructor.
Qed.

Lemma conservation_at_partial64 :
  well_formed partial /\
  ballots_ok partial /\
  rates_in_unit64 (candidates partial) /\
  (0 <= 2 <= 53)%Z /\
  (Z.of_nat (length (ballots partial)) <= 2 ^ 2)%Z /\
  exists (cs' : list (Candidate num)) (rs : list float),
    walk_votes (ballots partial) (zero_votes (candidates partial))
    = Ok (cs', rs) /\
    _recalculate_votes partial = Ok (set_candidates partial cs') /\
    length rs = length (ballots partial) /\
    Forall (fun c => fin (votes c)) cs' /\
    Forall fin rs /\
    Qabs (tally64 cs' + remainders64 rs
          - inject_Z (Z.of_nat (length (ballots partial))))
    <= inject_Z (preferences_count (ballots partial))
       * (inject_Z (2 ^ 2) + 1) / inject_Z (2 ^ 53).
Proof.
  assert (HK : (0 <= 2 <= 53)%Z) by lia.
  assert (HN : (Z.of_nat (length (ballots partial)) <= 2 ^ 2)%Z)
    by (vm_compute; discriminate).
  split; [exact partial_well_formed64|].
  split; [exact partial_ballots_ok|].
  split; [exact partial_rates_in_unit64|].
  split; [exact HK|]. split; [exact HN|].
  apply (redistribution_conserves_up_to_rounding partial 2
           partial_well_formed64 partial_ballots_ok
           partial_rates_in_unit64 HK HN).
Defined.

Lemma surplus_well_formed64 : well_formed surplus.
Proof.
  split.
  - simpl. repeat constructor; simpl; intuition discriminate.
  - repeat constructor.
Qed.

Lemma surplus_ballots_ok : ballots_ok surplus.
Proof.
  split; [|reflexivity].
  repeat constructor; simpl; intuition discriminate.
Qed.

Lemma surplus_rates_in_unit64 : rates_in_unit64 (candidates surplus).
Proof.
  unfold rates_in_unit64.
  repeat (constructor;
          [intros H; try discriminate H; split; vm_compute; reflexivity|]).
  constructor.
Qed.

Lemma keep_rates_at_surplus64 :
  well_formed surplus /\
  ballots_ok surplus /\
  (0 <= droop_quota surplus < 2 ^ 63)%Z /\
  meek_iterations 1 (reset_keep_rates surplus) = Ok surplus_1 /\
  exists sk',
    meek_step surplus_1 = Ok sk' /\
    Forall2 (shrinks64 (droop_quota surplus))
      (candidates surplus_1) (candidates sk').
Proof.
  assert (Hq : (0 <= droop_quota surplus < 2 ^ 63)%Z)
    by (split; [discriminate | reflexivity]).
  assert (H : meek_iterations 1 (reset_keep_rates surplus) = Ok surplus_1)
    by (vm_compute; reflexivity).
  split; [exact surplus_well_formed64|].
  split; [exact surplus_ballots_ok|].
  split; [exact Hq|]. split; [exact H|].
  apply (keep_rates_never_grow64 surplus surplus_1 1
           surplus_well_formed64 surplus_ballots_ok Hq H).
Defined.

Lemma termination_at_scenario64 :
  (1 <= 1)%Z /\
  ballots (_load_data (@init FloatArith Scenario.names 1) Scenario.file)
  <> [] /\
  (Z.of_nat
     (length
        (ballots (_load_data (@init FloatArith Scenario.names 1)
                    Scenario.file)))
   < 2 ^ 53)%Z /\
  (exists s',
     run_election 4 (@init FloatArith Scenario.names 1) Scenario.file
     = Some (Ok s')) /\
  (forall s2 s s',
     _calculate_droop_quota
       (_load_data (@init FloatArith Scenario.names 1) Scenario.file)
     = Ok s2 ->
     rounds s2 s ->
     next_round s s' ->
     (length (active_candidates s') < length (active_candidates s))%nat) /\
  (forall s2 s sm c,
     _calculate_droop_quota
       (_load_data (@init FloatArith Scenario.names 1) Scenario.file)
     = Ok s2 ->
     rounds s2 s ->
     _run_meek_iteration s = Ok sm ->
     In c (candidates sm) ->
     tied (votes c) c = true).
Proof.
  assert (H1 : (1 <= 1)%Z) by lia.
  assert (H2 : ballots (_load_data (@init FloatArith Scenario.names 1)
                          Scenario.file) <> [])
    by (vm_compute; discriminate).
  assert (H3 : (Z.of_nat
                  (length
                     (ballots (_load_data (@init FloatArith Scenario.names 1)
                                 Scenario.file)))
                < 2 ^ 53)%Z)
    by (vm_compute; reflexivity).
  split; [exact H1|]. split; [exact H2|]. split; [exact H3|].
  apply (main_loop_terminates64 Scenario.names 1 Scenario.file H1 H2 H3).
Defined.

Lemma bounds_at_partial64 :
  well_formed partial /\
  ballots_ok partial /\
  rates_in_unit64 (candidates partial) /\
  exists s' rs,
    _recalculate_votes partial = Ok s' /\
    walk_votes (ballots partial) (zero_votes (candidates partial))
    = Ok (candidates s', rs) /\
    Forall (within64 (Z.of_nat (length (ballots partial)))) (candidates s') /\
    Forall (fun r => le64 0 r /\ le64 r 1) rs.
Proof.
  split; [exact partial_well_formed64|].
  split; [exact partial_ballots_ok|].
  split; [exact partial_rates_in_unit64|].
  apply (recalculated_votes_are_bounded64 partial partial_well_formed64
           partial_ballots_ok partial_rates_in_unit64).
Defined.

Lemma one_over_quota_at_surplus64 :
  well_formed surplus /\
  ballots_ok surplus /\
  rates_in_unit64 (candidates surplus) /\
  (0 <= num_winners surplus)%Z /\
  droop_quota surplus
  = (Z.of_nat (length (ballots surplus)) / (num_winners surplus + 1) + 1)%Z /\
  (0 <= 3 <= 53)%Z /\
  (Z.of_nat (length (ballots surplus)) <= 2 ^ 3)%Z /\
  (preferences_count (ballots surplus) * (2 ^ 3 + 1) < 2 ^ 53)%Z /\
  _recalculate_votes surplus = Ok surplus_counted /\
  length (filter (over_quota (droop_quota surplus_counted))
            (candidates surplus_counted)) = 1%nat /\
  (Z.of_nat (length (filter (over_quota (droop_quota surplus_counted))
                       (candidates surplus_counted)))
   <= num_winners surplus_counted)%Z.
Proof.
  assert (Hw : (0 <= num_winners surplus)%Z) by discriminate.
  assert (Hq : droop_quota surplus
               = (Z.of_nat (length (ballots surplus))
                  / (num_winners surplus + 1) + 1)%Z) by reflexivity.
  assert (HK : (0 <= 3 <= 53)%Z) by lia.
  assert (HN : (Z.of_nat (length (ballots surplus)) <= 2 ^ 3)%Z)
    by (vm_compute; discriminate).
  assert (HP : (preferences_count (ballots surplus) * (2 ^ 3 + 1)
                < 2 ^ 53)%Z)
    by (vm_compute; reflexivity).
  assert (H : _recalculate_votes surplus = Ok surplus_counted)
    by (vm_compute; reflexivity).
  split; [exact surplus_well_formed64|].
  split; [exact surplus_ballots_ok|].
  split; [exact surplus_rates_in_unit64|].
  split; [exact Hw|]. split; [exact Hq|]. split; [exact HK|].
  split; [exact HN|]. split; [exact HP|]. split; [exact H|].
  split; [vm_compute; reflexivity|].
  apply (at_most_the_seats_over_quota64 surplus surplus_counted 3
           surplus_well_formed64 surplus_ballots_ok surplus_rates_in_unit64
           Hw Hq HK HN HP H).
Defined.

Lemma full_tie_at_tie64 :
  Forall (fun c => fin (votes c)) (active_candidates tie) /\
  (forall c d,
     In c (active_candidates tie) -> In d (active_candidates tie) ->
     (votes c =? votes d)%float = true) /\
  active_candidates (_eliminate_loser tie) = [] /\
  Forall2
    (fun c c' =>
       status c' = (if is_active c then Eliminated else status c))
    (candidates tie) (candidates (_eliminate_loser tie)).
Proof.
  assert (F : Forall (fun c : Candidate num => fin (votes c))
                (active_candidates tie))
    by (repeat constructor).
  assert (T : forall c d,
             In c (active_candidates tie) -> In d (active_candidates tie) ->
             (votes c =? votes d)%float = true).
  { intros c d [Hc|[Hc|[]]] [Hd|[Hd|[]]]; subst c d; reflexivity. }
  split; [exact F|]. split; [exact T|].
  apply (full_tie_eliminates_everyone64 tie F T).
Defined.

Lemma one_pass_at_partial64 :
  NoDup (map name (candidates partial)) /\
  Forall (fun c => status c <> Active -> fin (keep_rate c))
    (candidates partial) /\
  _recalculate_votes (reset_keep_rates partial) = Ok partial_reset /\
  Forall (fun c : Candidate num =>
            is_active c && over_quota (droop_quota partial_reset) c = false)
    (candidates partial_reset) /\
  _run_meek_iteration partial = Ok partial_reset /\
  Forall2
    (fun c c1 =>
       ident c1 = ident c /\
       keep_rate c1 = if is_active c then of_int 1 else keep_rate c)
    (candidates partial) (candidates partial_reset).
Proof.
  assert (N : NoDup (map name (candidates partial)))
    by exact (proj1 partial_well_formed64).
  assert (Fk : Forall (fun c : Candidate num =>
                         status c <> Active -> fin (keep_rate c))
                 (candidates partial))
    by (repeat (constructor; [intros _; exact Logic.I|]); constructor).
  assert (H : _recalculate_votes (reset_keep_rates partial)
              = Ok partial_reset)
    by (vm_compute; reflexivity).
  assert (F : Forall (fun c : Candidate num =>
                        is_active c
                        && over_quota (droop_quota partial_reset) c = false)
                (candidates partial_reset))
    by (repeat constructor).
  split; [exact N|]. split; [exact Fk|]. split; [exact H|].
  split; [exact F|].
  apply (round_without_surplus_is_one_pass64 partial partial_reset N Fk H F).
Defined.

Lemma meek_iteration_bounds_at_surplus64 :
  well_formed surplus /\
  ballots_ok surplus /\
  (0 <= droop_quota surplus < 2 ^ 63)%Z /\
  _run_meek_iteration surplus = Ok surplus_converged /\
  exists s' s1 k,
    _run_meek_iteration surplus = Ok s' /\
    (1 <= k <= MAX_ITERATIONS)%nat /\
    meek_iterations k (reset_keep_rates surplus) = Ok s1 /\
    _recalculate_votes s1 = Ok s' /\
    Forall (within64 (Z.of_nat (length (ballots surplus)))) (candidates s').
Proof.
  assert (Hq : (0 <= droop_quota surplus < 2 ^ 63)%Z)
    by (split; [discriminate | reflexivity]).
  split; [exact surplus_well_formed64|].
  split; [exact surplus_ballots_ok|].
  split; [exact Hq|].
  split; [vm_compute; reflexivity|].
  apply (meek_iteration_ends_within_bounds64 surplus surplus_well_formed64
           surplus_ballots_ok Hq).
Defined.

End Binary64Instances.
